(** * shulib-path-planner: the core of the path planner, embedded in Rocq

    A shallow embedding of the core modules of the planner
    ([core/models.py], [core/undo.py], [core/coordinates.py],
    [core/geomtry.py], [core/commands.py]) and of the code around them
    that edits the same data (the documents of [io/project_io.py], the
    grouping of [io/season_loader.py], the handlers of the canvas and of
    the panels in [ui/]), together with the properties its specification
    states about the core.

    Conventions of the embedding:
    - a Python exception is a value of [exn]; a function that can raise
      returns in the error monad [py];
    - a Python [int] is a [Z]; a Python [float] is an IEEE-754 binary64
      number, [spec_float] with precision 53 and maximal exponent 1024,
      so that rounding, infinities and NaN are those of the interpreter;
    - a Python [list] is a [list] in the same order (index 0 first);
      a [dict] with string keys is an association list in insertion order;
    - the file is in three parts: the embedding; the properties that the
      specification claims; further properties of the code. *)

From Stdlib Require Import ZArith QArith Qabs Qpower Lia Lqa SpecFloat.
From stdpp Require Import base option list strings.

Local Open Scope Z_scope.

(** * Part I: the embedding *)

(** ** Exceptions *)

Inductive exn : Set :=
  | KeyError | ValueError | TypeError | IndexError
  | ZeroDivisionError | OverflowError.

Inductive py (A : Type) : Type :=
  | Ok (a : A)
  | Raise (e : exn).
Arguments Ok {A} a.
Arguments Raise {A} e.

#[global] Instance py_ret : MRet py := fun A a => Ok a.
#[global] Instance py_bind : MBind py := fun A B f m =>
  match m with Ok a => f a | Raise e => Raise e end.
#[global] Instance py_fmap : FMap py := fun A B f m =>
  match m with Ok a => Ok (f a) | Raise e => Raise e end.

#[global] Instance exn_eq_dec : EqDecision exn.
Proof. solve_decision. Defined.

(** ** core/models.py: enumerations *)

Inductive MotionType : Set := START | MOVE_TO_POSE | MOVE_VERTICAL | ROTATE_TO.
Inductive HeadingMode : Set := AUTO | MANUAL.
Inductive Side : Set := LEFT | RIGHT | FULL.
Inductive Alliance : Set := RED | BLUE.

#[global] Instance MotionType_eq_dec : EqDecision MotionType.
Proof. solve_decision. Defined.
#[global] Instance HeadingMode_eq_dec : EqDecision HeadingMode.
Proof. solve_decision. Defined.
#[global] Instance Side_eq_dec : EqDecision Side.
Proof. solve_decision. Defined.
#[global] Instance Alliance_eq_dec : EqDecision Alliance.
Proof. solve_decision. Defined.

(** The [.value] of each member, and the lookup by value that calling the
    enumeration class performs ([MotionType("start")]); an unknown value
    raises [ValueError]. *)

Definition MotionType_value (m : MotionType) : string :=
  match m with
  | START => "start"
  | MOVE_TO_POSE => "moveToPose"
  | MOVE_VERTICAL => "moveVertical"
  | ROTATE_TO => "rotateTo"
  end.

Definition MotionType_of_value (s : string) : py MotionType :=
  if decide (s = "start") then Ok START
  else if decide (s = "moveToPose") then Ok MOVE_TO_POSE
  else if decide (s = "moveVertical") then Ok MOVE_VERTICAL
  else if decide (s = "rotateTo") then Ok ROTATE_TO
  else Raise ValueError.

Definition HeadingMode_value (m : HeadingMode) : string :=
  match m with AUTO => "auto" | MANUAL => "manual" end.

Definition HeadingMode_of_value (s : string) : py HeadingMode :=
  if decide (s = "auto") then Ok AUTO
  else if decide (s = "manual") then Ok MANUAL
  else Raise ValueError.

Definition Side_value (s : Side) : string :=
  match s with LEFT => "left" | RIGHT => "right" | FULL => "full" end.

Definition Side_of_value (s : string) : py Side :=
  if decide (s = "left") then Ok LEFT
  else if decide (s = "right") then Ok RIGHT
  else if decide (s = "full") then Ok FULL
  else Raise ValueError.

Definition Alliance_value (a : Alliance) : string :=
  match a with RED => "red" | BLUE => "blue" end.

Definition Alliance_of_value (s : string) : py Alliance :=
  if decide (s = "red") then Ok RED
  else if decide (s = "blue") then Ok BLUE
  else Raise ValueError.

(** ** Python numbers

    [float] is binary64.  The arithmetic operators of the interpreter are
    the correctly rounded IEEE operations (round to nearest, ties to
    even); what Python adds on top of them is the raising of exceptions,
    written out below. *)

Definition float : Set := spec_float.

#[global] Instance float_eq_dec : EqDecision float.
Proof. unfold float. solve_decision. Defined.

Definition prec : Z := 53.
Definition emax : Z := 1024.

Definition fadd : float -> float -> float := SFadd prec emax.
Definition fsub : float -> float -> float := SFsub prec emax.
Definition fmul : float -> float -> float := SFmul prec emax.
Definition flt : float -> float -> bool := SFltb.
Definition feq : float -> float -> bool := SFeqb.

(** The float nearest to the integer [n]; for an integer that binary64
    holds exactly ([72.0], [360], [1], ...) it is the float the literal
    denotes. *)
Definition float_lit (n : Z) : float := binary_normalize prec emax n 0 false.

Definition fzero : float := S754_zero false.

(** [x / y] on floats: a zero divisor of either sign raises. *)
Definition truediv (x y : float) : py float :=
  if feq y fzero then Raise ZeroDivisionError else Ok (SFdiv prec emax x y).

(** The least magnitude that rounds beyond the largest float: half an ulp
    above [sys.float_info.max]. *)
Definition float_overflow_threshold : Z := 2 ^ 1024 - 2 ^ 970.

(** [float(n)] for an [int], as the mixed operators apply it to their
    integer operand: correctly rounded, [OverflowError] beyond the range. *)
Definition int_to_float (n : Z) : py float :=
  if float_overflow_threshold <=? Z.abs n then Raise OverflowError
  else Ok (binary_normalize prec emax n 0 false).

(** An integer as an unrounded binary number with exponent 0. *)
Definition exact_int (n : Z) : float :=
  match n with
  | Z0 => S754_zero false
  | Zpos p => S754_finite false p 0
  | Zneg p => S754_finite true p 0
  end.

(** [a / b] on two [int]s: the quotient of the integers rounded once;
    [OverflowError] when it rounds beyond the largest float. *)
Definition int_truediv (a b : Z) : py float :=
  if b =? 0 then Raise ZeroDivisionError
  else if float_overflow_threshold * Z.abs b <=? Z.abs a then Raise OverflowError
  else Ok (SFdiv prec emax (exact_int a) (exact_int b)).

(** [int(x)]: truncation towards zero. *)
Definition int_of_float (x : float) : py Z :=
  match x with
  | S754_zero _ => Ok 0
  | S754_infinity _ => Raise OverflowError
  | S754_nan => Raise ValueError
  | S754_finite s m e => Ok (cond_Zopp s (Z.shiftl (Zpos m) e))
  end.

(** [math.sqrt]: a negative argument is a domain error. *)
Definition math_sqrt (x : float) : py float :=
  match x with
  | S754_finite true _ _ | S754_infinity true => Raise ValueError
  | _ => Ok (SFsqrt prec emax x)
  end.

Section Power.
(** [pow] of the C library, which the interpreter calls for a base that
    is finite, positive and other than 1. *)
Variable c_pow : float -> float -> float.

(** [x ** k] for a float [x] and an [int] literal [k >= 1]: the cases
    that the interpreter settles itself (a NaN, an infinity, a zero, a
    negative base, the base 1), then the library's [pow] on the
    magnitude; [OverflowError] when that is infinite. *)
Definition float_pow (x : float) (k : Z) : py float :=
  match x with
  | S754_nan => Ok x
  | S754_infinity _ => Ok (if Z.odd k then x else SFabs x)
  | S754_zero _ => Ok (if Z.odd k then x else fzero)
  | S754_finite s _ _ =>
      let negate_result := s && Z.odd k in
      let x := SFabs x in
      if feq x (float_lit 1)
      then Ok (if negate_result then float_lit (-1) else float_lit 1)
      else
        match c_pow x (float_lit k) with
        | S754_infinity _ => Raise OverflowError
        | ix => Ok (if negate_result then SFopp ix else ix)
        end
  end.

End Power.

(** ** Python values that travel through [to_dict] / [from_dict]

    The documents built by [to_dict] hold [None], booleans, floats,
    strings, lists and dictionaries with string keys.  A dictionary is
    kept in insertion order; its keys are pairwise distinct. *)

#[local] Unset Elimination Schemes.
Inductive pyval : Type :=
  | PyNone
  | PyBool (b : bool)
  | PyFloat (f : float)
  | PyStr (s : string)
  | PyList (l : list pyval)
  | PyDict (d : list (string * pyval)).
#[local] Set Elimination Schemes.

Definition pydict : Type := list (string * pyval).

(** [k in data], and the value stored under [k]. *)
Fixpoint dict_lookup (data : pydict) (k : string) : option pyval :=
  match data with
  | [] => None
  | (k', v) :: rest => if String.eqb k' k then Some v else dict_lookup rest k
  end.

(** [data[k]] *)
Definition getitem (data : pydict) (k : string) : py pyval :=
  match dict_lookup data k with
  | Some v => Ok v
  | None => Raise KeyError
  end.

(** [data.get(k, default)]; [data.get(k)] is [dict_get data k PyNone]. *)
Definition dict_get (data : pydict) (k : string) (default : pyval) : pyval :=
  match dict_lookup data k with
  | Some v => v
  | None => default
  end.

(** Reading a value at the type the dataclass field declares.  Python
    stores whatever object the document holds; the records below are
    typed, so a document whose value has another dynamic type is outside
    the embedding.  [TypeError] marks it: on such a document the code
    itself raises nothing at this point (it returns an object one of
    whose fields holds the foreign value), except where it subscripts or
    iterates the value. *)

Definition as_float (v : pyval) : py float :=
  match v with PyFloat f => Ok f | _ => Raise TypeError end.

Definition as_optional_float (v : pyval) : py (option float) :=
  match v with
  | PyNone => Ok None
  | PyFloat f => Ok (Some f)
  | _ => Raise TypeError
  end.

Definition as_bool (v : pyval) : py bool :=
  match v with PyBool b => Ok b | _ => Raise TypeError end.

Definition as_str (v : pyval) : py string :=
  match v with PyStr s => Ok s | _ => Raise TypeError end.

Definition as_list (v : pyval) : py (list pyval) :=
  match v with PyList l => Ok l | _ => Raise TypeError end.

Definition as_dict (v : pyval) : py pydict :=
  match v with PyDict d => Ok d | _ => Raise TypeError end.

(** Calling an enumeration class on a value: [ValueError] unless the
    value is the string of one of its members. *)
Definition enum_of {E : Type} (of_value : string -> py E) (v : pyval) : py E :=
  match v with PyStr s => of_value s | _ => Raise ValueError end.

(** ** core/models.py: Waypoint *)

Record Waypoint : Type := mkWaypoint {
  wp_x : float;
  wp_y : float;
  heading : option float;
  heading_mode : HeadingMode;
  motion_type : MotionType;
  reverse : bool;
  intaking : bool;
  conveyor : bool;
  commands_after : list string
}.

#[global] Instance Waypoint_eq_dec : EqDecision Waypoint.
Proof. solve_decision. Defined.

(** [Waypoint(x=x, y=y)]: every other field at its declared default. *)
Definition Waypoint_new (x y : float) : Waypoint :=
  {| wp_x := x; wp_y := y; heading := None; heading_mode := AUTO;
     motion_type := MOVE_TO_POSE; reverse := false; intaking := false;
     conveyor := false; commands_after := [] |}.

(** [w.motion_type = m] *)
Definition set_motion_type (m : MotionType) (w : Waypoint) : Waypoint :=
  {| wp_x := wp_x w; wp_y := wp_y w; heading := heading w;
     heading_mode := heading_mode w; motion_type := m;
     reverse := reverse w; intaking := intaking w; conveyor := conveyor w;
     commands_after := commands_after w |}.

Module Waypoint.

Definition to_dict (self : Waypoint) : pydict :=
  [ ("x", PyFloat (wp_x self));
    ("y", PyFloat (wp_y self));
    ("heading", match heading self with Some h => PyFloat h | None => PyNone end);
    ("heading_mode", PyStr (HeadingMode_value (heading_mode self)));
    ("motion_type", PyStr (MotionType_value (motion_type self)));
    ("reverse", PyBool (reverse self));
    ("intaking", PyBool (intaking self));
    ("conveyor", PyBool (conveyor self));
    ("commands_after", PyList (PyStr <$> commands_after self)) ].

(** The arguments of the constructor call are evaluated in order: of
    these the two subscripts can raise ([KeyError]) and the two calls of
    the enumeration classes ([ValueError]); every other value is stored
    as it is.  The reads at the types of the fields come after them, so
    that [KeyError] and [ValueError] are raised on the documents on which
    the code raises them. *)
Definition from_dict (data : pydict) : py Waypoint :=
  xv ← getitem data "x";
  yv ← getitem data "y";
  hm ← enum_of HeadingMode_of_value (dict_get data "heading_mode" (PyStr "auto"));
  mt ← enum_of MotionType_of_value (dict_get data "motion_type" (PyStr "moveToPose"));
  x ← as_float xv;
  y ← as_float yv;
  h ← as_optional_float (dict_get data "heading" PyNone);
  rv ← as_bool (dict_get data "reverse" (PyBool false));
  it ← as_bool (dict_get data "intaking" (PyBool false));
  cv ← as_bool (dict_get data "conveyor" (PyBool false));
  ca ← as_list (dict_get data "commands_after" (PyList [])) ≫= mapM as_str;
  Ok {| wp_x := x; wp_y := y; heading := h; heading_mode := hm;
        motion_type := mt; reverse := rv; intaking := it; conveyor := cv;
        commands_after := ca |}.

End Waypoint.

(** ** core/models.py: Path *)

Record Path : Type := mkPath {
  name : string;
  alliance : Alliance;
  side : Side;
  waypoints : list Waypoint
}.

#[global] Instance Path_eq_dec : EqDecision Path.
Proof. solve_decision. Defined.

(** [Path(name=..., alliance=..., side=...)]: no waypoints yet. *)
Definition Path_new (n : string) (a : Alliance) (s : Side) : Path :=
  {| name := n; alliance := a; side := s; waypoints := [] |}.

Definition set_waypoints (ws : list Waypoint) (p : Path) : Path :=
  {| name := name p; alliance := alliance p; side := side p; waypoints := ws |}.

Module Path.

(** Returns the index of the new waypoint and the updated path. *)
Definition add_waypoint (self : Path) (x y : float) : Z * Path :=
  let motion :=
    if Z.of_nat (length (waypoints self)) =? 0 then START else MOVE_TO_POSE in
  let wp := set_motion_type motion (Waypoint_new x y) in
  let ws := waypoints self ++ [wp] in
  (Z.of_nat (length ws) - 1, set_waypoints ws self).

Definition remove_waypoint (self : Path) (index : Z) : Path :=
  if (0 <=? index) && (index <? Z.of_nat (length (waypoints self))) then
    let ws := delete (Z.to_nat index) (waypoints self) in
    if (index =? 0) && (0 <? Z.of_nat (length ws)) then
      set_waypoints (alter (set_motion_type START) 0%nat ws) self
    else set_waypoints ws self
  else self.

Definition is_valid_position (self : Path) (x y : float) : bool :=
  match side self with
  | FULL => true
  | LEFT => SFleb x fzero
  | RIGHT => SFleb fzero x
  end.

Definition to_dict (self : Path) : pydict :=
  [ ("name", PyStr (name self));
    ("alliance", PyStr (Alliance_value (alliance self)));
    ("side", PyStr (Side_value (side self)));
    ("waypoints", PyList ((fun w => PyDict (Waypoint.to_dict w)) <$> waypoints self)) ].

Definition from_dict (data : pydict) : py Path :=
  nv ← getitem data "name";
  a ← enum_of Alliance_of_value (dict_get data "alliance" (PyStr "red"));
  s ← enum_of Side_of_value (dict_get data "side" (PyStr "left"));
  n ← as_str nv;
  ws ← as_list (dict_get data "waypoints" (PyList []))
         ≫= mapM (fun w => as_dict w ≫= Waypoint.from_dict);
  Ok (set_waypoints ws (Path_new n a s)).

End Path.

(** ** core/models.py: Project *)

Record Project : Type := mkProject {
  season : string;
  paths : list Path
}.

#[global] Instance Project_eq_dec : EqDecision Project.
Proof. solve_decision. Defined.

Module Project.

Definition add_path (self : Project) (n : string) : Z * Project :=
  let ps := paths self ++ [Path_new n RED LEFT] in
  (Z.of_nat (length ps) - 1, {| season := season self; paths := ps |}).

Definition remove_path (self : Project) (index : Z) : Project :=
  if (0 <=? index) && (index <? Z.of_nat (length (paths self))) then
    {| season := season self; paths := delete (Z.to_nat index) (paths self) |}
  else self.

Definition to_dict (self : Project) : pydict :=
  [ ("version", PyStr "1.0.0");
    ("season", PyStr (season self));
    ("paths", PyList ((fun p => PyDict (Path.to_dict p)) <$> paths self)) ].

Definition from_dict (data : pydict) : py Project :=
  s ← as_str (dict_get data "season" (PyStr "pushback_2026"));
  ps ← as_list (dict_get data "paths" (PyList []))
         ≫= mapM (fun p => as_dict p ≫= Path.from_dict);
  Ok {| season := s; paths := ps |}.

End Project.

(** ** core/undo.py

    The snapshots are values of an arbitrary type [State]; [copy.deepcopy]
    is the function [deepcopy] on it.  The callbacks registered with
    [on_change] belong to the caller: of [_notify_change] the manager
    keeps the number of rounds it has run, [notified]. *)

Record UndoState (State : Type) : Type := mkUndoState {
  description : string;
  state : State
}.
Arguments mkUndoState {State} _ _.
Arguments description {State} _.
Arguments state {State} _.

Record UndoManager (State : Type) : Type := mkUndoManager {
  max_history : Z;
  undo_stack : list (UndoState State);
  redo_stack : list (UndoState State);
  notified : nat
}.
Arguments mkUndoManager {State} _ _ _ _.
Arguments max_history {State} _.
Arguments undo_stack {State} _.
Arguments redo_stack {State} _.
Arguments notified {State} _.

(** [l.pop()]: the last element and what remains. *)
Definition list_pop {A : Type} (l : list A) : py (list A * A) :=
  match rev l with
  | [] => Raise IndexError
  | x :: r => Ok (rev r, x)
  end.

(** [while len(l) > bound: l.pop(0)] *)
Fixpoint pop_front_while_longer {A : Type} (bound : Z) (l : list A) : py (list A) :=
  if Z.of_nat (length l) >? bound then
    match l with
    | [] => Raise IndexError
    | _ :: rest => pop_front_while_longer bound rest
    end
  else Ok l.

Section Undo.
Context {State : Type} (deepcopy : State -> State).

(** [UndoManager(max_history)] *)
Definition UndoManager_new (max_history : Z) : UndoManager State :=
  mkUndoManager max_history [] [] 0%nat.

Definition notify_change (self : UndoManager State) : UndoManager State :=
  mkUndoManager (max_history self) (undo_stack self) (redo_stack self)
                (S (notified self)).

Definition save_state (self : UndoManager State) (st : State) (descr : string)
  : py (UndoManager State) :=
  let snapshot := mkUndoState descr (deepcopy st) in
  let stack := undo_stack self ++ [snapshot] in
  trimmed ← pop_front_while_longer (max_history self) stack;
  Ok (notify_change (mkUndoManager (max_history self) trimmed [] (notified self))).

Definition can_undo (self : UndoManager State) : bool :=
  Z.of_nat (length (undo_stack self)) >? 1.

Definition can_redo (self : UndoManager State) : bool :=
  Z.of_nat (length (redo_stack self)) >? 0.

(** The value returned and the manager afterwards. *)
Definition undo (self : UndoManager State) : py (option State * UndoManager State) :=
  if negb (can_undo self) then Ok (None, self)
  else
    '(rest, current) ← list_pop (undo_stack self);
    let self' :=
      notify_change (mkUndoManager (max_history self) rest
                                   (redo_stack self ++ [current]) (notified self)) in
    match last rest with
    | Some top => Ok (Some (deepcopy (state top)), self')
    | None => Ok (None, self')
    end.

Definition redo (self : UndoManager State) : py (option State * UndoManager State) :=
  if negb (can_redo self) then Ok (None, self)
  else
    '(rest, st) ← list_pop (redo_stack self);
    let self' :=
      notify_change (mkUndoManager (max_history self) (undo_stack self ++ [st])
                                   rest (notified self)) in
    Ok (Some (deepcopy (state st)), self').

Definition get_undo_description (self : UndoManager State) : option string :=
  if can_undo self then description <$> last (undo_stack self) else None.

Definition get_redo_description (self : UndoManager State) : option string :=
  if can_redo self then description <$> last (redo_stack self) else None.

Definition clear (self : UndoManager State) : UndoManager State :=
  notify_change (mkUndoManager (max_history self) [] [] (notified self)).

Definition undo_count (self : UndoManager State) : Z :=
  Z.max 0 (Z.of_nat (length (undo_stack self)) - 1).

Definition redo_count (self : UndoManager State) : Z :=
  Z.of_nat (length (redo_stack self)).

(** A run of [save_state] calls, in order. *)
Fixpoint save_states (self : UndoManager State) (saves : list (State * string))
  : py (UndoManager State) :=
  match saves with
  | [] => Ok self
  | (st, descr) :: more => self' ← save_state self st descr; save_states self' more
  end.

End Undo.

(** ** core/coordinates.py: the coordinate transform

    The two conversions use only [+], [-], [*] and [/] on floats, with
    an [int] or a float literal as the other operand here and there.
    They are written over the interface [Arith] of these operations;
    [binary64_arith] is what the interpreter computes. *)

Class Arith (F : Type) : Type := {
  num_of_int : Z -> py F;          (* an [int] operand of a mixed operation *)
  num_lit : Z -> F;                (* a float literal with an integer value *)
  num_add : F -> F -> F;
  num_sub : F -> F -> F;
  num_mul : F -> F -> F;
  num_div : F -> F -> py F         (* [/]: raises on a zero divisor *)
}.

#[global] Instance binary64_arith : Arith float := {|
  num_of_int := int_to_float;
  num_lit := float_lit;
  num_add := fadd;
  num_sub := fsub;
  num_mul := fmul;
  num_div := truediv
|}.

Record CoordinateSystem (F : Type) : Type := mkCoordinateSystem {
  canvas_size : Z;
  scale : F
}.
Arguments mkCoordinateSystem {F} _ _.
Arguments canvas_size {F} _.
Arguments scale {F} _.

Section Coordinates.
Context {F : Type} `{Arith F}.

Definition FIELD_SIZE_INCHES : F := num_lit 144.
Definition FIELD_HALF_SIZE : F := num_lit 72.
Definition TILE_SIZE_INCHES : F := num_lit 24.

(** [CoordinateSystem(canvas_size)] *)
Definition CoordinateSystem_new (canvas_size : Z) : py (CoordinateSystem F) :=
  c ← num_of_int canvas_size;
  s ← num_div c FIELD_SIZE_INCHES;
  Ok (mkCoordinateSystem canvas_size s).

Definition field_to_canvas (self : CoordinateSystem F) (field_x field_y : F) : F * F :=
  let canvas_x := num_mul (num_add field_x FIELD_HALF_SIZE) (scale self) in
  let canvas_y := num_mul (num_sub FIELD_HALF_SIZE field_y) (scale self) in
  (canvas_x, canvas_y).

Definition canvas_to_field (self : CoordinateSystem F) (canvas_x canvas_y : F)
  : py (F * F) :=
  qx ← num_div canvas_x (scale self);
  let field_x := num_sub qx FIELD_HALF_SIZE in
  qy ← num_div canvas_y (scale self);
  let field_y := num_sub FIELD_HALF_SIZE qy in
  Ok (field_x, field_y).

End Coordinates.

Definition TILES_PER_SIDE : Z := 6.

(** ** core/coordinates.py: headings and distances *)

(** [math.pi], the binary64 number nearest to pi, and [math.degrees],
    which multiplies by the constant [180.0 / math.pi]. *)
Definition math_pi : float := S754_finite false 7074237752028440 (-51).

Definition rad_to_deg : float :=
  Eval vm_compute in SFdiv prec emax (float_lit 180) math_pi.

Definition math_degrees (x : float) : float := fmul x rad_to_deg.

Section Heading.
(** [math.atan2] is the platform's C library function; it is total. *)
Variable atan2 : float -> float -> float.

Definition calculate_heading (from_x from_y to_x to_y : float) : float :=
  let dx := fsub to_x from_x in
  let dy := fsub to_y from_y in
  let angle := math_degrees (atan2 dx dy) in
  if flt angle (float_lit 0) then fadd angle (float_lit 360) else angle.

End Heading.

Section Distance.
Variable c_pow : float -> float -> float.

Definition calculate_distance (x1 y1 x2 y2 : float) : py float :=
  sx ← float_pow c_pow (fsub x2 x1) 2;
  sy ← float_pow c_pow (fsub y2 y1) 2;
  math_sqrt (fadd sx sy).

End Distance.

(** ** core/geomtry.py *)

Record Point : Type := mkPoint { pt_x : float; pt_y : float }.

#[global] Instance Point_eq_dec : EqDecision Point.
Proof. solve_decision. Defined.

Section Geometry.
(** The C library's [pow], behind [** 2] in [distance_to]. *)
Variable c_pow : float -> float -> float.

Definition distance_to (self other : Point) : py float :=
  sx ← float_pow c_pow (fsub (pt_x self) (pt_x other)) 2;
  sy ← float_pow c_pow (fsub (pt_y self) (pt_y other)) 2;
  math_sqrt (fadd sx sy).

Definition Point_add (self other : Point) : Point :=
  mkPoint (fadd (pt_x self) (pt_x other)) (fadd (pt_y self) (pt_y other)).

Definition Point_sub (self other : Point) : Point :=
  mkPoint (fsub (pt_x self) (pt_x other)) (fsub (pt_y self) (pt_y other)).

Definition Point_mul (self : Point) (scalar : float) : Point :=
  mkPoint (fmul (pt_x self) scalar) (fmul (pt_y self) scalar).

(** [scalar * point] *)
Definition Point_rmul (self : Point) (scalar : float) : Point :=
  Point_mul self scalar.

Definition lerp (a b t : float) : float := fadd a (fmul (fsub b a) t).

Definition lerp_point (p1 p2 : Point) (t : float) : Point :=
  mkPoint (lerp (pt_x p1) (pt_x p2) t) (lerp (pt_y p1) (pt_y p2) t).

Definition quadratic_bezier (p0 p1 p2 : Point) (t : float) : Point :=
  let one_minus_t := fsub (float_lit 1) t in
  Point_add
    (Point_add (Point_rmul p0 (fmul one_minus_t one_minus_t))
               (Point_rmul p1 (fmul (fmul (float_lit 2) one_minus_t) t)))
    (Point_rmul p2 (fmul t t)).

(** [range(n)] *)
Definition range (n : Z) : list Z := seqZ 0 n.

Definition decompose_quadratic_bezier (p0 p1 p2 : Point) (num_segments : Z)
  : py (list Point) :=
  mapM (fun i => t ← int_truediv i num_segments; Ok (quadratic_bezier p0 p1 p2 t))
       (range (num_segments + 1)).

Definition adaptive_decompose_quadratic (p0 p1 p2 : Point)
    (max_segment_length : float) (min_segments max_segments : Z) : py (list Point) :=
  d01 ← distance_to p0 p1;
  d12 ← distance_to p1 p2;
  let rough_length := fadd d01 d12 in
  q ← truediv rough_length max_segment_length;
  num_segments ← int_of_float q;
  let num_segments := Z.max min_segments (Z.min max_segments num_segments) in
  decompose_quadratic_bezier p0 p1 p2 num_segments.

(** Two stages of [adaptive_decompose_quadratic], named so that they can
    be observed: [int(rough_length / max_segment_length)], and the value
    of [num_segments] with which [decompose_quadratic_bezier] is called. *)
Definition truncated_estimate (p0 p1 p2 : Point) (max_segment_length : float) : py Z :=
  d01 ← distance_to p0 p1;
  d12 ← distance_to p1 p2;
  q ← truediv (fadd d01 d12) max_segment_length;
  int_of_float q.

Definition adaptive_num_segments (p0 p1 p2 : Point) (max_segment_length : float)
    (min_segments max_segments : Z) : py Z :=
  k ← truncated_estimate p0 p1 p2 max_segment_length;
  Ok (Z.max min_segments (Z.min max_segments k)).

End Geometry.

(** ** core/geomtry.py: angle normalisation

    The two loops of [normalize_angle] run for as long as their tests say;
    the embedding gives each a number of iterations to spend, [fuel], and
    returns [None] when it is spent before the loop ends. *)

(** [while angle < 0: angle += 360] *)
Fixpoint add_360_while_negative (fuel : nat) (angle : float) : option float :=
  if flt angle (float_lit 0) then
    match fuel with
    | O => None
    | S fuel' => add_360_while_negative fuel' (fadd angle (float_lit 360))
    end
  else Some angle.

(** [while angle >= 360: angle -= 360] *)
Fixpoint sub_360_while_large (fuel : nat) (angle : float) : option float :=
  if SFleb (float_lit 360) angle then
    match fuel with
    | O => None
    | S fuel' => sub_360_while_large fuel' (fsub angle (float_lit 360))
    end
  else Some angle.

Definition normalize_angle (fuel : nat) (angle : float) : option float :=
  angle' ← add_360_while_negative fuel angle;
  sub_360_while_large fuel angle'.

(** ** core/commands.py *)

Record CommandParameter : Type := mkCommandParameter {
  param_name : string;
  param_type : string;
  param_default : pyval;
  min_val : option float;
  max_val : option float;
  param_description : string
}.

Record Command : Type := mkCommand {
  cmd_id : string;
  cmd_name : string;
  code_template : string;
  color : string;
  category : string;
  cmd_description : string;
  parameters : list CommandParameter
}.

(** [s.replace(old, new)] for a non-empty [old]: every occurrence, found
    from the left, without overlap.  [skip] counts the characters of an
    occurrence that are still to be dropped. *)
Fixpoint str_replace_from (old new : string) (skip : nat) (s : string) : string :=
  match s with
  | EmptyString => EmptyString
  | String c rest =>
      match skip with
      | S k => str_replace_from old new k rest
      | O =>
          if String.prefix old s
          then new +:+ str_replace_from old new (String.length old - 1) rest
          else String c (str_replace_from old new 0 rest)
      end
  end.

Definition str_replace (s old new : string) : string :=
  str_replace_from old new 0 s.

Section Commands.
(** The builtin [str], applied to a parameter value. *)
Variable py_str : pyval -> string.

(** [param_values] is [None], or a dictionary whose items are visited in
    insertion order. *)
Definition generate_code (self : Command) (param_values : option pydict) : string :=
  match param_values with
  | None | Some [] => code_template self
  | Some items =>
      foldl (fun code '(pname, value) =>
               str_replace code ("{" +:+ pname +:+ "}") (py_str value))
            (code_template self) items
  end.

End Commands.

(** ** Python lists, loops, [min] and [max] *)

(** The position that the index [i] denotes in [l]: a negative index
    counts from the end; [IndexError] outside [-len(l) .. len(l) - 1]. *)
Definition list_index {A : Type} (l : list A) (i : Z) : py nat :=
  let n := Z.of_nat (length l) in
  if (0 <=? i) && (i <? n) then Ok (Z.to_nat i)
  else if (- n <=? i) && (i <? 0) then Ok (Z.to_nat (n + i))
  else Raise IndexError.

(** [l[i]] *)
Definition list_getitem {A : Type} (l : list A) (i : Z) : py A :=
  n ← list_index l i;
  match l !! n with
  | Some x => Ok x
  | None => Raise IndexError
  end.

(** [l[i] = v] *)
Definition list_setitem {A : Type} (l : list A) (i : Z) (v : A) : py (list A) :=
  n ← list_index l i;
  Ok (<[n := v]> l).

(** [for x in xs: acc = step(acc, x)], where a step may raise. *)
Fixpoint fold_py {A B : Type} (step : B -> A -> py B) (acc : B) (xs : list A) : py B :=
  match xs with
  | [] => Ok acc
  | x :: rest => acc' ← step acc x; fold_py step acc' rest
  end.

(** [min(a, b)] and [max(a, b)]: the first argument, unless the second
    compares strictly below (above) it.  With a NaN no comparison holds,
    so the first argument is returned. *)
Definition py_min (a b : float) : float := if flt b a then b else a.
Definition py_max (a b : float) : float := if flt a b then b else a.

(** [data[k] = v]: the value of an existing key is replaced where it
    stands, a new key is added at the end. *)
Fixpoint dict_set (data : pydict) (k : string) (v : pyval) : pydict :=
  match data with
  | [] => [(k, v)]
  | (k', v') :: rest =>
      if String.eqb k' k then (k', v) :: rest else (k', v') :: dict_set rest k v
  end.

(** ** core/geomtry.py: lengths, distances and angle differences *)

Section Lengths.
(** The C library's [pow], behind the [**] of this file. *)
Variable c_pow : float -> float -> float.

Definition estimate_curve_length (points : list Point) : py float :=
  if Z.of_nat (length points) <? 2 then Ok fzero
  else
    fold_py (fun total i =>
               p ← list_getitem points i;
               q ← list_getitem points (i + 1);
               d ← distance_to c_pow p q;
               Ok (fadd total d))
            fzero (range (Z.of_nat (length points) - 1)).

Definition cubic_bezier (p0 p1 p2 p3 : Point) (t : float) : py Point :=
  let one_minus_t := fsub (float_lit 1) t in
  w0 ← float_pow c_pow one_minus_t 3;
  let term0 := Point_rmul p0 w0 in
  sq ← float_pow c_pow one_minus_t 2;
  let term1 := Point_rmul p1 (fmul (fmul (float_lit 3) sq) t) in
  tsq ← float_pow c_pow t 2;
  let term2 := Point_rmul p2 (fmul (fmul (float_lit 3) one_minus_t) tsq) in
  tcube ← float_pow c_pow t 3;
  let term3 := Point_rmul p3 tcube in
  Ok (Point_add (Point_add (Point_add term0 term1) term2) term3).

Definition decompose_cubic_bezier (p0 p1 p2 p3 : Point) (num_segments : Z)
  : py (list Point) :=
  mapM (fun i => t ← int_truediv i num_segments; cubic_bezier p0 p1 p2 p3 t)
       (range (num_segments + 1)).

(** In [t = max(0, min(1, ...))] the bounds are the [int]s 0 and 1; where
    one of them is the result, the products that follow convert it to
    the float of the same value, which is the float used here. *)
Definition point_to_line_distance (point line_start line_end : Point) : py float :=
  let line_vec := Point_sub line_end line_start in
  let point_vec := Point_sub point line_start in
  sx ← float_pow c_pow (pt_x line_vec) 2;
  sy ← float_pow c_pow (pt_y line_vec) 2;
  let line_len_sq := fadd sx sy in
  if feq line_len_sq (float_lit 0) then distance_to c_pow point line_start
  else
    q ← truediv (fadd (fmul (pt_x point_vec) (pt_x line_vec))
                      (fmul (pt_y point_vec) (pt_y line_vec)))
                line_len_sq;
    let t := py_max (float_lit 0) (py_min (float_lit 1) q) in
    let projection :=
      mkPoint (fadd (pt_x line_start) (fmul t (pt_x line_vec)))
              (fadd (pt_y line_start) (fmul t (pt_y line_vec))) in
    distance_to c_pow point projection.

End Lengths.

(** Each of the two calls of [normalize_angle] has [fuel] iterations to
    spend in each of its loops. *)
Definition angle_difference (fuel : nat) (from_angle to_angle : float) : option float :=
  to_n ← normalize_angle fuel to_angle;
  from_n ← normalize_angle fuel from_angle;
  let diff := fsub to_n from_n in
  if flt (float_lit 180) diff then Some (fsub diff (float_lit 360))
  else if flt diff (float_lit (-180)) then Some (fadd diff (float_lit 360))
  else Some diff.

(** ** io/project_io.py

    The file and its JSON text are outside the embedding: of
    [save_project] it keeps the document handed to [json.dump], of
    [load_project] what is made of the document that [json.load]
    returns. *)

Definition VERSION : string := "1.0.0".

(** The document that [save_project] writes at the time stamp [now]. *)
Definition saved_document (project : Project) (now : string) : pydict :=
  let data := Project.to_dict project in
  let data := dict_set data "version" (PyStr VERSION) in
  let data := dict_set data "modified" (PyStr now) in
  match dict_lookup data "created" with
  | None => dict_set data "created" (dict_get data "modified" PyNone)
  | Some _ => data
  end.

(** What [load_project] returns for the document [data]: the version
    check only prints a warning, and any exception becomes [None]. *)
Definition loaded_project (data : pydict) : option Project :=
  match Project.from_dict data with
  | Ok project => Some project
  | Raise _ => None
  end.

Definition create_new_project (season : string) : Project :=
  snd (Project.add_path {| season := season; paths := [] |} "New Path").

(** ** io/season_loader.py: the commands by category

    [commands] is the dictionary of the loader, from command id to
    command, in insertion order; the result is a dictionary from category
    to the list of its commands. *)

(** [if c not in by_category: by_category[c] = []] followed by
    [by_category[c].append(cmd)] *)
Fixpoint append_to_category (by_category : list (string * list Command))
    (c : string) (cmd : Command) : list (string * list Command) :=
  match by_category with
  | [] => [(c, [cmd])]
  | (c', cmds) :: rest =>
      if String.eqb c' c then (c', cmds ++ [cmd]) :: rest
      else (c', cmds) :: append_to_category rest c cmd
  end.

Definition get_commands_by_category (commands : list (string * Command))
  : list (string * list Command) :=
  foldl (fun by_category cmd => append_to_category by_category (category cmd) cmd)
        [] (snd <$> commands).

(** ** ui/field_canvas.py: the mouse handlers

    Of the canvas the embedding keeps what the handlers read and write:
    the coordinate system, the path shown (the object that the project
    holds), the selected index and the state of a drag.  Drawing and the
    callbacks into the main window are outside it.  The coordinates of a
    mouse event are [int]s. *)

Definition CANVAS_SIZE : Z := 600.
Definition HIT_RADIUS : Z := 15.

Record FieldCanvas : Type := mkFieldCanvas {
  fc_coords : CoordinateSystem float;
  fc_path : option Path;
  fc_selected_index : option Z;
  fc_dragging : bool;
  fc_drag_index : option Z
}.

(** [w.x = x; w.y = y] *)
Definition set_position (x y : float) (w : Waypoint) : Waypoint :=
  {| wp_x := x; wp_y := y; heading := heading w;
     heading_mode := heading_mode w; motion_type := motion_type w;
     reverse := reverse w; intaking := intaking w; conveyor := conveyor w;
     commands_after := commands_after w |}.

(** [self.coords.canvas_to_field(event.x, event.y)]: each [int]
    coordinate is converted to a float by the division that takes it. *)
Definition canvas_to_field_at (self : CoordinateSystem float) (event_x event_y : Z)
  : py (float * float) :=
  cx ← int_to_float event_x;
  qx ← truediv cx (scale self);
  let field_x := fsub qx FIELD_HALF_SIZE in
  cy ← int_to_float event_y;
  qy ← truediv cy (scale self);
  let field_y := fsub FIELD_HALF_SIZE qy in
  Ok (field_x, field_y).

(** [max(-FIELD_HALF_SIZE, min(FIELD_HALF_SIZE, v))] *)
Definition clamp_to_field (v : float) : float :=
  py_max (SFopp FIELD_HALF_SIZE) (py_min FIELD_HALF_SIZE v).

Module FieldCanvas.

Section Handlers.
(** The C library's [pow], behind [** 2]. *)
Variable c_pow : float -> float -> float.
(** [x ** 0.5] on the sum of two squares: the C library's [pow], which
    is total there. *)
Variable pow_half : float -> float.

(** The test of the loop of [_find_waypoint_at] for one waypoint:
    [dist <= HIT_RADIUS]. *)
Definition within_hit_radius (coords : CoordinateSystem float)
    (canvas_x canvas_y : Z) (wp : Waypoint) : py bool :=
  let '(wx, wy) := field_to_canvas coords (wp_x wp) (wp_y wp) in
  cx ← int_to_float canvas_x;
  sx ← float_pow c_pow (fsub cx wx) 2;
  cy ← int_to_float canvas_y;
  sy ← float_pow c_pow (fsub cy wy) 2;
  let dist := pow_half (fadd sx sy) in
  Ok (SFleb dist (float_lit HIT_RADIUS)).

(** [for i, wp in enumerate(...)], from the index [i] on. *)
Fixpoint find_waypoint_from (coords : CoordinateSystem float)
    (canvas_x canvas_y : Z) (i : Z) (wps : list Waypoint) : py (option Z) :=
  match wps with
  | [] => Ok None
  | wp :: rest =>
      match within_hit_radius coords canvas_x canvas_y wp with
      | Raise e => Raise e
      | Ok true => Ok (Some i)
      | Ok false => find_waypoint_from coords canvas_x canvas_y (i + 1) rest
      end
  end.

Definition _find_waypoint_at (self : FieldCanvas) (canvas_x canvas_y : Z)
  : py (option Z) :=
  match fc_path self with
  | None => Ok None
  | Some p => find_waypoint_from (fc_coords self) canvas_x canvas_y 0 (waypoints p)
  end.

Definition _on_right_click (self : FieldCanvas) (event_x event_y : Z)
  : py FieldCanvas :=
  index ← _find_waypoint_at self event_x event_y;
  match index, fc_path self with
  | Some index, Some p =>
      let p := Path.remove_waypoint p index in
      let selected :=
        match fc_selected_index self with
        | Some s =>
            if s =? index then None
            else if s >? index then Some (s - 1)
            else Some s
        | None => None
        end in
      Ok (mkFieldCanvas (fc_coords self) (Some p) selected
                        (fc_dragging self) (fc_drag_index self))
  | _, _ => Ok self
  end.

End Handlers.

Definition _on_drag (self : FieldCanvas) (event_x event_y : Z) : py FieldCanvas :=
  match fc_dragging self, fc_drag_index self with
  | true, Some drag_index =>
      '(field_x, field_y) ← canvas_to_field_at (fc_coords self) event_x event_y;
      let field_x := clamp_to_field field_x in
      let field_y := clamp_to_field field_y in
      match fc_path self with
      | Some p =>
          if negb (Path.is_valid_position p field_x field_y) then Ok self
          else if (0 <=? drag_index) && (drag_index <? Z.of_nat (length (waypoints p)))
          then
            let wps := alter (set_position field_x field_y) (Z.to_nat drag_index)
                             (waypoints p) in
            Ok (mkFieldCanvas (fc_coords self) (Some (set_waypoints wps p))
                              (fc_selected_index self) (fc_dragging self)
                              (fc_drag_index self))
          else Ok self
      | None => Ok self
      end
  | _, _ => Ok self
  end.

End FieldCanvas.

(** ** ui/waypoint_panel.py: the handlers of the property editor

    Of the panel the embedding keeps the waypoint being edited (the
    object that the path holds), the flag [_updating] and the variables
    of the widgets that the handlers read. *)

Record WaypointPanel : Type := mkWaypointPanel {
  wpp_waypoint : option Waypoint;
  wpp_updating : bool;
  heading_mode_var : string;
  motion_var : string
}.

(** [w.heading_mode = hm] and [w.heading = h] *)
Definition set_heading_mode (hm : HeadingMode) (w : Waypoint) : Waypoint :=
  {| wp_x := wp_x w; wp_y := wp_y w; heading := heading w;
     heading_mode := hm; motion_type := motion_type w;
     reverse := reverse w; intaking := intaking w; conveyor := conveyor w;
     commands_after := commands_after w |}.

Definition set_heading (h : option float) (w : Waypoint) : Waypoint :=
  {| wp_x := wp_x w; wp_y := wp_y w; heading := h;
     heading_mode := heading_mode w; motion_type := motion_type w;
     reverse := reverse w; intaking := intaking w; conveyor := conveyor w;
     commands_after := commands_after w |}.

Definition with_waypoint (w : Waypoint) (self : WaypointPanel) : WaypointPanel :=
  mkWaypointPanel (Some w) (wpp_updating self) (heading_mode_var self)
                  (motion_var self).

Module WaypointPanel.

Definition _on_heading_mode_change (self : WaypointPanel) : py WaypointPanel :=
  match wpp_updating self, wpp_waypoint self with
  | false, Some w =>
      mode ← HeadingMode_of_value (heading_mode_var self);
      let w := set_heading_mode mode w in
      let w :=
        match mode with
        | AUTO => set_heading None w
        | MANUAL =>
            match heading w with
            | None => set_heading (Some fzero) w
            | Some _ => w
            end
        end in
      Ok (with_waypoint w self)
  | _, _ => Ok self
  end.

(** [try: ... except ValueError: pass] *)
Definition _on_motion_change (self : WaypointPanel) : py WaypointPanel :=
  match wpp_updating self, wpp_waypoint self with
  | false, Some w =>
      match MotionType_of_value (motion_var self) with
      | Ok motion => Ok (with_waypoint (set_motion_type motion w) self)
      | Raise ValueError => Ok self
      | Raise e => Raise e
      end
  | _, _ => Ok self
  end.

End WaypointPanel.

(** ** ui/command_panel.py: the commands of a waypoint

    The handlers act on the waypoint of the panel, [waypoint], and read
    the selection of the list box, [selection] (what [curselection()]
    returns); they return the waypoint afterwards. *)

Definition set_commands_after (cmds : list string) (w : Waypoint) : Waypoint :=
  {| wp_x := wp_x w; wp_y := wp_y w; heading := heading w;
     heading_mode := heading_mode w; motion_type := motion_type w;
     reverse := reverse w; intaking := intaking w; conveyor := conveyor w;
     commands_after := cmds |}.

Module CommandPanel.

(** [cmds[i], cmds[j] = cmds[j], cmds[i]]: the right-hand side is read
    from left to right, then the targets are assigned from left to right. *)
Definition swap_items (cmds : list string) (i j : Z) : py (list string) :=
  at_j ← list_getitem cmds j;
  at_i ← list_getitem cmds i;
  cmds ← list_setitem cmds i at_j;
  list_setitem cmds j at_i.

Definition _move_up (waypoint : option Waypoint) (selection : list Z)
  : py (option Waypoint) :=
  match waypoint, selection with
  | Some w, index :: _ =>
      if index >? 0 then
        cmds ← swap_items (commands_after w) index (index - 1);
        Ok (Some (set_commands_after cmds w))
      else Ok waypoint
  | _, _ => Ok waypoint
  end.

Definition _move_down (waypoint : option Waypoint) (selection : list Z)
  : py (option Waypoint) :=
  match waypoint, selection with
  | Some w, index :: _ =>
      if index <? Z.of_nat (length (commands_after w)) - 1 then
        cmds ← swap_items (commands_after w) index (index + 1);
        Ok (Some (set_commands_after cmds w))
      else Ok waypoint
  | _, _ => Ok waypoint
  end.

End CommandPanel.

(** ** ui/path_panel.py: the paths of the project

    Of the panel the embedding keeps the project (the object that the
    main window holds), the index of the current path and the flag
    [_updating]. *)

Record PathPanel : Type := mkPathPanel {
  pp_project : option Project;
  current_path_index : Z;
  pp_updating : bool
}.

Module PathPanel.

Definition get_current_path (self : PathPanel) : option Path :=
  match pp_project self with
  | Some project =>
      if (0 <=? current_path_index self)
         && (current_path_index self <? Z.of_nat (length (paths project)))
      then paths project !! Z.to_nat (current_path_index self)
      else None
  | None => None
  end.

(** [_updating] is set while the fields are filled and is clear again
    when [_load_path] returns. *)
Definition _load_path (self : PathPanel) (index : Z) : PathPanel :=
  mkPathPanel (pp_project self) index false.

Definition set_project (self : PathPanel) (project : option Project) : PathPanel :=
  let self := mkPathPanel project 0 (pp_updating self) in
  match project with
  | Some p => if bool_decide (paths p = []) then self else _load_path self 0
  | None => self
  end.

(** [selected] is what [path_combo.current()] returns. *)
Definition _on_path_selected (self : PathPanel) (selected : Z) : PathPanel :=
  if pp_updating self then self
  else match pp_project self with
       | None => self
       | Some _ => if selected >=? 0 then _load_path self selected else self
       end.

(** [name] is what the dialog returns: [None] when it is cancelled. *)
Definition _add_path (self : PathPanel) (name : option string) : PathPanel :=
  match pp_project self, name with
  | Some project, Some name =>
      if bool_decide (name = "") then self
      else
        let project := snd (Project.add_path project name) in
        _load_path (mkPathPanel (Some project) (current_path_index self)
                                (pp_updating self))
                   (Z.of_nat (length (paths project)) - 1)
  | _, _ => self
  end.

Definition _remove_path (self : PathPanel) : PathPanel :=
  match pp_project self with
  | None => self
  | Some project =>
      if Z.of_nat (length (paths project)) <=? 1 then self
      else
        let project := Project.remove_path project (current_path_index self) in
        let index := Z.min (current_path_index self)
                           (Z.of_nat (length (paths project)) - 1) in
        _load_path (mkPathPanel (Some project) index (pp_updating self)) index
  end.

End PathPanel.

(** ** ui/main_window.py: the undo wiring

    Of the window the embedding keeps the project, the undo manager,
    whose snapshots are the documents of [Project.to_dict], and the flag
    [modified].  A document of the embedding is a value, which shares
    nothing: its deep copy is the document itself. *)

Definition deepcopy_document (data : pydict) : pydict := data.

Record MainWindow : Type := mkMainWindow {
  mw_project : option Project;
  undo_manager : UndoManager pydict;
  modified : bool
}.

Module MainWindow.

Definition _save_undo_state (self : MainWindow) (description : string)
  : py MainWindow :=
  match mw_project self with
  | Some project =>
      um ← save_state deepcopy_document (undo_manager self)
                      (Project.to_dict project) description;
      Ok (mkMainWindow (mw_project self) um (modified self))
  | None => Ok self
  end.

Definition _restore_state (self : MainWindow) (state : pydict) : py MainWindow :=
  project ← Project.from_dict state;
  Ok (mkMainWindow (Some project) (undo_manager self) true).

(** [if state]: a snapshot that is [None] or an empty dictionary is not
    restored. *)
Definition truthy (state : option pydict) : bool :=
  match state with
  | None | Some [] => false
  | Some _ => true
  end.

Definition _on_undo (self : MainWindow) : py MainWindow :=
  '(state, um) ← undo deepcopy_document (undo_manager self);
  let self := mkMainWindow (mw_project self) um (modified self) in
  match state, mw_project self with
  | Some st, Some _ => if truthy state then _restore_state self st else Ok self
  | _, _ => Ok self
  end.

Definition _on_redo (self : MainWindow) : py MainWindow :=
  '(state, um) ← redo deepcopy_document (undo_manager self);
  let self := mkMainWindow (mw_project self) um (modified self) in
  match state with
  | Some st => if truthy state then _restore_state self st else Ok self
  | None => Ok self
  end.

(** The part of [_new_project] that concerns the project and its
    history: the commands of the season are loaded from files. *)
Definition _new_project (self : MainWindow) (season : string) : py MainWindow :=
  let self := mkMainWindow (Some (create_new_project season))
                           (clear (undo_manager self)) false in
  _save_undo_state self "New project".

End MainWindow.

(** ** The properties of the specification, as definitions

    What follows is not code of the planner: the predicates and the
    reference computations in which the specification words its
    properties, the sequences of operations they quantify over, and the
    concrete inputs of the examples. *)

(** [round(x)] on a float: to the nearest integer, ties to even. *)
Definition round_half_even (x : float) : py Z :=
  match x with
  | S754_zero _ => Ok 0
  | S754_infinity _ => Raise OverflowError
  | S754_nan => Raise ValueError
  | S754_finite s m e =>
      if 0 <=? e then Ok (cond_Zopp s (Z.shiftl (Zpos m) e))
      else
        let d := Z.shiftl 1 (- e) in
        let q := Zpos m / d in
        let r := Zpos m mod d in
        let q' := match 2 * r ?= d with
                  | Lt => q
                  | Gt => q + 1
                  | Eq => if Z.even q then q else q + 1
                  end in
        Ok (cond_Zopp s q')
  end.

(** The segment count as the specification words it:
    [clamp(round(estimate / max_segment_length), min_segments, max_segments)]. *)
Definition spec_num_segments (c_pow : float -> float -> float)
    (p0 p1 p2 : Point) (max_segment_length : float)
    (min_segments max_segments : Z) : py Z :=
  d01 ← distance_to c_pow p0 p1;
  d12 ← distance_to c_pow p1 p2;
  q ← truediv (fadd d01 d12) max_segment_length;
  n ← round_half_even q;
  Ok (Z.max min_segments (Z.min max_segments n)).

(** The invariant the specification states for the heading of a waypoint. *)
Definition heading_invariant (w : Waypoint) : Prop :=
  (heading_mode w = MANUAL <-> is_Some (heading w)) /\
  (heading_mode w = AUTO -> heading w = None).

(** The START invariant of a waypoint list. *)
Definition count_START (ws : list Waypoint) : nat :=
  length (filter (fun w => motion_type w = START) ws).

Definition START_invariant (ws : list Waypoint) : Prop :=
  (count_START ws <= 1)%nat /\
  (ws <> [] -> motion_type <$> head ws = Some START).

(** Sequences of the two editing operations of a path. *)
Inductive path_op : Type :=
  | AddWaypoint (x y : float)
  | RemoveWaypoint (index : Z).

Definition run_path_op (p : Path) (op : path_op) : Path :=
  match op with
  | AddWaypoint x y => snd (Path.add_waypoint p x y)
  | RemoveWaypoint index => Path.remove_waypoint p index
  end.

Definition run_path_ops (p : Path) (ops : list path_op) : Path :=
  foldl run_path_op p ops.

(** The shape that the editing operations maintain: the first waypoint is
    the START one and it is the only one. *)
Definition START_first (ws : list Waypoint) : Prop :=
  match ws with
  | [] => True
  | w :: rest => motion_type w = START /\ Forall (fun w => motion_type w <> START) rest
  end.

(** The snapshots that a run of [save_state] calls takes, oldest first. *)
Definition snapshots {State : Type} (deepcopy : State -> State)
    (saves : list (State * string)) : list (UndoState State) :=
  (fun '(st, descr) => mkUndoState descr (deepcopy st)) <$> saves.

(** What a document says about the heading of a waypoint: its mode is
    ["manual"] exactly when it holds a heading other than [None]. *)
Definition dict_heading_consistent (data : pydict) : Prop :=
  dict_get data "heading_mode" (PyStr "auto") = PyStr "manual" <->
  dict_get data "heading" PyNone <> PyNone.

(** The round trip through the canvas, as one computation. *)
Definition canvas_round_trip {F : Type} `{Arith F} (canvas_size : Z) (x y : F)
  : py (F * F) :=
  cs ← CoordinateSystem_new canvas_size;
  canvas_to_field cs (fst (field_to_canvas cs x y)) (snd (field_to_canvas cs x y)).

(** The float literal [1e-6]. *)
Definition float_1e_6 : float := S754_finite false 4722366482869645 (-72).

(** [abs(a - b) <= 1e-6] on floats. *)
Definition within_1e_6 (a b : float) : bool :=
  SFleb (SFabs (fsub a b)) float_1e_6.

(** Control points on the Y axis whose control polygon has length 28. *)
Definition axis_p0 : Point := mkPoint (float_lit 0) (float_lit 0).
Definition axis_p1 : Point := mkPoint (float_lit 0) (float_lit 14).
Definition axis_p2 : Point := mkPoint (float_lit 0) (float_lit 28).

(** The float [-2.0 ** -70], a target 8.5e-22 inches to the left of
    straight ahead, and its neighbour towards zero. *)
Definition tiny_left : float := S754_finite true 4503599627370496 (-122).
Definition tiny_left_next : float := S754_finite true 9007199254740991 (-123).

(** A stand-in for [math.atan2] near the +Y axis, for closed examples:
    the first-order value [x / y]. *)
Definition atan2_first_order (x y : float) : float := SFdiv prec emax x y.

(** The float [360.0]. *)
Definition float_360 : float := float_lit 360.

(** Two commands and the scenario path of the specification, with one
    command on its second waypoint, for closed examples. *)
Definition intake_in : Command :=
  mkCommand "intake_in" "Intake In" "mech.intakeIn();" "#FFFFFF" "Misc" "" [].

Definition outtake : Command :=
  mkCommand "outtake" "Outtake" "mech.outtake();" "#FF0000" "Misc" "" [].

Definition scenario_path : Path :=
  mkPath "Auto1" RED LEFT
    [ set_motion_type START (Waypoint_new (float_lit 0) (float_lit 0));
      mkWaypoint (float_lit (-10)) (float_lit 24) None AUTO MOVE_TO_POSE
                 false false false ["intake_in"] ].

(** Floats that binary64 holds, and among them the finite ones. *)
Definition valid_float (x : float) : Prop := valid_binary prec emax x = true.

Definition finite_float (x : float) : Prop :=
  match x with S754_zero _ | S754_finite _ _ _ => True | _ => False end.

Definition finite_point (p : Point) : Prop :=
  valid_float (pt_x p) /\ valid_float (pt_y p) /\
  finite_float (pt_x p) /\ finite_float (pt_y p).

(** *** The numbers behind the floats

    What the two coordinate transforms compute is stated on the numbers
    that the floats denote. *)

(** The result of a rounding: the float of sign [s] and of magnitude
    [m * 2^e]. *)
Definition rounds_to (r : float) (s : bool) (m e : Z) : Prop :=
  (m = 0 /\ r = S754_zero s) \/
  (exists mf ef, r = S754_finite s mf ef /\ e <= ef <= e + 1 /\
                 Z.pos mf * 2 ^ (ef - e) = m).

(** The number that a finite float denotes; 0 for the others. *)
Definition SF2Q (x : float) : Q :=
  match x with
  | S754_finite s m e => (inject_Z (cond_Zopp s (Z.pos m)) * 2 ^ e)%Q
  | _ => 0%Q
  end.

(** The exponent of a finite float is at most [c]. *)
Definition exponent_le (c : Z) (x : float) : Prop :=
  match x with S754_finite _ _ e => e <= c | _ => True end.

(** The relative error of a rounding, [2 ** -52] (twice the unit
    roundoff, which covers rounding in either direction), and the
    absolute error in the subnormal range, [2 ** -1074]. *)
Definition eps64 : Q := (2 ^ (-52))%Q.
Definition eta64 : Q := (2 ^ (-1074))%Q.

(** A magnitude with the sign bit [s]. *)
Definition signed (s : bool) (v : Q) : Q := if s then (- v)%Q else v.

(** A finite float other than a zero. *)
Definition nonzero_float (x : float) : Prop :=
  match x with S754_finite _ _ _ => True | _ => False end.

(** The largest canvas size considered: beyond about [1.8e308] the
    conversion of the size to a float overflows, and just below that the
    products with the scale do. *)
Definition largest_canvas_size : Z := 10 ^ 307.

(** [p == q] on points: the comparison the dataclass generates. *)
Definition Point_eqb (p q : Point) : bool :=
  feq (pt_x p) (pt_x q) && feq (pt_y p) (pt_y q).

(** Sequences of the four operations of an [UndoManager]. *)
Inductive undo_op (State : Type) : Type :=
  | OpSave (st : State) (descr : string)
  | OpUndo
  | OpRedo
  | OpClear.
Arguments OpSave {State} _ _.
Arguments OpUndo {State}.
Arguments OpRedo {State}.
Arguments OpClear {State}.

Definition run_undo_op {State : Type} (deepcopy : State -> State)
    (m : UndoManager State) (op : undo_op State) : py (UndoManager State) :=
  match op with
  | OpSave st descr => save_state deepcopy m st descr
  | OpUndo => snd <$> undo deepcopy m
  | OpRedo => snd <$> redo deepcopy m
  | OpClear => Ok (clear m)
  end.

Fixpoint run_undo_ops {State : Type} (deepcopy : State -> State)
    (m : UndoManager State) (ops : list (undo_op State)) : py (UndoManager State) :=
  match ops with
  | [] => Ok m
  | op :: more => m' ← run_undo_op deepcopy m op; run_undo_ops deepcopy m' more
  end.

(** The history both stacks hold together stays within the capacity. *)
Definition history_within_capacity {State : Type} (m : UndoManager State) : Prop :=
  0 <= max_history m /\
  Z.of_nat (length (undo_stack m) + length (redo_stack m)) <= max_history m.

(** The whole-inch coordinates of the field, [-72 .. 72], and the test
    that the binary64 round trip of a whole-inch position stays within
    [1e-6] of it. *)
Definition whole_inches : list Z := seqZ (-72) 145.

Definition round_trip_within_1e_6 (canvas_size x y : Z) : bool :=
  match canvas_round_trip (F := float) canvas_size (float_lit x) (float_lit y) with
  | Ok (fx, fy) => within_1e_6 fx (float_lit x) && within_1e_6 fy (float_lit y)
  | Raise _ => false
  end.
(** ** Further predicates and runs, for the properties of Part III *)

(** The sign bit of a float is clear: it is [+0.0], a positive number,
    [+inf] or a NaN. *)
Definition sign_clear (x : float) : Prop :=
  match x with
  | S754_zero s | S754_finite s _ _ | S754_infinity s => s = false
  | S754_nan => True
  end.

(** [y] is [-x], or both are zeros. *)
Definition opposite_or_zeros (x y : float) : Prop :=
  y = SFopp x \/ (exists s s', x = S754_zero s /\ y = S754_zero s').

(** The loop of [estimate_curve_length], by recursion on the points that
    are left: [total] is the length accumulated so far. *)
Fixpoint curve_length_from (c_pow : float -> float -> float) (total : float)
    (points : list Point) : py float :=
  match points with
  | p :: (q :: _) as rest =>
      d ← distance_to c_pow p q; curve_length_from c_pow (fadd total d) rest
  | _ => Ok total
  end.

(** What the distance functions need of the C library's [pow]: the
    square of a positive finite number is [+0.0] (an underflow), a
    positive number or [+inf] (an overflow), not a NaN and not negative. *)
Definition square_not_negative (c_pow : float -> float -> float) : Prop :=
  forall (m : positive) (e : Z),
    match c_pow (S754_finite false m e) (float_lit 2) with
    | S754_zero s | S754_finite s _ _ | S754_infinity s => s = false
    | S754_nan => False
    end.

(** Adding 360 to the negative angle [a], or subtracting 360 from the
    angle [a >= 360], gives [a] again. *)
Definition absorbs_360 (a : float) : Prop :=
  (flt a (float_lit 0) = true /\ fadd a (float_lit 360) = a) \/
  (flt a (float_lit 0) = false /\ SFleb (float_lit 360) a = true /\
   fsub a (float_lit 360) = a).

(** A run of [k] calls of [undo] (of [redo]): the values returned, in
    order, and the manager afterwards. *)
Fixpoint undo_run {State : Type} (deepcopy : State -> State) (k : nat)
    (m : UndoManager State) : py (list (option State) * UndoManager State) :=
  match k with
  | O => Ok ([], m)
  | S k' =>
      '(r, m1) ← undo deepcopy m;
      '(rs, m2) ← undo_run deepcopy k' m1;
      Ok (r :: rs, m2)
  end.

Fixpoint redo_run {State : Type} (deepcopy : State -> State) (k : nat)
    (m : UndoManager State) : py (list (option State) * UndoManager State) :=
  match k with
  | O => Ok ([], m)
  | S k' =>
      '(r, m1) ← redo deepcopy m;
      '(rs, m2) ← redo_run deepcopy k' m1;
      Ok (r :: rs, m2)
  end.

(** [-72 <= v <= 72]: a coordinate inside the field. *)
Definition in_field (v : float) : bool :=
  SFleb (SFopp FIELD_HALF_SIZE) v && SFleb v FIELD_HALF_SIZE.

(** A canvas for closed examples: the coordinate system of
    [CoordinateSystem(CANVAS_SIZE)], the scenario path on display, its
    second waypoint selected and being dragged. *)
Definition scale_600 : float :=
  Eval vm_compute in SFdiv prec emax (float_lit 600) (float_lit 144).

Definition demo_canvas : FieldCanvas :=
  mkFieldCanvas (mkCoordinateSystem CANVAS_SIZE scale_600) (Some scenario_path)
                (Some 1) true (Some 1).

(** A stand-in for [x ** 0.5], for closed examples: the correctly
    rounded square root. *)
Definition sqrt_stand_in (x : float) : float := SFsqrt prec emax x.

(** Runs of the two buttons of the path panel that change the list of
    paths: "+" with the answer of the name dialog, and "-". *)
Inductive path_panel_op : Type :=
  | PressAddPath (answer : option string)
  | PressRemovePath.

Definition run_path_panel_op (self : PathPanel) (op : path_panel_op) : PathPanel :=
  match op with
  | PressAddPath answer => PathPanel._add_path self answer
  | PressRemovePath => PathPanel._remove_path self
  end.

(** The panel has a current path: [get_current_path()] is not [None]. *)
Definition has_current_path (self : PathPanel) : Prop :=
  is_Some (PathPanel.get_current_path self).

(** The character [c] occurs in [s]. *)
Fixpoint mentions (c : Ascii.ascii) (s : string) : bool :=
  match s with
  | EmptyString => false
  | String c' rest => Ascii.eqb c' c || mentions c rest
  end.

(** The character [{]. *)
Definition open_brace : Ascii.ascii :=
  Eval cbv in match "{" with String c _ => c | EmptyString => Ascii.zero end.

(** [by_category.get(c)] on the dictionary that [get_commands_by_category]
    returns. *)
Fixpoint category_lookup (by_category : list (string * list Command)) (c : string)
  : option (list Command) :=
  match by_category with
  | [] => None
  | (c', cmds) :: rest => if String.eqb c' c then Some cmds else category_lookup rest c
  end.

(** The commands of category [c] among [cmds], in order. *)
Definition of_category (c : string) (cmds : list Command) : list Command :=
  filter (fun cmd => category cmd = c) cmds.

(** The square of a finite number, when it does not overflow, and the sum
    of two such squares. *)
Definition square_like (x : float) : Prop :=
  match x with
  | S754_zero s | S754_finite s _ _ => s = false
  | _ => False
  end.


(** A stand-in for the C library's [pow], for closed examples: the
    square and the cube by multiplication. *)
Definition pow_stand_in (x y : float) : float :=
  if feq y (float_lit 2) then fmul x x
  else if feq y (float_lit 3) then fmul (fmul x x) x
  else S754_nan.

(** * Part II: the properties of the specification *)

(** From [H : (x ← e; k) = Ok v], the value that [e] returns: every step
    of a computation that succeeds has succeeded. *)
Ltac inv_bind H :=
  repeat match type of H with
         | (mbind _ ?e) = Ok _ =>
             let E := fresh "E" in
             destruct e eqn:E; [cbn in H | discriminate H]
         end.

(** ** The START invariant (core/models.py) *)

Lemma count_START_none ws :
  Forall (fun w => motion_type w <> START) ws -> count_START ws = 0%nat.
Proof.
  unfold count_START. induction 1 as [|w ws Hw _ IH]; [done|].
  rewrite filter_cons_False; done.
Qed.

Lemma START_first_invariant ws : START_first ws -> START_invariant ws.
Proof.
  destruct ws as [|w rest]; intros Hs.
  - split; [cbn; lia | done].
  - destruct Hs as [Hw Hrest]. split.
    + unfold count_START. rewrite filter_cons_True by done.
      cbn [length]. fold (count_START rest). rewrite count_START_none; [lia | done].
    + intros _. cbn. by rewrite Hw.
Qed.

Lemma add_waypoint_START_first p x y :
  START_first (waypoints p) ->
  START_first (waypoints (snd (Path.add_waypoint p x y))).
Proof.
  unfold Path.add_waypoint. cbn. destruct (waypoints p) as [|w rest]; cbn.
  - intros _. split; [done | constructor].
  - intros [Hw Hrest]. split; [done|].
    apply Forall_app. split; [done|]. repeat constructor. cbn. discriminate.
Qed.

Lemma remove_waypoint_START_first p index :
  START_first (waypoints p) ->
  START_first (waypoints (Path.remove_waypoint p index)).
Proof.
  unfold Path.remove_waypoint. intros Hs.
  destruct ((0 <=? index) && (index <? Z.of_nat (length (waypoints p)))) eqn:Hin;
    [|done].
  apply andb_true_iff in Hin as [Hlo Hhi].
  apply Z.leb_le in Hlo. apply Z.ltb_lt in Hhi.
  destruct (waypoints p) as [|w rest] eqn:Hws; [cbn in Hhi; lia|].
  destruct Hs as [Hw Hrest].
  destruct (decide (index = 0)) as [->|Hne].
  - cbn [Z.to_nat delete list_delete]. change (0 =? 0) with true. cbn [andb].
    destruct rest as [|r rest']; cbn; [done|].
    split; [done|]. by inversion Hrest.
  - replace (index =? 0) with false by (symmetry; by apply Z.eqb_neq).
    cbn [andb waypoints set_waypoints].
    destruct (Z.to_nat index) as [|k] eqn:Hk; [lia|].
    cbn. split; [done|]. by apply Forall_delete.
Qed.

Lemma run_path_ops_START_first ops : forall p,
  START_first (waypoints p) -> START_first (waypoints (run_path_ops p ops)).
Proof.
  induction ops as [|op ops IH]; intros p Hp; [done|].
  cbn. apply IH. destruct op; cbn.
  - by apply add_waypoint_START_first.
  - by apply remove_waypoint_START_first.
Qed.

(** C1. A path that starts empty and undergoes any finite sequence of
    [add_waypoint] and [remove_waypoint] calls has at most one waypoint of
    motion type START, and when it has waypoints, the one at index 0 is of
    motion type START. *)
Theorem START_invariant_add_remove (n : string) (a : Alliance) (s : Side)
    (ops : list path_op) :
  let ws := waypoints (run_path_ops (Path_new n a s) ops) in
  (count_START ws <= 1)%nat /\
  (ws <> [] -> motion_type <$> head ws = Some START).
Proof.
  apply START_first_invariant, run_path_ops_START_first. exact I.
Qed.

Example START_after_removing_first :
  motion_type <$>
    waypoints (run_path_ops (Path_new "Auto1" RED LEFT)
      [AddWaypoint (float_lit 0) (float_lit 0);
       AddWaypoint (float_lit (-10)) (float_lit 24);
       AddWaypoint (float_lit (-20)) (float_lit 24);
       RemoveWaypoint 0])
  = [START; MOVE_TO_POSE].
Proof. reflexivity. Qed.

(** ** The undo engine (core/undo.py) *)

Lemma list_pop_snoc {A} (l : list A) (x : A) : list_pop (l ++ [x]) = Ok (l, x).
Proof. unfold list_pop. rewrite rev_app_distr. cbn. by rewrite rev_involutive. Qed.

Lemma snoc2_decompose {A} (l : list A) :
  (2 <= length l)%nat -> exists older prev cur, l = older ++ [prev; cur].
Proof.
  intros Hlen.
  destruct l as [|cur l _] using rev_ind; [cbn in Hlen; lia|].
  destruct l as [|prev older _] using rev_ind.
  - cbn in Hlen; lia.
  - exists older, prev, cur. by rewrite <- app_assoc.
Qed.

Lemma pop_front_while_longer_drop {A} (bound : Z) (l : list A) :
  0 <= bound ->
  pop_front_while_longer bound l = Ok (drop (length l - Z.to_nat bound) l).
Proof.
  intros Hb. induction l as [|a l IH].
  - change (pop_front_while_longer bound (@nil A))
      with (if 0 >? bound then @Raise (list A) IndexError else Ok []).
    destruct (Z.gtb_spec 0 bound); [lia | done].
  - change (pop_front_while_longer bound (a :: l))
      with (if Z.of_nat (length (a :: l)) >? bound
            then pop_front_while_longer bound l else Ok (a :: l)).
    cbn [length]. destruct (Z.gtb_spec (Z.of_nat (S (length l))) bound).
    + rewrite IH.
      replace (S (length l) - Z.to_nat bound)%nat
        with (S (length l - Z.to_nat bound)) by lia.
      done.
    + replace (S (length l) - Z.to_nat bound)%nat with 0%nat by lia.
      done.
Qed.

Section UndoProperties.
Context {State : Type} (deepcopy : State -> State).

Lemma save_state_drop (m : UndoManager State) st descr :
  0 <= max_history m ->
  save_state deepcopy m st descr =
    Ok (mkUndoManager (max_history m)
          (drop (S (length (undo_stack m)) - Z.to_nat (max_history m))
                (undo_stack m ++ [mkUndoState descr (deepcopy st)]))
          [] (S (notified m))).
Proof.
  intros Hb. unfold save_state.
  rewrite pop_front_while_longer_drop by done.
  rewrite length_app. cbn [length].
  replace (length (undo_stack m) + 1)%nat with (S (length (undo_stack m))) by lia.
  done.
Qed.

Lemma save_states_drop (saves : list (State * string)) :
  forall m : UndoManager State,
  0 <= max_history m ->
  Z.of_nat (length (undo_stack m)) <= max_history m ->
  exists m',
    save_states deepcopy m saves = Ok m' /\
    max_history m' = max_history m /\
    undo_stack m' =
      drop (length (undo_stack m ++ snapshots deepcopy saves)
            - Z.to_nat (max_history m))
           (undo_stack m ++ snapshots deepcopy saves).
Proof.
  induction saves as [|[st descr] saves IH]; intros m Hb Hlen.
  - exists m. cbn. rewrite app_nil_r.
    replace (length (undo_stack m) - Z.to_nat (max_history m))%nat with 0%nat by lia.
    done.
  - cbn [save_states]. rewrite save_state_drop by done. cbn.
    set (snap := mkUndoState descr (deepcopy st)).
    set (k := (S (length (undo_stack m)) - Z.to_nat (max_history m))%nat).
    set (m1 := mkUndoManager _ _ _ _).
    assert (length (undo_stack m ++ [snap]) = S (length (undo_stack m))) as Hl1.
    { rewrite length_app. cbn. lia. }
    destruct (IH m1) as (m' & Hrun & Hmax & Hstack).
    { done. }
    { subst m1. cbn. rewrite length_drop, Hl1. lia. }
    exists m'. split; [done|]. split; [done|].
    rewrite Hstack. subst m1. cbn [undo_stack max_history].
    rewrite <- (drop_app_le _ _ k) by (rewrite Hl1; lia).
    rewrite drop_drop, <- app_assoc. cbn [app].
    fold (snapshots deepcopy saves).
    f_equal. rewrite length_drop, !length_app. cbn [length]. lia.
Qed.

(** C3. An [UndoManager] whose capacity [max_history] is a number of
    states, [max_history >= 0], and whose [undo_stack] is within the
    capacity -- a new manager is, its stack being empty -- accepts any
    sequence of [save_state] calls; after it, [undo_stack] holds at most
    [max_history] entries: the entries it held followed by the snapshots
    taken, less those dropped from the oldest end. *)
Theorem undo_stack_bounded (m : UndoManager State) (saves : list (State * string)) :
  0 <= max_history m ->
  Z.of_nat (length (undo_stack m)) <= max_history m ->
  exists m',
    save_states deepcopy m saves = Ok m' /\
    Z.of_nat (length (undo_stack m')) <= max_history m /\
    undo_stack m' =
      drop (length (undo_stack m) + length saves - Z.to_nat (max_history m))
           (undo_stack m ++ snapshots deepcopy saves).
Proof.
  intros Hb Hlen.
  destruct (save_states_drop saves m Hb Hlen) as (m' & Hrun & _ & Hstack).
  exists m'. split; [done|].
  assert (length (undo_stack m ++ snapshots deepcopy saves)
          = (length (undo_stack m) + length saves)%nat) as Hl.
  { unfold snapshots. by rewrite length_app, length_fmap. }
  rewrite Hl in Hstack. split; [|done].
  rewrite Hstack, length_drop, Hl. lia.
Qed.

Lemma can_undo_length (m : UndoManager State) :
  can_undo m = true <-> (2 <= length (undo_stack m))%nat.
Proof.
  unfold can_undo. destruct (Z.gtb_spec (Z.of_nat (length (undo_stack m))) 1);
    split; intros; (done || lia).
Qed.

Lemma undo_invalid (m : UndoManager State) :
  (length (undo_stack m) < 2)%nat -> undo deepcopy m = Ok (None, m).
Proof.
  intros Hlen. unfold undo.
  destruct (can_undo m) eqn:E; [apply can_undo_length in E; lia | done].
Qed.

Lemma undo_valid (m : UndoManager State) older prev cur :
  undo_stack m = older ++ [prev; cur] ->
  undo deepcopy m =
    Ok (Some (deepcopy (state prev)),
        mkUndoManager (max_history m) (older ++ [prev])
                      (redo_stack m ++ [cur]) (S (notified m))).
Proof.
  intros Hstack. unfold undo.
  assert (can_undo m = true) as ->.
  { apply can_undo_length. rewrite Hstack, length_app. cbn. lia. }
  cbn [negb]. rewrite Hstack.
  change (older ++ [prev; cur]) with (older ++ [prev] ++ [cur]).
  rewrite app_assoc, list_pop_snoc. cbn. by rewrite last_snoc.
Qed.

(** C4. With fewer than two entries on [undo_stack], [undo()] returns
    [None] and leaves [undo_stack] and [redo_stack] as they were (and
    notifies nobody); otherwise it moves the top entry of [undo_stack]
    onto [redo_stack] and returns a deep copy of the state of the new
    top, the entry just below the one moved. *)
Theorem undo_spec (m : UndoManager State) :
  ((length (undo_stack m) < 2)%nat -> undo deepcopy m = Ok (None, m)) /\
  ((2 <= length (undo_stack m))%nat ->
     exists older prev cur,
       undo_stack m = older ++ [prev; cur] /\
       undo deepcopy m =
         Ok (Some (deepcopy (state prev)),
             mkUndoManager (max_history m) (older ++ [prev])
                           (redo_stack m ++ [cur]) (S (notified m)))).
Proof.
  split; [apply undo_invalid|].
  intros Hlen. destruct (snoc2_decompose _ Hlen) as (older & prev & cur & Hs).
  exists older, prev, cur. split; [done|]. by apply undo_valid.
Qed.

Lemma redo_valid (m : UndoManager State) rest st :
  redo_stack m = rest ++ [st] ->
  redo deepcopy m =
    Ok (Some (deepcopy (state st)),
        mkUndoManager (max_history m) (undo_stack m ++ [st]) rest
                      (S (notified m))).
Proof.
  intros Hstack. unfold redo.
  assert (can_redo m = true) as ->.
  { unfold can_redo. rewrite Hstack, length_app. cbn.
    destruct (Z.gtb_spec (Z.of_nat (length rest + 1)) 0); [done | lia]. }
  cbn [negb]. by rewrite Hstack, list_pop_snoc.
Qed.

(** C10. When [can_undo()] holds, [undo()] followed at once by [redo()]
    returns a deep copy of the state that was on top of [undo_stack]
    before the undo, and [undo_stack] (as well as [redo_stack]) holds
    again exactly the entries it held before the undo. *)
Theorem undo_then_redo (m : UndoManager State) :
  can_undo m = true ->
  exists top r m1 m2,
    last (undo_stack m) = Some top /\
    undo deepcopy m = Ok (r, m1) /\
    redo deepcopy m1 = Ok (Some (deepcopy (state top)), m2) /\
    undo_stack m2 = undo_stack m /\
    redo_stack m2 = redo_stack m.
Proof.
  intros Hcan. apply can_undo_length in Hcan.
  destruct (snoc2_decompose _ Hcan) as (older & prev & cur & Hs).
  eexists cur, _, _, _. split.
  { rewrite Hs. change (older ++ [prev; cur]) with (older ++ [prev] ++ [cur]).
    by rewrite app_assoc, last_snoc. }
  split; [by apply undo_valid|].
  split; [by apply redo_valid|].
  cbn. rewrite Hs, <- app_assoc. done.
Qed.

End UndoProperties.

(** A concrete manager: integer states, which [copy.deepcopy] returns as
    they are. *)
Lemma undo_stack_bounded_witness :
  0 <= max_history (UndoManager_new (State := Z) 2) /\
  Z.of_nat (length (undo_stack (UndoManager_new (State := Z) 2))) <= 2 /\
  exists m',
    save_states (fun s : Z => s) (UndoManager_new 2)
                [(10, "a"); (20, "b"); (30, "c")] = Ok m' /\
    Z.of_nat (length (undo_stack m')) <= 2 /\
    undo_stack m' = [mkUndoState "b" 20; mkUndoState "c" 30].
Proof.
  split; [cbn; lia|]. split; [cbn; lia|].
  apply (undo_stack_bounded (fun s : Z => s) (UndoManager_new 2)
                            [(10, "a"); (20, "b"); (30, "c")]); cbn; lia.
Defined.

Example save_state_drops_oldest :
  undo_stack <$> save_states (fun s : Z => s) (UndoManager_new 2)
                             [(10, "a"); (20, "b"); (30, "c")]
  = Ok [mkUndoState "b" 20; mkUndoState "c" 30].
Proof. reflexivity. Qed.

(** A negative [max_history] is not a number of states, and the
    application constructs its manager with the default of 50.  The
    class does not check the argument: with -1 the first [save_state]
    empties the stack and then pops from the empty list. *)
Example save_state_negative_capacity :
  ~ Z.of_nat (length (undo_stack (UndoManager_new (State := Z) (-1)))) <= -1 /\
  save_states (fun s : Z => s) (UndoManager_new (-1)) [(10, "a")] = Raise IndexError.
Proof. split; [cbn; lia | reflexivity]. Qed.

Lemma undo_spec_witness :
  let m := mkUndoManager 50 [mkUndoState "a" 10; mkUndoState "b" 20] [] 2 in
  (2 <= length (undo_stack m))%nat /\
  exists older prev cur,
    undo_stack m = older ++ [prev; cur] /\
    undo (fun s : Z => s) m =
      Ok (Some (state prev),
          mkUndoManager (max_history m) (older ++ [prev])
                        (redo_stack m ++ [cur]) (S (notified m))).
Proof.
  intros m. split; [cbn; lia|].
  apply (proj2 (undo_spec (fun s : Z => s) m)). cbn; lia.
Defined.

Example undo_returns_previous :
  undo (fun s : Z => s)
       (mkUndoManager 50 [mkUndoState "a" 10; mkUndoState "b" 20] [] 2)
  = Ok (Some 10, mkUndoManager 50 [mkUndoState "a" 10] [mkUndoState "b" 20] 3).
Proof. reflexivity. Qed.

Example undo_single_entry :
  undo (fun s : Z => s) (mkUndoManager 50 [mkUndoState "a" 10] [] 1)
  = Ok (None, mkUndoManager 50 [mkUndoState "a" 10] [] 1).
Proof. reflexivity. Qed.

Lemma undo_then_redo_witness :
  let m := mkUndoManager 50 [mkUndoState "a" 10; mkUndoState "b" 20]
                         [mkUndoState "z" 99] 2 in
  can_undo m = true /\
  exists top r m1 m2,
    last (undo_stack m) = Some top /\
    undo (fun s : Z => s) m = Ok (r, m1) /\
    redo (fun s : Z => s) m1 = Ok (Some (state top), m2) /\
    undo_stack m2 = undo_stack m /\
    redo_stack m2 = redo_stack m.
Proof.
  intros m. split; [reflexivity|].
  apply (undo_then_redo (fun s : Z => s) m). reflexivity.
Defined.

(** ** Serialization (core/models.py) *)

Lemma MotionType_value_roundtrip m : MotionType_of_value (MotionType_value m) = Ok m.
Proof. by destruct m. Qed.

Lemma HeadingMode_value_roundtrip m : HeadingMode_of_value (HeadingMode_value m) = Ok m.
Proof. by destruct m. Qed.

Lemma Side_value_roundtrip s : Side_of_value (Side_value s) = Ok s.
Proof. by destruct s. Qed.

Lemma Alliance_value_roundtrip a : Alliance_of_value (Alliance_value a) = Ok a.
Proof. by destruct a. Qed.

Lemma mapM_as_str (l : list string) : mapM as_str (PyStr <$> l) = Ok l.
Proof. induction l as [|s l IH]; [done|]. cbn. by rewrite IH. Qed.

Lemma Waypoint_roundtrip (w : Waypoint) :
  Waypoint.from_dict (Waypoint.to_dict w) = Ok w.
Proof.
  destruct w as [x y h hm mt rv it cv ca].
  unfold Waypoint.from_dict, Waypoint.to_dict, getitem, dict_get. cbn.
  rewrite HeadingMode_value_roundtrip, MotionType_value_roundtrip. cbn.
  rewrite mapM_as_str. cbn.
  by destruct h.
Qed.

Lemma mapM_roundtrip {A} (to : A -> pyval) (from : pyval -> py A) :
  (forall a, from (to a) = Ok a) -> forall l, mapM from (to <$> l) = Ok l.
Proof.
  intros Hrt l. induction l as [|a l IH]; [done|].
  cbn. rewrite Hrt. cbn. by rewrite IH.
Qed.

Lemma Path_roundtrip (p : Path) : Path.from_dict (Path.to_dict p) = Ok p.
Proof.
  destruct p as [n a s ws].
  unfold Path.from_dict, Path.to_dict, getitem, dict_get. cbn.
  rewrite Alliance_value_roundtrip, Side_value_roundtrip. cbn.
  rewrite (mapM_roundtrip (fun w => PyDict (Waypoint.to_dict w))).
  - done.
  - intros w. cbn. apply Waypoint_roundtrip.
Qed.

(** C8. Serialization round trip: [Project.from_dict(Project.to_dict(P))]
    succeeds and yields a project equal to [P]: the same season and the
    same paths in the same order, each with the same name, alliance, side
    and waypoints, every waypoint with the same position, heading, heading
    mode, motion type, flags and [commands_after] list.  The floats are
    the same binary64 values, so the equality is exact. *)
Theorem Project_roundtrip (P : Project) :
  Project.from_dict (Project.to_dict P) = Ok P.
Proof.
  destruct P as [s ps].
  unfold Project.from_dict, Project.to_dict, dict_get. cbn.
  rewrite (mapM_roundtrip (fun p => PyDict (Path.to_dict p))).
  - done.
  - intros p. cbn. apply Path_roundtrip.
Qed.

Example Project_roundtrip_example :
  let P := {| season := "X";
              paths := [snd (Path.add_waypoint
                          (snd (Path.add_waypoint (Path_new "Auto1" RED LEFT)
                                  (float_lit 0) (float_lit 0)))
                          (float_lit (-10)) (float_lit 24))] |} in
  Project.from_dict (Project.to_dict P) = Ok P.
Proof. reflexivity. Qed.

(** ** The heading invariant (core/models.py) *)

Lemma heading_invariant_new x y : heading_invariant (Waypoint_new x y).
Proof.
  split; [split|]; cbn; [discriminate | intros [? ?]; discriminate | done].
Qed.

Lemma heading_invariant_set_motion_type m w :
  heading_invariant (set_motion_type m w) <-> heading_invariant w.
Proof. done. Qed.

Lemma add_waypoint_appends p x y :
  exists w, waypoints (snd (Path.add_waypoint p x y)) = waypoints p ++ [w] /\
            heading_invariant w.
Proof.
  eexists. split; [reflexivity|].
  apply heading_invariant_set_motion_type, heading_invariant_new.
Qed.

(** What [Waypoint.from_dict] does with the two heading fields: each is
    read from the document on its own. *)
Lemma from_dict_heading_fields data w :
  Waypoint.from_dict data = Ok w ->
  as_optional_float (dict_get data "heading" PyNone) = Ok (heading w) /\
  enum_of HeadingMode_of_value (dict_get data "heading_mode" (PyStr "auto"))
    = Ok (heading_mode w).
Proof.
  unfold Waypoint.from_dict. intros Hw. inv_bind Hw.
  injection Hw as <-. cbn. done.
Qed.

Lemma HeadingMode_of_value_manual s :
  HeadingMode_of_value s = Ok MANUAL <-> s = "manual".
Proof.
  unfold HeadingMode_of_value. repeat case_decide; subst; split; intros; try done.
Qed.

Lemma HeadingMode_of_value_auto s :
  HeadingMode_of_value s = Ok AUTO <-> s = "auto".
Proof.
  unfold HeadingMode_of_value. repeat case_decide; subst; split; intros; try done.
Qed.




(** ** The coordinate transform (core/coordinates.py) *)

(** *** Rounding to binary64 *)

Lemma digits2_pos_size (p : positive) : digits2_pos p = Pos.size p.
Proof. induction p as [p IH|p IH|]; cbn; by rewrite ?IH. Qed.

(** A positive number of [d] binary digits lies in [2^(d-1), 2^d). *)
Lemma Zdigits2_bounds (m : Z) :
  0 < m -> 2 ^ (Zdigits2 m - 1) <= m < 2 ^ Zdigits2 m.
Proof.
  intros Hm. destruct m as [|p|p]; try lia. cbn [Zdigits2].
  rewrite digits2_pos_size.
  pose proof (Pos.size_gt p) as Hgt. pose proof (Pos.size_le p) as Hle.
  apply Pos2Z.pos_lt_pos in Hgt. apply Pos2Z.pos_le_pos in Hle.
  rewrite Pos2Z.inj_pow in Hgt, Hle.
  split; [|exact Hgt].
  replace (Z.pos (Pos.size p)) with (Z.succ (Z.pos (Pos.size p) - 1)) in Hle by lia.
  rewrite Z.pow_succ_r in Hle by lia. lia.
Qed.

Lemma Zdigits2_nonneg (m : Z) : 0 <= Zdigits2 m.
Proof. by destruct m. Qed.

Lemma Zdigits2_pos (m : Z) : 0 < m -> 0 < Zdigits2 m.
Proof. by destruct m. Qed.

(** A number below [2^d] has at most [d] digits. *)
Lemma Zdigits2_le (m d : Z) : 0 <= m -> 0 <= d -> m < 2 ^ d -> Zdigits2 m <= d.
Proof.
  intros Hm Hd Hlt. destruct (Z.eq_dec m 0) as [-> | Hne]; [done|].
  pose proof (Zdigits2_bounds m ltac:(lia)) as [Hlo _].
  destruct (Z.le_gt_cases (Zdigits2 m) d) as [|Hgt]; [done|].
  pose proof (Z.pow_le_mono_r 2 d (Zdigits2 m - 1) ltac:(lia) ltac:(lia)). lia.
Qed.

(** A number from [2^d] on has more than [d] digits. *)
Lemma Zdigits2_gt (m d : Z) : 0 <= d -> 2 ^ d <= m -> d < Zdigits2 m.
Proof.
  intros Hd Hle. pose proof (Z.pow_pos_nonneg 2 d ltac:(lia) Hd).
  pose proof (Zdigits2_bounds m ltac:(lia)) as [_ Hhi].
  destruct (Z.lt_ge_cases d (Zdigits2 m)) as [|Hge]; [done|].
  pose proof (Z.pow_le_mono_r 2 (Zdigits2 m) d ltac:(lia) ltac:(lia)). lia.
Qed.

Lemma shr_1_div2 (mrs : shr_record) : 0 <= shr_m mrs -> shr_m (shr_1 mrs) = shr_m mrs / 2.
Proof.
  destruct mrs as [[|[p|p|]|p] r s]; cbn [shr_m shr_1]; intros Hm; try lia.
  - reflexivity.
  - rewrite Pos2Z.inj_xI. apply (Z.div_unique _ 2 _ 1); lia.
  - rewrite Pos2Z.inj_xO. apply (Z.div_unique _ 2 _ 0); lia.
  - reflexivity.
Qed.

Lemma iter_shr_1_div (p : positive) : forall mrs : shr_record,
  0 <= shr_m mrs ->
  shr_m (SpecFloat.iter_pos shr_1 p mrs) = shr_m mrs / 2 ^ Z.pos p.
Proof.
  induction p as [p IH|p IH|]; intros mrs Hm; cbn [SpecFloat.iter_pos].
  - assert (0 <= shr_m (shr_1 mrs)) as H1.
    { rewrite shr_1_div2 by done. apply Z.div_pos; lia. }
    assert (0 <= shr_m (SpecFloat.iter_pos shr_1 p (shr_1 mrs))) as H2.
    { rewrite IH by done. apply Z.div_pos; lia. }
    rewrite (IH _ H2), (IH _ H1), shr_1_div2 by done.
    rewrite !Z.div_div by lia. f_equal.
    replace (Z.pos p~1) with (1 + Z.pos p + Z.pos p) by lia.
    rewrite !Z.pow_add_r by lia. change (2 ^ 1) with 2. lia.
  - assert (0 <= shr_m (SpecFloat.iter_pos shr_1 p mrs)) as H2.
    { rewrite IH by done. apply Z.div_pos; lia. }
    rewrite (IH _ H2), (IH _ Hm).
    rewrite !Z.div_div by lia. f_equal.
    replace (Z.pos p~0) with (Z.pos p + Z.pos p) by lia.
    rewrite !Z.pow_add_r by lia. lia.
  - by rewrite shr_1_div2.
Qed.

Lemma fexp_eq (e : Z) : SpecFloat.fexp prec emax e = Z.max (e - 53) (-1074).
Proof. reflexivity. Qed.

(** The first step of a rounding: the mantissa is shifted to the exponent
    that its magnitude calls for, when that is above its own. *)
Lemma shr_fexp_spec (m e : Z) (l : location) :
  0 <= m ->
  let e' := Z.max e (SpecFloat.fexp prec emax (Zdigits2 m + e)) in
  snd (shr_fexp prec emax m e l) = e' /\
  shr_m (fst (shr_fexp prec emax m e l)) = m / 2 ^ (e' - e) /\
  (e' = e -> fst (shr_fexp prec emax m e l) = shr_record_of_loc m l).
Proof.
  intros Hm e'. unfold shr_fexp, shr.
  assert (shr_m (shr_record_of_loc m l) = m) as Hrec by (by destruct l as [|[]]).
  destruct (SpecFloat.fexp prec emax (Zdigits2 m + e) - e) as [|p|p] eqn:En;
    cbn [fst snd].
  - assert (e' = e) as -> by lia. rewrite Z.sub_diag, Z.div_1_r. done.
  - assert (e' = e + Z.pos p) as -> by lia. split; [done|]. split; [|lia].
    rewrite iter_shr_1_div by lia. rewrite Hrec. f_equal. f_equal. lia.
  - assert (e' = e) as -> by lia. rewrite Z.sub_diag, Z.div_1_r. done.
Qed.

Lemma fexp_mono (a b : Z) :
  a <= b -> SpecFloat.fexp prec emax a <= SpecFloat.fexp prec emax b.
Proof. rewrite !fexp_eq. lia. Qed.

(** The second step, after the mantissa has been rounded up or down: at
    most one more shift, and that one drops a zero bit. *)
Lemma shr_fexp_again (m' m'' e' : Z) :
  0 <= m' -> SpecFloat.fexp prec emax (Zdigits2 m' + e') <= e' ->
  m'' = m' \/ m'' = m' + 1 ->
  let r := shr_fexp prec emax m'' e' loc_Exact in
  e' <= snd r <= e' + 1 /\
  snd r <= Z.max (SpecFloat.fexp prec emax (Zdigits2 m' + e' + 1)) e' /\
  shr_m (fst r) * 2 ^ (snd r - e') = m''.
Proof.
  intros Hm' Hfexp Hm'' r.
  assert (0 <= m'') as Hnn by lia.
  destruct (shr_fexp_spec m'' e' loc_Exact Hnn) as (He & Hm & _).
  fold r in He, Hm. rewrite He, Hm. clear He Hm r.
  assert (Zdigits2 m'' <= Zdigits2 m' + 1) as Hd.
  { apply Zdigits2_le; [done | pose proof (Zdigits2_nonneg m'); lia |].
    destruct (Z.eq_dec m' 0) as [-> | Hne].
    - cbn. lia.
    - pose proof (Zdigits2_bounds m' ltac:(lia)) as [_ Hhi].
      rewrite Z.pow_add_r by (pose proof (Zdigits2_nonneg m'); lia).
      change (2 ^ 1) with 2. lia. }
  pose proof (fexp_mono _ _ (proj1 (Z.add_le_mono_r _ _ e') Hd)) as Hf.
  replace (Zdigits2 m' + 1 + e') with (Zdigits2 m' + e' + 1) in Hf by lia.
  rewrite !fexp_eq in *.
  split; [lia|]. split; [lia|].
  destruct (Z.max_spec e' (Z.max (Zdigits2 m'' + e' - 53) (-1074))) as [[Hlt ->] | [Hge ->]].
  2:{ rewrite Z.sub_diag, Z.div_1_r. lia. }
  (* one shift: the mantissa has one digit more than before *)
  assert (Z.max (Zdigits2 m'' + e' - 53) (-1074) - e' = 1) as -> by lia.
  change (2 ^ 1) with 2.
  assert (Zdigits2 m' < Zdigits2 m'') as Hmore by lia.
  assert (0 < Zdigits2 m') as Hpos.
  { destruct (Z.eq_dec m' 0) as [-> | Hne]; [|apply Zdigits2_pos; lia].
    destruct Hm'' as [-> | ->]; cbn in *; lia. }
  assert (m' <> 0) as Hne by (intros ->; cbn in Hpos; lia).
  pose proof (Zdigits2_bounds m' ltac:(lia)) as [_ Hhi].
  assert (0 < m'') as Hpos'' by lia.
  pose proof (Zdigits2_bounds m'' Hpos'') as [Hlo _].
  pose proof (Z.pow_le_mono_r 2 (Zdigits2 m') (Zdigits2 m'' - 1) ltac:(lia) ltac:(lia)).
  assert (m'' = 2 ^ Zdigits2 m') as -> by lia.
  replace (Zdigits2 m') with (Z.succ (Zdigits2 m' - 1)) by lia.
  rewrite Z.pow_succ_r by lia.
  rewrite (Z.mul_comm 2), Z.div_mul by lia. lia.
Qed.

(** Rounding a magnitude that is [mx * 2^ex] or lies less than [2^ex]
    above it: the magnitude of the result is the mantissa cut off at the
    exponent [e'] or the number that follows it, provided the number is
    not too large for binary64. *)
Lemma binary_round_aux_spec (s : bool) (mx ex : Z) (l : location) :
  0 <= mx ->
  let E := Zdigits2 mx + ex in
  let e' := Z.max ex (SpecFloat.fexp prec emax E) in
  E <= 1023 -> ex <= 970 ->
  exists m'',
    (m'' = mx / 2 ^ (e' - ex) \/ m'' = mx / 2 ^ (e' - ex) + 1) /\
    (l = loc_Exact -> e' = ex -> m'' = mx) /\
    rounds_to (binary_round_aux prec emax s mx ex l) s m'' e'.
Proof.
  intros Hmx E e' HE Hex. unfold binary_round_aux.
  destruct (shr_fexp_spec mx ex l Hmx) as (He1 & Hm1 & Hsame).
  fold E in He1, Hm1, Hsame. fold e' in He1, Hm1, Hsame.
  destruct (shr_fexp prec emax mx ex l) as [mrs1 e1]. cbn [fst snd] in *. subst e1.
  set (m' := mx / 2 ^ (e' - ex)) in *.
  set (m'' := round_nearest_even (shr_m mrs1) (loc_of_shr_record mrs1)).
  assert (0 <= e' - ex) as Hn by lia.
  assert (0 <= m') as Hm'nn by (apply Z.div_pos; [lia | apply Z.pow_pos_nonneg; lia]).
  assert (m'' = m' \/ m'' = m' + 1) as Hm''.
  { unfold m''. rewrite Hm1. unfold round_nearest_even.
    destruct (loc_of_shr_record mrs1) as [|[]]; try destruct (Z.even m'); auto. }
  assert (Zdigits2 m' + e' <= Z.max E e') as Hdig.
  { destruct (Z.eq_dec m' 0) as [-> | Hne]; [cbn; lia|].
    assert (Zdigits2 m' <= Zdigits2 mx - (e' - ex)); [|lia].
    assert (0 < mx) as Hpos.
    { destruct (Z.eq_dec mx 0) as [-> | ?]; [|lia]. unfold m' in Hne.
      by rewrite Z.div_0_l in Hne by (apply Z.pow_nonzero; lia). }
    pose proof (Zdigits2_bounds mx Hpos) as [_ Hhi].
    assert (e' - ex < Zdigits2 mx) as Hlt.
    { destruct (Z.lt_ge_cases (e' - ex) (Zdigits2 mx)) as [|Hge]; [done|].
      exfalso. apply Hne. unfold m'. apply Z.div_small. split; [lia|].
      pose proof (Z.pow_le_mono_r 2 (Zdigits2 mx) (e' - ex) ltac:(lia) ltac:(lia)). lia. }
    apply Zdigits2_le; [done | lia |].
    unfold m'. apply Z.div_lt_upper_bound; [apply Z.pow_pos_nonneg; lia|].
    rewrite <- Z.pow_add_r by lia.
    by replace (e' - ex + (Zdigits2 mx - (e' - ex))) with (Zdigits2 mx) by lia. }
  assert (SpecFloat.fexp prec emax (Zdigits2 m' + e') <= e') as Hfexp.
  { pose proof (fexp_mono _ _ Hdig) as Hf. rewrite !fexp_eq in *. unfold e' in *.
    rewrite fexp_eq in *. lia. }
  destruct (shr_fexp_again m' m'' e' Hm'nn Hfexp Hm'') as (He2 & He2' & Hm2).
  destruct (shr_fexp prec emax m'' e' loc_Exact) as [mrs2 e2]. cbn [fst snd] in *.
  exists m''. split; [done|]. split.
  { intros -> He. unfold m''. rewrite (Hsame He). reflexivity. }
  assert (0 <= shr_m mrs2) as Hnn2.
  { pose proof (Z.pow_pos_nonneg 2 (e2 - e') ltac:(lia) ltac:(lia)). nia. }
  destruct (shr_m mrs2) as [|mf|mf] eqn:Emf; [| |lia].
  - left. split; [lia | done].
  - right. assert ((e2 <=? emax - prec) = true) as ->.
    { apply Z.leb_le. change (emax - prec) with 971.
      pose proof (fexp_mono _ _ (proj1 (Z.add_le_mono_r _ _ 1) Hdig)) as Hf.
      rewrite !fexp_eq in *. unfold e' in *. rewrite fexp_eq in *. lia. }
    exists mf, e2. split; [done|]. split; [lia | done].
Qed.

(** *** The value of a float, and the error of a rounding *)

#[global] Instance signed_wd (s : bool) : Proper (Qeq ==> Qeq) (signed s).
Proof. intros a b Hab. destruct s; cbn [signed]; by rewrite Hab. Qed.

Lemma pow2Q_pos (e : Z) : (0 < 2 ^ e)%Q.
Proof. by apply Qpower_0_lt. Qed.

Lemma pow2Q_add (a b : Z) : (2 ^ (a + b) == 2 ^ a * 2 ^ b)%Q.
Proof. by apply Qpower_plus. Qed.

Lemma pow2Q_inject (n : Z) : 0 <= n -> (2 ^ n == inject_Z (2 ^ n))%Q.
Proof. intros Hn. by rewrite (Zpower_Qpower 2 n Hn). Qed.

Lemma pow2Q_le (a b : Z) : a <= b -> (2 ^ a <= 2 ^ b)%Q.
Proof. intros Hab. by apply Qpower_le_compat_l. Qed.

Lemma pow2Q_lt_inv (a b : Z) : (2 ^ a < 2 ^ b)%Q -> a < b.
Proof. intros Hab. by apply (Qpower_lt_compat_l_inv 2). Qed.

Lemma signed_value (s : bool) (m e : Z) :
  (inject_Z (cond_Zopp s m) * 2 ^ e == signed s (inject_Z m * 2 ^ e))%Q.
Proof. destruct s; cbn [cond_Zopp signed]; [|reflexivity]. rewrite inject_Z_opp. ring. Qed.

Lemma signed_error (s : bool) (r v : Q) :
  (Qabs (signed s r - signed s v) == Qabs (r - v))%Q.
Proof.
  destruct s; cbn [signed]; [|reflexivity].
  assert (- r - - v == - (r - v))%Q as -> by ring. apply Qabs_opp.
Qed.

Lemma Qabs_signed (s : bool) (v : Q) : (0 <= v)%Q -> (Qabs (signed s v) == v)%Q.
Proof.
  intros Hv. destruct s; cbn [signed].
  - rewrite Qabs_opp. by apply Qabs_pos.
  - by apply Qabs_pos.
Qed.

Lemma rounds_to_value (r : float) (s : bool) (m e : Z) :
  rounds_to r s m e ->
  finite_float r /\ (SF2Q r == signed s (inject_Z m * 2 ^ e))%Q /\
  exponent_le (e + 1) r.
Proof.
  intros [[-> ->] | (mf & ef & -> & Hef & <-)].
  - split; [done|]. split; [|done]. cbn [SF2Q]. destruct s; cbn [signed]; ring.
  - split; [done|]. split; [|cbn; lia]. cbn [SF2Q]. rewrite signed_value.
    assert (inject_Z (Z.pos mf) * 2 ^ ef == inject_Z (Z.pos mf * 2 ^ (ef - e)) * 2 ^ e)%Q
      as ->; [|reflexivity].
    rewrite inject_Z_mult, <- pow2Q_inject by lia.
    replace ef with ((ef - e) + e) at 1 by lia. rewrite pow2Q_add. ring.
Qed.

Lemma eps64_pos : (0 < eps64)%Q.
Proof. apply pow2Q_pos. Qed.

Lemma eta64_pos : (0 < eta64)%Q.
Proof. apply pow2Q_pos. Qed.

(** The lower end of the binade of a mantissa. *)
Lemma mantissa_binade (mx ex : Z) :
  0 < mx -> (2 ^ (Zdigits2 mx + ex - 1) <= inject_Z mx * 2 ^ ex)%Q.
Proof.
  intros Hmx. pose proof (Zdigits2_bounds mx Hmx) as [Hlo _].
  pose proof (Zdigits2_pos mx Hmx) as Hd.
  replace (Zdigits2 mx + ex - 1) with ((Zdigits2 mx - 1) + ex) by lia.
  rewrite pow2Q_add, pow2Q_inject by lia.
  apply Qmult_le_compat_r; [|apply Qlt_le_weak, pow2Q_pos].
  by rewrite <- Zle_Qle.
Qed.

(** The error of a rounding.  The magnitude [v] to be rounded is
    [mx * 2^ex] or lies less than [2^ex] above it, and is below [2^k]:
    the result is finite, of the sign [s], and its magnitude is off by
    at most [v * 2^-52 + 2^-1074]. *)
Lemma binary_round_aux_error (s : bool) (mx ex k : Z) (l : location) (v : Q) :
  0 <= mx -> ex <= 970 -> k <= 1023 ->
  (inject_Z mx * 2 ^ ex <= v)%Q -> (v < inject_Z (mx + 1) * 2 ^ ex)%Q ->
  (v < 2 ^ k)%Q ->
  (l = loc_Exact /\ (v == inject_Z mx * 2 ^ ex)%Q) \/
    ex <= SpecFloat.fexp prec emax (Zdigits2 mx + ex) ->
  exists rv : Q,
    finite_float (binary_round_aux prec emax s mx ex l) /\
    (SF2Q (binary_round_aux prec emax s mx ex l) == signed s rv)%Q /\
    (0 <= rv)%Q /\
    (Qabs (rv - v) <= v * eps64 + eta64)%Q /\
    exponent_le (Z.max ex (SpecFloat.fexp prec emax k) + 1)
                (binary_round_aux prec emax s mx ex l).
Proof.
  intros Hmx Hex Hk Hlo Hhi Hvk Hloc.
  set (E := Zdigits2 mx + ex). set (e' := Z.max ex (SpecFloat.fexp prec emax E)).
  assert (0 <= v)%Q as Hv.
  { eapply Qle_trans; [|exact Hlo]. apply Qmult_le_0_compat.
    - by rewrite <- (Zle_Qle 0).
    - apply Qlt_le_weak, pow2Q_pos. }
  assert (mx = 0 \/ (0 < mx /\ E <= k /\ (2 ^ (E - 1) <= v)%Q)) as Hcases.
  { destruct (Z.eq_dec mx 0) as [-> | Hne]; [by left|]. right.
    assert (0 < mx) as Hpos by lia. split; [done|].
    pose proof (mantissa_binade mx ex Hpos) as Hb. fold E in Hb.
    assert (2 ^ (E - 1) <= v)%Q as Hb' by (eapply Qle_trans; eauto).
    split; [|done].
    assert (E - 1 < k); [|lia]. apply pow2Q_lt_inv.
    eapply Qle_lt_trans; eauto. }
  assert (E <= 1023) as HE.
  { destruct Hcases as [-> | (_ & ? & _)]; [|lia]. unfold E. cbn. lia. }
  assert (e' <= Z.max ex (SpecFloat.fexp prec emax k)) as He'k.
  { unfold e'. rewrite !fexp_eq.
    destruct Hcases as [-> | (_ & ? & _)]; [unfold E; cbn|]; lia. }
  destruct (binary_round_aux_spec s mx ex l Hmx HE Hex) as (m'' & Hm'' & Hexact & Hr).
  fold E in Hm'', Hexact. fold e' in Hm'', Hexact, Hr.
  destruct (rounds_to_value _ _ _ _ Hr) as (Hfin & Hval & Hexp).
  exists (inject_Z m'' * 2 ^ e')%Q.
  split; [done|]. split; [done|].
  assert (0 <= e' - ex) as Hn by lia.
  set (m' := mx / 2 ^ (e' - ex)) in *.
  assert (0 < 2 ^ (e' - ex)) as HN by (apply Z.pow_pos_nonneg; lia).
  assert (0 <= m') as Hm'nn by (apply Z.div_pos; lia).
  split.
  { apply Qmult_le_0_compat; [|apply Qlt_le_weak, pow2Q_pos].
    rewrite <- (Zle_Qle 0). lia. }
  split.
  2:{ unfold e', E in He'k.
      destruct (binary_round_aux prec emax s mx ex l); try done.
      cbn [exponent_le] in *. lia. }
  assert (0 <= v * eps64)%Q as Hveps.
  { apply Qmult_le_0_compat; [done | apply Qlt_le_weak, eps64_pos]. }
  pose proof eta64_pos as Heta.
  (* the exact case *)
  assert ((l = loc_Exact /\ (v == inject_Z mx * 2 ^ ex)%Q /\ e' = ex) \/
          e' = SpecFloat.fexp prec emax E) as [(Hl & Hveq & He) | He'].
  { destruct Hloc as [[Hl Hveq] | Hle].
    - destruct (Z.eq_dec e' ex) as [He | Hne]; [by left | right; unfold e' in *; lia].
    - right. unfold e', E. lia. }
  { rewrite (Hexact Hl He), He, Hveq.
    assert (inject_Z mx * 2 ^ ex - inject_Z mx * 2 ^ ex == 0)%Q as -> by ring.
    change (Qabs 0) with 0%Q. rewrite <- Hveq. lra. }
  (* the general case: the result is within [2^e'] of [v] *)
  set (W := (2 ^ e')%Q).
  assert (W == inject_Z (2 ^ (e' - ex)) * 2 ^ ex)%Q as HW.
  { unfold W. replace e' with ((e' - ex) + ex) at 1 by lia.
    by rewrite pow2Q_add, pow2Q_inject by lia. }
  assert (inject_Z m' * W <= v)%Q as HA1.
  { eapply Qle_trans; [|exact Hlo]. rewrite HW, Qmult_assoc, <- inject_Z_mult.
    apply Qmult_le_compat_r; [|apply Qlt_le_weak, pow2Q_pos].
    rewrite <- Zle_Qle. unfold m'. rewrite Z.mul_comm. apply Z.mul_div_le. lia. }
  assert (v < inject_Z m' * W + W)%Q as HA2.
  { eapply Qlt_le_trans; [exact Hhi|].
    assert (inject_Z m' * W + W == inject_Z ((m' + 1) * 2 ^ (e' - ex)) * 2 ^ ex)%Q as ->.
    { rewrite HW, inject_Z_mult, inject_Z_plus. ring. }
    apply Qmult_le_compat_r; [|apply Qlt_le_weak, pow2Q_pos].
    rewrite <- Zle_Qle. unfold m'.
    pose proof (Z.mul_succ_div_gt mx (2 ^ (e' - ex)) HN). lia. }
  assert (W <= v * eps64 + eta64)%Q as HWle.
  { unfold W. rewrite He', fexp_eq.
    destruct (Z.max_spec (E - 53) (-1074)) as [[_ ->] | [Hge ->]].
    - fold eta64. lra.
    - destruct Hcases as [-> | (_ & _ & Hb)].
      { exfalso. unfold e', E in He'. cbn in He'. rewrite fexp_eq in He'.
        unfold E in Hge. cbn in Hge. lia. }
      replace (E - 53) with ((E - 1) + (-52)) by lia. rewrite pow2Q_add. fold eps64.
      assert (2 ^ (E - 1) * eps64 <= v * eps64)%Q
        by (apply Qmult_le_compat_r; [done | apply Qlt_le_weak, eps64_pos]).
      lra. }
  apply Qabs_Qle_condition.
  destruct Hm'' as [-> | ->].
  - fold W. lra.
  - fold W. rewrite inject_Z_plus. 
    assert ((inject_Z m' + inject_Z 1) * W == inject_Z m' * W + W)%Q as -> by ring.
    lra.
Qed.

(** *** The error of the operations *)

Lemma iter_xO_value (p d : positive) : Z.pos (Pos.iter xO p d) = Z.pos p * 2 ^ Z.pos d.
Proof.
  induction d as [|d IH] using Pos.peano_ind.
  - cbn. lia.
  - rewrite Pos.iter_succ, Pos2Z.inj_xO, IH, Pos2Z.inj_succ, Z.pow_succ_r by lia. lia.
Qed.

Lemma iter_xO_digits (p d : positive) :
  Z.pos (digits2_pos (Pos.iter xO p d)) = Z.pos (digits2_pos p) + Z.pos d.
Proof.
  induction d as [|d IH] using Pos.peano_ind.
  - cbn. lia.
  - rewrite Pos.iter_succ. cbn [digits2_pos]. rewrite Pos2Z.inj_succ, IH. lia.
Qed.

(** Aligning a mantissa to a lower exponent keeps the number and the
    position of its leading digit. *)
Lemma shl_align_spec (p : positive) (e f : Z) :
  let r := shl_align p e f in
  snd r = Z.min e f /\
  Z.pos (fst r) = Z.pos p * 2 ^ (e - snd r) /\
  Z.pos (digits2_pos (fst r)) + snd r = Z.pos (digits2_pos p) + e.
Proof.
  unfold shl_align. destruct (f - e) as [|d|d] eqn:Ed; cbn [fst snd].
  - split; [lia|]. rewrite Z.sub_diag. split; lia.
  - split; [lia|]. rewrite Z.sub_diag. split; lia.
  - split; [lia|]. rewrite iter_xO_value, iter_xO_digits.
    replace (e - f) with (Z.pos d) by lia. split; lia.
Qed.

Lemma SF2Q_finite (s : bool) (m : positive) (e : Z) :
  (SF2Q (S754_finite s m e) == signed s (inject_Z (Z.pos m) * 2 ^ e))%Q.
Proof. cbn [SF2Q]. apply signed_value. Qed.

Lemma Qabs_inject_mul (M e : Z) :
  (Qabs (inject_Z M * 2 ^ e) == inject_Z (Z.abs M) * 2 ^ e)%Q.
Proof.
  rewrite Qabs_Qmult, (Qabs_pos (2 ^ e)) by apply Qlt_le_weak, pow2Q_pos.
  apply Qmult_comp; [|reflexivity].
  unfold Qabs, inject_Z. reflexivity.
Qed.

Lemma error_of_zero (v : Q) : (v == 0)%Q -> (Qabs (0 - v) <= Qabs v * eps64 + eta64)%Q.
Proof.
  intros ->. change (Qabs (0 - 0)) with 0%Q. change (Qabs 0) with 0%Q.
  pose proof eta64_pos. lra.
Qed.

(** [binary_normalize]: the integer [M] at the exponent [e], rounded. *)
Lemma binary_normalize_error (M e k : Z) :
  k <= 1023 -> (Qabs (inject_Z M * 2 ^ e) < 2 ^ k)%Q ->
  let r := binary_normalize prec emax M e false in
  finite_float r /\
  (Qabs (SF2Q r - inject_Z M * 2 ^ e)
     <= Qabs (inject_Z M * 2 ^ e) * eps64 + eta64)%Q /\
  exponent_le (SpecFloat.fexp prec emax k + 1) r.
Proof.
  intros Hk Hlt r.
  assert (forall (s : bool) (p : positive),
            (inject_Z (Z.pos p) * 2 ^ e < 2 ^ k)%Q ->
            finite_float (binary_round prec emax s p e) /\
            (Qabs (SF2Q (binary_round prec emax s p e)
                   - signed s (inject_Z (Z.pos p) * 2 ^ e))
               <= inject_Z (Z.pos p) * 2 ^ e * eps64 + eta64)%Q /\
            exponent_le (SpecFloat.fexp prec emax k + 1)
                        (binary_round prec emax s p e)) as Hround.
  { intros s p Hp. unfold binary_round.
    pose proof (shl_align_spec p e (SpecFloat.fexp prec emax (Z.pos (digits2_pos p) + e)))
      as (He1 & Hm1 & Hd1).
    destruct (shl_align p e _) as [mz ez]. cbn [fst snd] in *.
    set (E := Z.pos (digits2_pos p) + e) in *.
    assert (E <= k) as HE.
    { assert (E - 1 < k); [|lia]. apply pow2Q_lt_inv.
      eapply Qle_lt_trans; [|exact Hp]. apply (mantissa_binade (Z.pos p) e). lia. }
    assert (inject_Z (Z.pos mz) * 2 ^ ez == inject_Z (Z.pos p) * 2 ^ e)%Q as Hval.
    { rewrite Hm1, inject_Z_mult, <- pow2Q_inject by lia.
      rewrite <- Qmult_assoc, <- pow2Q_add. by replace (e - ez + ez) with e by lia. }
    pose proof (fexp_mono _ _ HE) as Hf. rewrite !fexp_eq in Hf.
    destruct (binary_round_aux_error s (Z.pos mz) ez k loc_Exact
                (inject_Z (Z.pos p) * 2 ^ e)) as (rv & Hfin & Hsf & Hrv & Herr & Hexp).
    - lia.
    - rewrite He1, fexp_eq. lia.
    - done.
    - rewrite Hval. apply Qle_refl.
    - rewrite <- Hval, inject_Z_plus.
      pose proof (pow2Q_pos ez). 
      assert ((inject_Z (Z.pos mz) + inject_Z 1) * 2 ^ ez
              == inject_Z (Z.pos mz) * 2 ^ ez + 2 ^ ez)%Q as -> by ring.
      lra.
    - done.
    - left. split; [done|]. by rewrite Hval.
    - split; [done|]. split.
      + by rewrite Hsf, signed_error.
      + destruct (binary_round_aux _ _ _ _ _ _); try done. cbn [exponent_le] in *.
        rewrite He1 in Hexp. rewrite !fexp_eq in *. lia. }
  destruct M as [|p|p]; cbn [binary_normalize] in r; subst r.
  - split; [done|]. split; [|done]. apply error_of_zero. cbn. ring.
  - rewrite Qabs_inject_mul in Hlt. cbn [Z.abs] in Hlt.
    destruct (Hround false p Hlt) as (Hfin & Herr & Hexp).
    split; [done|]. split; [|done]. rewrite Qabs_inject_mul. exact Herr.
  - rewrite Qabs_inject_mul in Hlt. cbn [Z.abs] in Hlt.
    destruct (Hround true p Hlt) as (Hfin & Herr & Hexp).
    split; [done|]. split; [|done]. rewrite Qabs_inject_mul. cbn [Z.abs].
    assert (inject_Z (Z.neg p) * 2 ^ e == signed true (inject_Z (Z.pos p) * 2 ^ e))%Q
      as Hneg.
    { cbn [signed]. change (Z.neg p) with (- Z.pos p). rewrite inject_Z_opp. ring. }
    rewrite Hneg. exact Herr.
Qed.

Lemma error_of_exact (r v : Q) : (r == v)%Q -> (Qabs (r - v) <= Qabs v * eps64 + eta64)%Q.
Proof.
  intros ->. assert (v - v == 0)%Q as -> by ring. change (Qabs 0) with 0%Q.
  pose proof eta64_pos. pose proof eps64_pos. pose proof (Qabs_nonneg v).
  assert (0 <= Qabs v * eps64)%Q by (apply Qmult_le_0_compat; lra). lra.
Qed.

Lemma aligned_value (s : bool) (m : positive) (e ez : Z) :
  ez <= e ->
  (inject_Z (cond_Zopp s (Z.pos (fst (shl_align m e ez)))) * 2 ^ ez
   == SF2Q (S754_finite s m e))%Q.
Proof.
  intros Hez. pose proof (shl_align_spec m e ez) as (He & Hm & _).
  rewrite Z.min_r in He by done. rewrite Hm, He.
  cbn [SF2Q]. rewrite !signed_value. apply signed_wd.
  rewrite inject_Z_mult, <- pow2Q_inject by lia.
  rewrite <- Qmult_assoc, <- pow2Q_add. by replace (e - ez + ez) with e by lia.
Qed.

Lemma exponent_le_mono (c c' : Z) (x : float) :
  c <= c' -> exponent_le c x -> exponent_le c' x.
Proof. destruct x; cbn; lia. Qed.

(** [x + y] *)
Lemma fadd_error (x y : float) (k : Z) :
  finite_float x -> finite_float y -> k <= 1023 ->
  (Qabs (SF2Q x + SF2Q y) < 2 ^ k)%Q ->
  finite_float (fadd x y) /\
  (Qabs (SF2Q (fadd x y) - (SF2Q x + SF2Q y))
     <= Qabs (SF2Q x + SF2Q y) * eps64 + eta64)%Q /\
  (forall c, (nonzero_float x /\ exponent_le c x) \/ (nonzero_float y /\ exponent_le c y) ->
             exponent_le (Z.max c (SpecFloat.fexp prec emax k + 1)) (fadd x y)).
Proof.
  intros Hx Hy Hk Hlt. unfold fadd.
  destruct x as [sx|sx| |sx mx ex]; try done;
    destruct y as [sy|sy| |sy my ey]; try done.
  - split; [by destruct sx, sy|]. split; [|by intros c [[[] _] | [[] _]]].
    assert (SF2Q (SFadd prec emax (S754_zero sx) (S754_zero sy)) = 0%Q) as ->
      by (by destruct sx, sy).
    apply error_of_zero. cbn. ring.
  - cbn [SFadd]. split; [done|]. split.
    + apply error_of_exact. cbn [SF2Q]. ring.
    + intros c [[[] _] | [_ Hc]]. eapply exponent_le_mono; [|exact Hc]. lia.
  - cbn [SFadd]. split; [done|]. split.
    + apply error_of_exact. cbn [SF2Q]. ring.
    + intros c [[_ Hc] | [[] _]]. eapply exponent_le_mono; [|exact Hc]. lia.
  - cbn [SFadd].
    set (M := cond_Zopp sx _ + cond_Zopp sy _).
    assert (inject_Z M * 2 ^ Z.min ex ey
            == SF2Q (S754_finite sx mx ex) + SF2Q (S754_finite sy my ey))%Q as HM.
    { unfold M. rewrite inject_Z_plus, Qmult_plus_distr_l.
      by rewrite !aligned_value by lia. }
    rewrite <- HM in Hlt |- *.
    destruct (binary_normalize_error M (Z.min ex ey) k Hk Hlt) as (Hfin & Herr & Hexp).
    split; [done|]. split; [done|].
    intros c _. eapply exponent_le_mono; [|exact Hexp]. lia.
Qed.

(** [x - y] *)
Lemma fsub_error (x y : float) (k : Z) :
  finite_float x -> finite_float y -> k <= 1023 ->
  (Qabs (SF2Q x - SF2Q y) < 2 ^ k)%Q ->
  finite_float (fsub x y) /\
  (Qabs (SF2Q (fsub x y) - (SF2Q x - SF2Q y))
     <= Qabs (SF2Q x - SF2Q y) * eps64 + eta64)%Q /\
  (forall c, (nonzero_float x /\ exponent_le c x) \/ (nonzero_float y /\ exponent_le c y) ->
             exponent_le (Z.max c (SpecFloat.fexp prec emax k + 1)) (fsub x y)).
Proof.
  intros Hx Hy Hk Hlt. unfold fsub.
  destruct x as [sx|sx| |sx mx ex]; try done;
    destruct y as [sy|sy| |sy my ey]; try done.
  - split; [by destruct sx, sy|]. split; [|by intros c [[[] _] | [[] _]]].
    assert (SF2Q (SFsub prec emax (S754_zero sx) (S754_zero sy)) = 0%Q) as ->
      by (by destruct sx, sy).
    apply error_of_zero. cbn. ring.
  - cbn [SFsub]. split; [done|]. split.
    + apply error_of_exact. rewrite !SF2Q_finite. cbn [SF2Q]. destruct sy; cbn; ring.
    + intros c [[[] _] | [_ Hc]]. eapply exponent_le_mono; [|exact Hc]. lia.
  - cbn [SFsub]. split; [done|]. split.
    + apply error_of_exact. cbn [SF2Q]. ring.
    + intros c [[_ Hc] | [[] _]]. eapply exponent_le_mono; [|exact Hc]. lia.
  - cbn [SFsub].
    set (M := cond_Zopp sx _ - cond_Zopp sy _).
    assert (inject_Z M * 2 ^ Z.min ex ey
            == SF2Q (S754_finite sx mx ex) - SF2Q (S754_finite sy my ey))%Q as HM.
    { unfold M. unfold Z.sub. rewrite inject_Z_plus, inject_Z_opp.
      assert (forall a b c : Q, (a + - b) * c == a * c - b * c)%Q as -> by (intros; ring).
      by rewrite !aligned_value by lia. }
    rewrite <- HM in Hlt |- *.
    destruct (binary_normalize_error M (Z.min ex ey) k Hk Hlt) as (Hfin & Herr & Hexp).
    split; [done|]. split; [done|].
    intros c _. eapply exponent_le_mono; [|exact Hexp]. lia.
Qed.

Lemma mantissa_binade_upper (mx ex : Z) :
  0 < mx -> (inject_Z mx * 2 ^ ex <= 2 ^ (Zdigits2 mx + ex))%Q.
Proof.
  intros Hmx. pose proof (Zdigits2_bounds mx Hmx) as [_ Hhi].
  pose proof (Zdigits2_pos mx Hmx) as Hd.
  rewrite pow2Q_add, (pow2Q_inject (Zdigits2 mx)) by lia.
  apply Qmult_le_compat_r; [|apply Qlt_le_weak, pow2Q_pos].
  rewrite <- Zle_Qle. lia.
Qed.

Lemma magnitude_pos (m : positive) (e : Z) : (0 < inject_Z (Z.pos m) * 2 ^ e)%Q.
Proof.
  apply Qmult_lt_0_compat; [|apply pow2Q_pos]. by rewrite <- (Zlt_Qlt 0).
Qed.

(** [x * y] *)
Lemma fmul_error (x y : float) (k cx cy : Z) :
  finite_float x -> finite_float y ->
  exponent_le cx x -> exponent_le cy y -> cx + cy <= 970 -> k <= 1023 ->
  (Qabs (SF2Q x * SF2Q y) < 2 ^ k)%Q ->
  finite_float (fmul x y) /\
  (Qabs (SF2Q (fmul x y) - SF2Q x * SF2Q y)
     <= Qabs (SF2Q x * SF2Q y) * eps64 + eta64)%Q.
Proof.
  intros Hx Hy Hcx Hcy Hc Hk Hlt. unfold fmul.
  destruct x as [sx|sx| |sx mx ex]; try done;
    destruct y as [sy|sy| |sy my ey]; try done; cbn [SFmul];
    try (split; [done|]; apply error_of_zero; cbn [SF2Q]; ring).
  cbn [exponent_le] in Hcx, Hcy.
  set (v := (inject_Z (Z.pos (mx * my)) * 2 ^ (ex + ey))%Q).
  assert (SF2Q (S754_finite sx mx ex) * SF2Q (S754_finite sy my ey)
          == signed (xorb sx sy) v)%Q as Hprod.
  { rewrite !SF2Q_finite. unfold v. rewrite Pos2Z.inj_mul, inject_Z_mult, pow2Q_add.
    destruct sx, sy; cbn [signed xorb]; ring. }
  assert (0 < v)%Q as Hv by apply magnitude_pos.
  rewrite Hprod in Hlt |- *. rewrite Qabs_signed in Hlt |- * by lra.
  destruct (binary_round_aux_error (xorb sx sy) (Z.pos (mx * my)) (ex + ey) k loc_Exact v)
    as (rv & Hfin & Hsf & Hrv & Herr & _); try done; try lia.
  - apply Qle_refl.
  - unfold v. rewrite inject_Z_plus. pose proof (pow2Q_pos (ex + ey)).
    assert ((inject_Z (Z.pos (mx * my)) + inject_Z 1) * 2 ^ (ex + ey)
            == inject_Z (Z.pos (mx * my)) * 2 ^ (ex + ey) + 2 ^ (ex + ey))%Q as -> by ring.
    lra.
  - by left.
  - split; [done|]. by rewrite Hsf, signed_error.
Qed.

(** [x / y] for a divisor other than zero *)
Lemma SFdiv_error (x y : float) (k : Z) :
  finite_float x -> nonzero_float y -> k <= 1023 ->
  (Qabs (SF2Q x / SF2Q y) < 2 ^ k)%Q ->
  finite_float (SFdiv prec emax x y) /\
  (Qabs (SF2Q (SFdiv prec emax x y) - SF2Q x / SF2Q y)
     <= Qabs (SF2Q x / SF2Q y) * eps64 + eta64)%Q /\
  exponent_le (SpecFloat.fexp prec emax k + 1) (SFdiv prec emax x y).
Proof.
  intros Hx Hy Hk Hlt.
  destruct y as [sy|sy| |sy m2 e2]; try done.
  destruct x as [sx|sx| |sx m1 e1]; try done; cbn [SFdiv].
  set (A := (inject_Z (Z.pos m1) * 2 ^ e1)%Q). set (B := (inject_Z (Z.pos m2) * 2 ^ e2)%Q).
  assert (0 < A)%Q as HA by apply magnitude_pos.
  assert (0 < B)%Q as HB by apply magnitude_pos.
  set (v := (A / B)%Q).
  assert (SF2Q (S754_finite sx m1 e1) / SF2Q (S754_finite sy m2 e2)
          == signed (xorb sx sy) v)%Q as Hquot.
  { rewrite !SF2Q_finite. fold A B. unfold v.
    destruct sx, sy; cbn [signed xorb]; field; lra. }
  assert (0 < v)%Q as Hv.
  { unfold v, Qdiv. apply Qmult_lt_0_compat; [done|]. by apply Qinv_lt_0_compat. }
  rewrite Hquot in Hlt |- *. rewrite Qabs_signed in Hlt |- * by lra.
  unfold SFdiv_core_binary.
  set (d1 := Zdigits2 (Z.pos m1)). set (d2 := Zdigits2 (Z.pos m2)).
  set (X := d1 + e1 - (d2 + e2)).
  set (e' := Z.min (SpecFloat.fexp prec emax X) (e1 - e2)).
  set (sh := e1 - e2 - e').
  set (m' := match sh with Z.pos _ => Z.shiftl (Z.pos m1) sh | 0 => Z.pos m1 | Z.neg _ => 0 end).
  assert (0 <= sh) as Hsh by (unfold sh, e'; lia).
  assert (m' = Z.pos m1 * 2 ^ sh) as Hm'.
  { unfold m'. destruct sh as [|p|p] eqn:Esh; [lia | | lia].
    by rewrite Z.shiftl_mul_pow2 by lia. }
  clearbody m'.
  pose proof (Z_div_mod m' (Z.pos m2) eq_refl) as Hdiv.
  destruct (Z.div_eucl m' (Z.pos m2)) as [q r]. destruct Hdiv as [Hdiv Hr].
  assert (0 <= q) as Hq by nia.
  (* the magnitude of the quotient *)
  assert (2 ^ (X - 1) <= v)%Q as Hbinade.
  { unfold v. apply Qle_shift_div_l; [done|].
    apply Qle_trans with (2 ^ (X - 1) * 2 ^ (d2 + e2))%Q.
    - apply Qmult_le_l; [apply pow2Q_pos|]. apply (mantissa_binade_upper (Z.pos m2)). lia.
    - rewrite <- pow2Q_add. replace (X - 1 + (d2 + e2)) with (d1 + e1 - 1) by (unfold X; lia).
      apply (mantissa_binade (Z.pos m1)). lia. }
  assert (X <= k) as HX.
  { assert (X - 1 < k); [|lia]. apply pow2Q_lt_inv. eapply Qle_lt_trans; eauto. }
  pose proof (fexp_mono _ _ HX) as HfX. rewrite !fexp_eq in HfX.
  assert (A == inject_Z m' * 2 ^ (e' + e2))%Q as HAm.
  { unfold A. rewrite Hm', inject_Z_mult, <- pow2Q_inject by lia.
    rewrite <- Qmult_assoc, <- pow2Q_add. by replace (sh + (e' + e2)) with e1 by (unfold sh; lia). }
  assert (forall n : Z, inject_Z n * 2 ^ e' * B == inject_Z (n * Z.pos m2) * 2 ^ (e' + e2))%Q
    as HnB.
  { intros n. unfold B. rewrite inject_Z_mult, pow2Q_add. ring. }
  destruct (binary_round_aux_error (xorb sx sy) q e' k
              (new_location (Z.pos m2) r) v)
    as (rv & Hfin & Hsf & Hrv & Herr & Hexp); try done.
  - unfold e'. rewrite fexp_eq. lia.
  - unfold v. apply Qle_shift_div_l; [done|]. rewrite HnB, HAm.
    apply Qmult_le_compat_r; [|apply Qlt_le_weak, pow2Q_pos].
    rewrite <- Zle_Qle. nia.
  - unfold v. apply Qlt_shift_div_r; [done|]. rewrite HnB, HAm.
    apply Qmult_lt_compat_r; [apply pow2Q_pos|].
    rewrite <- Zlt_Qlt. nia.
  - right. rewrite fexp_eq.
    destruct (Z.le_gt_cases e' (-1074)) as [|Hnormal]; [lia|].
    assert (e' <= X - 53) as He'X by (unfold e' in *; rewrite fexp_eq in *; lia).
    assert (2 ^ 52 <= q) as Hq52.
    { pose proof (Zdigits2_bounds (Z.pos m1) ltac:(lia)) as [Hlo1 _].
      pose proof (Zdigits2_bounds (Z.pos m2) ltac:(lia)) as [_ Hhi2].
      fold d1 in Hlo1. fold d2 in Hhi2.
      assert (0 < d1) by (by apply Zdigits2_pos). assert (0 < d2) by (by apply Zdigits2_pos).
      assert (2 ^ (52 + d2) <= m') as Hbig.
      { rewrite Hm'. apply Z.le_trans with (2 ^ (d1 - 1) * 2 ^ sh).
        - rewrite <- Z.pow_add_r by lia. apply Z.pow_le_mono_r; [lia|]. unfold sh, X in *. lia.
        - apply Z.mul_le_mono_nonneg_r; [apply Z.pow_nonneg; lia | done]. }
      rewrite Z.pow_add_r in Hbig by lia.
      assert (0 < 2 ^ 52) by done.
      destruct (Z.le_gt_cases (2 ^ 52) q) as [|Hsmall]; [done|]. nia. }
    pose proof (Zdigits2_gt q 52 ltac:(lia) Hq52). lia.
  - split; [done|]. split; [by rewrite Hsf, signed_error|].
    eapply exponent_le_mono; [|exact Hexp]. unfold e'. rewrite !fexp_eq. lia.
Qed.

(** *** The round trip through the canvas *)

Lemma eps64_small : (eps64 <= 1 # 1000000000000000)%Q.
Proof. apply Qle_bool_imp_le. vm_compute. reflexivity. Qed.

Lemma eta64_small : (eta64 <= 1 # 1000000000000000000)%Q.
Proof. apply Qle_bool_imp_le. vm_compute. reflexivity. Qed.

(** Dividing by [s] what was multiplied by [s], each rounded: the
    product's relative error stays, its absolute error is blown up by
    at most [1 / |s|]. *)
Lemma quotient_error (a s b : Q) :
  (1 # 300 <= Qabs s)%Q ->
  (Qabs (b - a * s) <= Qabs (a * s) * eps64 + eta64)%Q ->
  (Qabs (b / s - a) <= Qabs a * eps64 + 300 * eta64)%Q.
Proof.
  intros Hs Hb.
  assert (0 < Qabs s)%Q as Hspos by lra.
  assert (~ s == 0)%Q as Hs0.
  { intros E. rewrite E in Hspos. by apply Qlt_irrefl in Hspos. }
  assert (b / s - a == (b - a * s) / s)%Q as -> by (field; done).
  unfold Qdiv at 1. rewrite Qabs_Qmult, Qabs_Qinv.
  apply Qle_shift_div_r; [done|].
  rewrite Qabs_Qmult in Hb.
  pose proof eta64_pos as Heta.
  assert (eta64 * 1 <= eta64 * (300 * Qabs s))%Q as H1.
  { apply Qmult_le_l; [done | lra]. }
  eapply Qle_trans; [exact Hb|].
  assert ((Qabs a * eps64 + 300 * eta64) * Qabs s
          == Qabs a * Qabs s * eps64 + eta64 * (300 * Qabs s))%Q as -> by ring.
  lra.
Qed.

(** One coordinate through the canvas and back, in numbers: [a] is the
    rounded offset coordinate [t], [b] the rounded product with the
    scale, [c] the rounded quotient. *)
Lemma round_trip_error (t a s b c : Q) :
  (0 <= t <= 144)%Q ->
  (Qabs (a - t) <= Qabs t * eps64 + eta64)%Q ->
  (1 # 300 <= Qabs s)%Q ->
  (Qabs (b - a * s) <= Qabs (a * s) * eps64 + eta64)%Q ->
  (Qabs (c - b / s) <= Qabs (b / s) * eps64 + eta64)%Q ->
  (Qabs a <= 145 /\ Qabs (b / s) <= 146 /\ Qabs (c - t) <= 1 # 1000000000000)%Q.
Proof.
  intros Ht Ha Hs Hb Hc.
  pose proof eps64_small as He. pose proof eta64_small as Hh.
  pose proof eps64_pos as He0. pose proof eta64_pos as Hh0.
  pose proof (quotient_error a s b Hs Hb) as Hq.
  rewrite (Qabs_pos t) in Ha by lra.
  set (q := (b / s)%Q) in *.
  assert (forall u : Q, 0 <= u <= 146 -> 0 <= u * eps64 <= 146 * eps64)%Q as Hmul.
  { intros u [Hu0 Hu]. split; [apply Qmult_le_0_compat; lra|].
    apply Qmult_le_compat_r; lra. }
  apply Qabs_Qle_condition in Ha.
  assert (Qabs a <= 145)%Q as Ha145.
  { apply Qabs_Qle_condition. destruct (Hmul t) as [? ?]; [lra|]. lra. }
  pose proof (Qabs_nonneg a) as Ha0.
  destruct (Hmul (Qabs a)) as [? ?]; [lra|].
  apply Qabs_Qle_condition in Hq.
  assert (Qabs q <= 146)%Q as Hq146.
  { apply Qabs_Qle_condition. apply Qabs_Qle_condition in Ha145. lra. }
  pose proof (Qabs_nonneg q) as Hq0.
  destruct (Hmul (Qabs q)) as [? ?]; [lra|].
  destruct (Hmul t) as [? ?]; [lra|].
  apply Qabs_Qle_condition in Hc.
  split; [done|]. split; [done|].
  apply Qabs_Qle_condition. lra.
Qed.

Lemma SF2Q_72 : (SF2Q (float_lit 72) == 72)%Q.
Proof. vm_compute. reflexivity. Qed.

Lemma SF2Q_144 : (SF2Q (float_lit 144) == 144)%Q.
Proof. vm_compute. reflexivity. Qed.

Lemma nonzero_of_value (x : float) : finite_float x -> ~ (SF2Q x == 0)%Q -> nonzero_float x.
Proof. by destruct x. Qed.

Lemma truediv_nonzero (x y : float) :
  nonzero_float y -> truediv x y = Ok (SFdiv prec emax x y).
Proof. by destruct y as [| | |[] m e]. Qed.

(** The scale of a canvas of at most that size: a float other than zero,
    not below 1/300 in magnitude and not above [2^1015]; 144 times the
    scale is the size up to a relative error of [4e-15]. *)
Lemma scale_spec (n : Z) :
  n <> 0 -> Z.abs n <= largest_canvas_size ->
  exists s,
    CoordinateSystem_new (F := float) n = Ok (mkCoordinateSystem n s) /\
    nonzero_float s /\
    (1 # 300 <= Qabs (SF2Q s))%Q /\ (Qabs (SF2Q s) <= 2 ^ 1015)%Q /\
    exponent_le 970 s /\
    (Qabs (144 * SF2Q s - inject_Z n)
       <= inject_Z (Z.abs n) * (4 # 1000000000000000))%Q.
Proof.
  intros Hn0 Hn. unfold CoordinateSystem_new.
  cbn [num_of_int num_div binary64_arith]. unfold int_to_float.
  assert ((float_overflow_threshold <=? Z.abs n) = false) as ->.
  { apply Z.leb_gt. eapply Z.le_lt_trans; [exact Hn|]. apply Z.ltb_lt.
    vm_compute. reflexivity. }
  cbn [mbind py_bind].
  set (c := binary_normalize prec emax n 0 false).
  pose proof eps64_small as He. pose proof eta64_small as Hh.
  pose proof eps64_pos as He0. pose proof eta64_pos as Hh0.
  assert (1 <= inject_Z (Z.abs n) <= inject_Z largest_canvas_size)%Q as HN.
  { split; [rewrite <- (Zle_Qle 1); lia | by rewrite <- Zle_Qle]. }
  assert (inject_Z largest_canvas_size * (1 # 70) < 2 ^ 1015)%Q as Hmax.
  { apply Qlt_alt. vm_compute. reflexivity. }
  assert (inject_Z largest_canvas_size < 2 ^ 1021)%Q as Hmax'.
  { apply Qlt_alt. vm_compute. reflexivity. }
  assert (Qabs (inject_Z n * 2 ^ 0) == inject_Z (Z.abs n))%Q as Habs.
  { rewrite Qabs_inject_mul. change (2 ^ 0)%Q with 1%Q. ring. }
  destruct (binary_normalize_error n 0 1021 ltac:(lia)) as (Hcfin & Hcerr & _).
  { rewrite Habs. lra. }
  fold c in Hcfin, Hcerr. rewrite Habs in Hcerr.
  assert (inject_Z n * 2 ^ 0 == inject_Z n)%Q as Hn1
    by (change (2 ^ 0)%Q with 1%Q; ring).
  rewrite Hn1 in Hcerr.
  assert (Qabs (inject_Z n) == inject_Z (Z.abs n))%Q as Habs' by (by rewrite <- Habs, Hn1).
  set (C := SF2Q c) in *.
  assert (0 <= inject_Z (Z.abs n) * eps64 <= inject_Z (Z.abs n) * (1 # 1000000000000000))%Q
    as Hne.
  { split; [apply Qmult_le_0_compat; lra|]. apply Qmult_le_l; lra. }
  assert (1 # 2 <= Qabs C <= 2 * inject_Z (Z.abs n))%Q as HC.
  { pose proof (Qabs_triangle (C - inject_Z n) (inject_Z n)) as H1.
    assert (C - inject_Z n + inject_Z n == C)%Q as E1 by ring. rewrite E1 in H1.
    pose proof (Qabs_triangle_reverse C (inject_Z n)) as H2.
    pose proof (Qabs_triangle_reverse (inject_Z n) C) as H3.
    rewrite Habs' in H1, H2, H3.
    assert (Qabs (inject_Z n - C) == Qabs (C - inject_Z n))%Q as E2.
    { rewrite <- Qabs_opp. apply Qabs_wd. ring. }
    rewrite E2 in H3. lra. }
  assert (nonzero_float c) as Hcnz.
  { apply nonzero_of_value; [done|]. fold C. intros E. rewrite E in HC.
    change (Qabs 0) with 0%Q in HC. lra. }
  assert (nonzero_float (float_lit 144)) as H144 by exact I.
  unfold FIELD_SIZE_INCHES. cbn [num_lit binary64_arith].
  rewrite (truediv_nonzero c _ H144). cbn [mbind py_bind].
  eexists. split; [reflexivity|].
  assert (Qabs (C / SF2Q (float_lit 144)) == Qabs C * (1 # 144))%Q as Hquot.
  { rewrite SF2Q_144. unfold Qdiv. rewrite Qabs_Qmult. apply Qmult_comp; [reflexivity|].
    reflexivity. }
  destruct (SFdiv_error c (float_lit 144) 1015) as (Hsfin & Hserr & Hsexp);
    [by destruct c | done | lia | |].
  { fold C. rewrite Hquot. lra. }
  fold C in Hserr. rewrite Hquot in Hserr.
  set (s := SFdiv prec emax c (float_lit 144)) in *. set (S := SF2Q s) in *.
  set (V := (C / SF2Q (float_lit 144))%Q) in *.
  assert (0 <= Qabs C * (1 # 144) * eps64
            <= Qabs C * (1 # 144) * (1 # 1000000000000000))%Q as Hce.
  { split; [apply Qmult_le_0_compat; lra|]. apply Qmult_le_l; lra. }
  assert (1 # 300 <= Qabs S <= 2 ^ 1015)%Q as HS.
  { pose proof (Qabs_triangle (S - V) V) as H1.
    assert (S - V + V == S)%Q as E1 by ring. rewrite E1 in H1.
    pose proof (Qabs_triangle_reverse V S) as H3.
    assert (Qabs (V - S) == Qabs (S - V))%Q as E2.
    { rewrite <- Qabs_opp. apply Qabs_wd. ring. }
    rewrite E2 in H3. rewrite Hquot in H1, H3. lra. }
  split.
  { apply nonzero_of_value; [done|]. fold S. intros E. rewrite E in HS.
    change (Qabs 0) with 0%Q in HS. lra. }
  split; [lra|]. split; [lra|].
  split; [eapply exponent_le_mono; [|exact Hsexp]; rewrite fexp_eq; lia|].
  assert (V == C * (1 # 144))%Q as HV.
  { unfold V. rewrite SF2Q_144. unfold Qdiv. apply Qmult_comp; reflexivity. }
  apply Qabs_Qle_condition in Hserr. apply Qabs_Qle_condition in Hcerr.
  rewrite HV in Hserr.
  apply Qabs_Qle_condition. lra.
Qed.

(** One coordinate in floats: the offset coordinate [a], which
    approximates [t] of [0 .. 144], times the scale and divided by it
    again. *)
Lemma scaled_and_back (s a : float) (t : Q) :
  nonzero_float s ->
  (1 # 300 <= Qabs (SF2Q s))%Q -> (Qabs (SF2Q s) <= 2 ^ 1015)%Q -> exponent_le 970 s ->
  finite_float a -> exponent_le (-44) a ->
  (0 <= t <= 144)%Q -> (Qabs (SF2Q a - t) <= Qabs t * eps64 + eta64)%Q ->
  exists c,
    truediv (fmul a s) s = Ok c /\ finite_float c /\
    (Qabs (SF2Q c - t) <= 1 # 1000000000000)%Q.
Proof.
  intros Hsnz Hs Hsmax Hsexp Hafin Haexp Ht Ha.
  pose proof eps64_small as He. pose proof eta64_small as Hh.
  pose proof eps64_pos as He0. pose proof eta64_pos as Hh0.
  assert (Qabs (SF2Q a) <= 145)%Q as Ha145.
  { pose proof Ha as Ha'. rewrite (Qabs_pos t) in Ha' by lra.
    apply Qabs_Qle_condition in Ha'. apply Qabs_Qle_condition.
    assert (0 <= t * eps64 <= 144 * eps64)%Q.
    { split; [apply Qmult_le_0_compat; lra|]. apply Qmult_le_compat_r; lra. }
    lra. }
  assert (finite_float s) as Hsfin by (by destruct s).
  destruct (fmul_error a s 1023 (-44) 970) as (Hbfin & Hb);
    [done | done | done | done | lia | lia | |].
  { rewrite Qabs_Qmult. apply Qle_lt_trans with (145 * 2 ^ 1015)%Q.
    - apply Qmult_le_compat_nonneg; split; try done; apply Qabs_nonneg.
    - apply Qlt_alt. vm_compute. reflexivity. }
  rewrite (truediv_nonzero _ s Hsnz).
  pose proof (quotient_error _ _ _ Hs Hb) as Hq.
  assert (Qabs (SF2Q (fmul a s) / SF2Q s) <= 146)%Q as Hq146.
  { pose proof (Qabs_nonneg (SF2Q a)) as Ha0.
    assert (0 <= Qabs (SF2Q a) * eps64 <= 145 * eps64)%Q.
    { split; [apply Qmult_le_0_compat; lra|]. apply Qmult_le_compat_r; lra. }
    pose proof (Qabs_triangle (SF2Q (fmul a s) / SF2Q s - SF2Q a) (SF2Q a)) as H1.
    assert (SF2Q (fmul a s) / SF2Q s - SF2Q a + SF2Q a == SF2Q (fmul a s) / SF2Q s)%Q
      as E1 by ring.
    rewrite E1 in H1. lra. }
  destruct (SFdiv_error (fmul a s) s 9) as (Hcfin & Hc & _); [done | done | lia | |].
  { eapply Qle_lt_trans; [exact Hq146|]. apply Qlt_alt. vm_compute. reflexivity. }
  eexists. split; [reflexivity|]. split; [done|].
  by apply (round_trip_error t (SF2Q a) (SF2Q s) (SF2Q (fmul a s))).
Qed.

(** The error of the last step, the subtraction of or from 72. *)
Lemma offset_removed (c d t u : Q) :
  (0 <= t <= 144)%Q -> (Qabs (c - t) <= 1 # 1000000000000)%Q ->
  (Qabs u <= 300)%Q ->
  (Qabs (d - u) <= Qabs u * eps64 + eta64)%Q ->
  (Qabs (d - u) <= 1 # 1000000000)%Q.
Proof.
  intros Ht Hc Hu Hd.
  pose proof eps64_small as He. pose proof eta64_small as Hh.
  pose proof eps64_pos as He0. pose proof eta64_pos as Hh0.
  pose proof (Qabs_nonneg u) as Hu0.
  assert (0 <= Qabs u * eps64 <= 300 * eps64)%Q.
  { split; [apply Qmult_le_0_compat; lra|]. apply Qmult_le_compat_r; lra. }
  lra.
Qed.




(** The round trip is not the identity, but close to it: with the canvas
    of the application, 600 pixels, [(-10, 24)] comes back as
    [(-9.999999999999993, 24.0)]. *)
Example binary64_round_trip_600 :
  canvas_round_trip (F := float) 600 (float_lit (-10)) (float_lit 24)
    = Ok (S754_finite true 5629499534213116 (-49), float_lit 24) /\
  within_1e_6 (S754_finite true 5629499534213116 (-49)) (float_lit (-10)) = true.
Proof. split; vm_compute; reflexivity. Qed.

(** The bound on the position matters: far outside the field, at
    [x = 66571993016.0], the round trip on the canvas of 600 pixels comes
    back more than 1e-6 off. *)
Example binary64_round_trip_far_outside :
  match canvas_round_trip (F := float) 600 (float_lit 66571993016) (float_lit 0) with
  | Ok (fx, _) => within_1e_6 fx (float_lit 66571993016)
  | Raise _ => true
  end = false.
Proof. vm_compute. reflexivity. Qed.

(** Inside the field, tested with [abs(a - b) <= 1e-6] on floats: every
    whole-inch coordinate of the field on canvases of 1, 100, 600 and
    1920 pixels; each value [v] of [-72 .. 72] is sent through the
    transform as the x of one position and, negated, as the y. *)
Example binary64_round_trip_whole_inches :
  forallb (fun n => forallb (fun v => round_trip_within_1e_6 n v (- v)) whole_inches)
          [1; 100; 600; 1920] = true.
Proof. vm_compute. reflexivity. Qed.

(** ** Curve decomposition (core/geomtry.py) *)

Lemma float_overflow_threshold_gt_1 : 1 < float_overflow_threshold.
Proof. apply Z.ltb_lt. vm_compute. reflexivity. Qed.

(** On [0 <= i <= n] with [n >= 1], [i / n] does not raise. *)
Lemma int_truediv_unit_interval (i n : Z) :
  0 <= i <= n -> 1 <= n ->
  int_truediv i n = Ok (SFdiv prec emax (exact_int i) (exact_int n)).
Proof.
  intros Hi Hn. unfold int_truediv.
  destruct (Z.eqb_spec n 0); [lia|].
  pose proof float_overflow_threshold_gt_1 as Ht.
  destruct (Z.leb_spec (float_overflow_threshold * Z.abs n) (Z.abs i)); [|done].
  exfalso. rewrite !Z.abs_eq in * by lia. nia.
Qed.

Lemma int_truediv_0 (n : Z) : 1 <= n -> int_truediv 0 n = Ok (float_lit 0).
Proof.
  intros Hn. rewrite int_truediv_unit_interval by lia.
  destruct n as [|p|p]; [lia | reflexivity | lia].
Qed.

Lemma SFdiv_core_self (p : positive) :
  SFdiv_core_binary prec emax (Zpos p) 0 (Zpos p) 0 = (2 ^ 53, -53, loc_Exact).
Proof.
  unfold SFdiv_core_binary.
  set (d := Zdigits2 (Zpos p)).
  replace (d + 0 - (d + 0)) with 0 by lia.
  change (Z.min (fexp prec emax 0) (0 - 0)) with (-53).
  change (0 - 0 - -53) with 53.
  cbv beta iota zeta.
  assert (Z.shiftl (Zpos p) 53 / Zpos p = 2 ^ 53) as Hq.
  { rewrite Z.shiftl_mul_pow2 by lia. rewrite Z.mul_comm. apply Z.div_mul. lia. }
  assert (Z.shiftl (Zpos p) 53 mod Zpos p = 0) as Hr.
  { rewrite Z.shiftl_mul_pow2 by lia. rewrite Z.mul_comm. apply Z.mod_mul. lia. }
  unfold Z.div, Z.modulo in Hq, Hr.
  destruct (Z.div_eucl (Z.shiftl (Zpos p) 53) (Zpos p)) as [q r].
  cbn [fst snd] in Hq, Hr. subst q r.
  f_equal. unfold new_location.
  destruct (Z.even (Zpos p)); reflexivity.
Qed.

(** [n / n] is exactly [1.0]. *)
Lemma int_truediv_self (n : Z) : 1 <= n -> int_truediv n n = Ok (float_lit 1).
Proof.
  intros Hn. rewrite int_truediv_unit_interval by lia.
  destruct n as [|p|p]; [lia | | lia].
  cbn [exact_int]. unfold SFdiv. rewrite SFdiv_core_self. vm_compute. reflexivity.
Qed.

Lemma mapM_Ok {A B} (f : A -> py B) (g : A -> B) (l : list A) :
  (forall x, x ∈ l -> f x = Ok (g x)) -> mapM f l = Ok (g <$> l).
Proof.
  induction l as [|a l IH]; intros Hf; [done|].
  cbn. rewrite Hf by left. cbn. rewrite IH; [done|].
  intros x Hx. apply Hf. by right.
Qed.

(** The sample of the curve for the index [i] of [n] segments. *)
Lemma decompose_quadratic_bezier_samples (p0 p1 p2 : Point) (n : Z) :
  1 <= n ->
  decompose_quadratic_bezier p0 p1 p2 n =
    Ok ((fun i => quadratic_bezier p0 p1 p2
                    (SFdiv prec emax (exact_int i) (exact_int n)))
          <$> seqZ 0 (n + 1)).
Proof.
  intros Hn. unfold decompose_quadratic_bezier, range.
  apply mapM_Ok. intros i Hi. apply elem_of_seqZ in Hi.
  by rewrite int_truediv_unit_interval by lia.
Qed.

Lemma decompose_quadratic_bezier_endpoints (p0 p1 p2 : Point) (n : Z) :
  1 <= n ->
  exists pts,
    decompose_quadratic_bezier p0 p1 p2 n = Ok pts /\
    length pts = Z.to_nat (n + 1) /\
    head pts = Some (quadratic_bezier p0 p1 p2 (float_lit 0)) /\
    last pts = Some (quadratic_bezier p0 p1 p2 (float_lit 1)).
Proof.
  intros Hn. eexists. split; [by apply decompose_quadratic_bezier_samples|].
  split; [by rewrite length_fmap, length_seqZ|].
  pose proof (int_truediv_0 n Hn) as H0.
  pose proof (int_truediv_self n Hn) as H1.
  rewrite int_truediv_unit_interval in H0, H1 by lia.
  injection H0 as H0. injection H1 as H1.
  split.
  - rewrite seqZ_cons by lia. cbn. by rewrite H0.
  - rewrite last_lookup, length_fmap, length_seqZ, list_lookup_fmap.
    rewrite lookup_seqZ_lt by lia. cbn.
    replace (0 + Z.of_nat (Nat.pred (Z.to_nat (n + 1)))) with n by lia.
    by rewrite H1.
Qed.

Section AdaptiveProperties.
(** The C library's [pow], behind [** 2] in [distance_to]. *)
Variable c_pow : float -> float -> float.

Lemma adaptive_decompose_quadratic_stages p0 p1 p2 msl mn mx :
  adaptive_decompose_quadratic c_pow p0 p1 p2 msl mn mx =
    adaptive_num_segments c_pow p0 p1 p2 msl mn mx
      ≫= decompose_quadratic_bezier p0 p1 p2.
Proof.
  unfold adaptive_decompose_quadratic, adaptive_num_segments, truncated_estimate.
  destruct (distance_to c_pow p0 p1) as [d01|]; [cbn | done].
  destruct (distance_to c_pow p1 p2) as [d12|]; [cbn | done].
  destruct (truediv (fadd d01 d12) msl) as [q|]; [cbn | done].
  by destruct (int_of_float q).
Qed.

(** C6 (as amended). Whatever the C library's [pow]: whenever
    [int(rough_length / max_segment_length)] is computed without an
    exception, with value [k], the segment count of the adaptive
    decomposition is [max(min_segments, min(max_segments, k))]: the
    estimate is truncated, not rounded.  The count lies within
    [min_segments, max_segments] when [min_segments <= max_segments], and
    when it is at least 1 the decomposition returns count + 1 points, the
    first the curve at [t = 0] and the last the curve at [t = 1]. *)
Theorem adaptive_decompose_quadratic_count (p0 p1 p2 : Point) (msl : float)
    (mn mx k : Z) :
  truncated_estimate c_pow p0 p1 p2 msl = Ok k ->
  let n := Z.max mn (Z.min mx k) in
  adaptive_num_segments c_pow p0 p1 p2 msl mn mx = Ok n /\
  (mn <= mx -> mn <= n <= mx) /\
  (1 <= n ->
   exists pts,
     adaptive_decompose_quadratic c_pow p0 p1 p2 msl mn mx = Ok pts /\
     length pts = Z.to_nat (n + 1) /\
     head pts = Some (quadratic_bezier p0 p1 p2 (float_lit 0)) /\
     last pts = Some (quadratic_bezier p0 p1 p2 (float_lit 1))).
Proof.
  intros Hk n.
  assert (adaptive_num_segments c_pow p0 p1 p2 msl mn mx = Ok n) as Hn.
  { unfold adaptive_num_segments. by rewrite Hk. }
  split; [done|]. split; [subst n; lia|].
  intros Hpos. rewrite adaptive_decompose_quadratic_stages, Hn. cbn.
  by apply decompose_quadratic_bezier_endpoints.
Qed.

(** The control polygon (0, 0), (0, 14), (0, 28) with
    [max_segment_length = 6]: all that matters of [pow] is that it
    returns the square of 14 exactly, [pow(14.0, 2.0) = 196.0].  The
    estimate is 28/6 = 4.67, which the code truncates to 4 segments (5
    points) while the rounded count is 5. *)
Lemma adaptive_axis_polygon :
  c_pow (float_lit 14) (float_lit 2) = float_lit 196 ->
  truncated_estimate c_pow axis_p0 axis_p1 axis_p2 (float_lit 6) = Ok 4 /\
  adaptive_num_segments c_pow axis_p0 axis_p1 axis_p2 (float_lit 6) 3 20 = Ok 4 /\
  spec_num_segments c_pow axis_p0 axis_p1 axis_p2 (float_lit 6) 3 20 = Ok 5 /\
  length <$> adaptive_decompose_quadratic c_pow axis_p0 axis_p1 axis_p2 (float_lit 6) 3 20
    = Ok 5%nat.
Proof.
  intros Hpow.
  assert (distance_to c_pow axis_p0 axis_p1 = Ok (float_lit 14)) as H01.
  { unfold distance_to, axis_p0, axis_p1. cbn [pt_x pt_y].
    change (fsub (float_lit 0) (float_lit 0)) with fzero.
    change (fsub (float_lit 0) (float_lit 14)) with (float_lit (-14)).
    change (float_pow c_pow fzero 2) with (Ok fzero).
    change (float_pow c_pow (float_lit (-14)) 2)
      with (match c_pow (float_lit 14) (float_lit 2) with
            | S754_infinity _ => Raise OverflowError
            | ix => Ok ix
            end).
    rewrite Hpow. vm_compute. reflexivity. }
  assert (distance_to c_pow axis_p1 axis_p2 = Ok (float_lit 14)) as H12.
  { unfold distance_to, axis_p1, axis_p2. cbn [pt_x pt_y].
    change (fsub (float_lit 0) (float_lit 0)) with fzero.
    change (fsub (float_lit 14) (float_lit 28)) with (float_lit (-14)).
    change (float_pow c_pow fzero 2) with (Ok fzero).
    change (float_pow c_pow (float_lit (-14)) 2)
      with (match c_pow (float_lit 14) (float_lit 2) with
            | S754_infinity _ => Raise OverflowError
            | ix => Ok ix
            end).
    rewrite Hpow. vm_compute. reflexivity. }
  assert (truncated_estimate c_pow axis_p0 axis_p1 axis_p2 (float_lit 6) = Ok 4) as Hk.
  { unfold truncated_estimate. rewrite H01, H12. vm_compute. reflexivity. }
  split; [exact Hk|]. split; [|split].
  - unfold adaptive_num_segments. rewrite Hk. reflexivity.
  - unfold spec_num_segments. rewrite H01, H12. vm_compute. reflexivity.
  - rewrite adaptive_decompose_quadratic_stages.
    unfold adaptive_num_segments. rewrite Hk. vm_compute. reflexivity.
Qed.

End AdaptiveProperties.

Lemma adaptive_decompose_quadratic_count_witness :
  truncated_estimate pow_stand_in axis_p0 axis_p1 axis_p2 (float_lit 6) = Ok 4 /\
  adaptive_num_segments pow_stand_in axis_p0 axis_p1 axis_p2 (float_lit 6) 3 20 = Ok 4 /\
  (3 <= 20 -> 3 <= 4 <= 20) /\
  (1 <= 4 ->
   exists pts,
     adaptive_decompose_quadratic pow_stand_in axis_p0 axis_p1 axis_p2 (float_lit 6) 3 20
       = Ok pts /\
     length pts = 5%nat /\
     head pts = Some (quadratic_bezier axis_p0 axis_p1 axis_p2 (float_lit 0)) /\
     last pts = Some (quadratic_bezier axis_p0 axis_p1 axis_p2 (float_lit 1))).
Proof.
  split; [vm_compute; reflexivity|].
  apply (adaptive_decompose_quadratic_count pow_stand_in axis_p0 axis_p1 axis_p2
                                            (float_lit 6) 3 20 4).
  vm_compute. reflexivity.
Defined.

(** C6 as stated fails where rounding and truncation differ: a control
    polygon of length 28 with [max_segment_length = 6] gives 28/6 = 4.67,
    which the code truncates to 4 segments (5 points) while the rounded
    count is 5 (6 points).  The squares that occur, of 0.0 and of 14.0,
    are exact: the first is settled by the interpreter, the second is
    196.0 (see [adaptive_axis_polygon]). *)
Lemma adaptive_truncates_where_spec_rounds :
  adaptive_num_segments pow_stand_in axis_p0 axis_p1 axis_p2 (float_lit 6) 3 20 = Ok 4 /\
  spec_num_segments pow_stand_in axis_p0 axis_p1 axis_p2 (float_lit 6) 3 20 = Ok 5 /\
  length <$> adaptive_decompose_quadratic pow_stand_in axis_p0 axis_p1 axis_p2
               (float_lit 6) 3 20
    = Ok 5%nat.
Proof.
  apply (adaptive_axis_polygon pow_stand_in). vm_compute. reflexivity.
Qed.

(** Three further inputs on which the count or the list of C6 is not what
    the claim says: inverted bounds, a count of 0, and a length estimate
    that overflows. *)
Example adaptive_inverted_bounds :
  adaptive_num_segments pow_stand_in axis_p0 axis_p1 axis_p2 (float_lit 6) 10 5 = Ok 10.
Proof. vm_compute. reflexivity. Qed.

Example adaptive_zero_segments (c_pow : float -> float -> float) :
  adaptive_num_segments c_pow axis_p0 axis_p0 axis_p0 (float_lit 6) 0 20 = Ok 0 /\
  adaptive_decompose_quadratic c_pow axis_p0 axis_p0 axis_p0 (float_lit 6) 0 20
    = Raise ZeroDivisionError.
Proof. split; vm_compute; reflexivity. Qed.

Example adaptive_overflow :
  adaptive_decompose_quadratic pow_stand_in axis_p0
                               (mkPoint (float_lit (10 ^ 200)) (float_lit 0))
                               axis_p2 (float_lit 6) 3 20
    = Raise OverflowError.
Proof. vm_compute. reflexivity. Qed.

(** ** Headings (core/coordinates.py) *)

Section HeadingProperties.
Variable atan2 : float -> float -> float.

(** C7, the failing input.  For a target [2 ** -70] inches to the left of
    straight ahead the C library returns an angle of [-2 ** -70] radians
    (the correctly rounded arc tangent), or at worst its neighbour
    towards zero.  Either way the angle in degrees is negative and below
    half an ulp of 360 in magnitude, so that [angle += 360] rounds to
    [360.0]: the heading returned is not below 360. *)
Theorem calculate_heading_returns_360 :
  atan2 tiny_left (float_lit 1) = tiny_left \/
  atan2 tiny_left (float_lit 1) = tiny_left_next ->
  calculate_heading atan2 (float_lit 0) (float_lit 0) tiny_left (float_lit 1)
    = float_360 /\
  flt (calculate_heading atan2 (float_lit 0) (float_lit 0) tiny_left (float_lit 1))
      float_360 = false.
Proof.
  intros Hatan. unfold calculate_heading.
  change (fsub tiny_left (float_lit 0)) with tiny_left.
  change (fsub (float_lit 1) (float_lit 0)) with (float_lit 1).
  destruct Hatan as [-> | ->]; split; vm_compute; reflexivity.
Qed.

End HeadingProperties.

Lemma calculate_heading_returns_360_witness :
  (atan2_first_order tiny_left (float_lit 1) = tiny_left \/
   atan2_first_order tiny_left (float_lit 1) = tiny_left_next) /\
  calculate_heading atan2_first_order (float_lit 0) (float_lit 0) tiny_left (float_lit 1)
    = float_360 /\
  flt (calculate_heading atan2_first_order (float_lit 0) (float_lit 0)
                         tiny_left (float_lit 1)) float_360 = false.
Proof.
  split; [left; vm_compute; reflexivity|].
  apply (calculate_heading_returns_360 atan2_first_order).
  left. vm_compute. reflexivity.
Defined.

(** Away from the axis the normalisation does what is intended: a target
    to the right, with an angle of a quarter turn, gives 90 degrees. *)
Example calculate_heading_east :
  calculate_heading (fun _ _ => S754_finite false 7074237752028440 (-52))
                    (float_lit 0) (float_lit 0) (float_lit 10) (float_lit 0)
  = float_lit 90.
Proof. vm_compute. reflexivity. Qed.

(** * Part III: further properties of the code *)

(** ** Bezier evaluation (core/geomtry.py) *)

Lemma iter_shr_1_exact (m : positive) :
  SpecFloat.iter_pos shr_1 52 (Build_shr_record (Zpos (Pos.iter xO m 52)) false false)
  = Build_shr_record (Zpos m) false false.
Proof. reflexivity. Qed.

Lemma digits2_pos_shift (m : positive) :
  Zpos (digits2_pos (Pos.iter xO m 52)) = Zpos (digits2_pos m) + 52.
Proof.
  change (digits2_pos (Pos.iter xO m 52))
    with (Pos.iter Pos.succ (digits2_pos m) 52).
  cbv beta iota delta [Pos.iter]. lia.
Qed.

(** Multiplying a float by [1.0] is exact. *)
Lemma fmul_one_r (s : bool) (m : positive) (e : Z) :
  bounded prec emax m e = true ->
  fmul (S754_finite s m e) (float_lit 1) = S754_finite s m e.
Proof.
  intros Hb. apply andb_true_iff in Hb as [Hc He].
  apply Z.eqb_eq in Hc. apply Z.leb_le in He.
  change (float_lit 1) with (S754_finite false 4503599627370496 (-52)).
  unfold fmul, SFmul. rewrite (Pos.mul_comm m).
  change (Pos.mul 4503599627370496 m) with (Pos.iter xO m 52).
  replace (xorb s false) with s by (by destruct s).
  unfold binary_round_aux, shr_fexp.
  unfold Zdigits2 at 1. rewrite digits2_pos_shift.
  replace (Z.pos (digits2_pos m) + 52 + (e + -52))
    with (Z.pos (digits2_pos m) + e) by lia.
  rewrite Hc.
  replace (e - (e + -52)) with 52 by lia.
  unfold shr at 1.
  change (shr_record_of_loc (Z.pos (Pos.iter xO m 52)) loc_Exact)
    with (Build_shr_record (Zpos (Pos.iter xO m 52)) false false).
  rewrite iter_shr_1_exact.
  cbn [shr_m loc_of_shr_record round_nearest_even].
  replace (e + -52 + 52) with e by lia.
  cbn [Zdigits2]. rewrite Hc. rewrite Z.sub_diag.
  cbn [shr shr_record_of_loc shr_m].
  destruct (Z.leb_spec e (emax - prec)); [done | lia].
Qed.

Lemma feq_refl (x : float) : x <> S754_nan -> feq x x = true.
Proof.
  destruct x as [s|s| |s m e]; intros Hx; try done.
  - by destruct s.
  - unfold feq, SFeqb, SFcompare.
    rewrite Z.compare_refl, Pos.compare_cont_refl. by destruct s.
Qed.

(** A coordinate of the curve at [t = 0]: weights 1, 0, 0. *)
Lemma bezier_coordinate_start (a b c : float) :
  valid_float a -> finite_float a -> finite_float b -> finite_float c ->
  feq (fadd (fadd (fmul a (float_lit 1)) (fmul b (S754_zero false)))
            (fmul c (S754_zero false))) a = true.
Proof.
  intros Hv Ha Hb Hc.
  destruct a as [sa|sa| |sa ma ea]; try done;
  destruct b as [sb|sb| |sb mb eb]; try done;
  destruct c as [sc|sc| |sc mc ec]; try done;
  try rewrite (fmul_one_r sa ma ea Hv);
  try (by destruct sa, sb, sc);
  cbn [fmul SFmul fadd SFadd xorb]; by apply feq_refl.
Qed.

(** A coordinate of the curve at [t = 1]: weights 0, 0, 1. *)
Lemma bezier_coordinate_end (a b c : float) :
  valid_float c -> finite_float a -> finite_float b -> finite_float c ->
  feq (fadd (fadd (fmul a (S754_zero false)) (fmul b (S754_zero false)))
            (fmul c (float_lit 1))) c = true.
Proof.
  intros Hv Ha Hb Hc.
  destruct a as [sa|sa| |sa ma ea]; try done;
  destruct b as [sb|sb| |sb mb eb]; try done;
  destruct c as [sc|sc| |sc mc ec]; try done;
  try rewrite (fmul_one_r sc mc ec Hv);
  try (by destruct sa, sb, sc);
  destruct sa, sb; cbn [fmul SFmul fadd SFadd xorb]; by apply feq_refl.
Qed.

(** X1. Bezier endpoint exactness: for finite control points,
    [quadratic_bezier(p0, p1, p2, 0) == p0] and
    [quadratic_bezier(p0, p1, p2, 1) == p2], in binary64 and with [==] the
    comparison of floats (under which the two zeros are equal). *)
Theorem quadratic_bezier_endpoints (p0 p1 p2 : Point) :
  finite_point p0 -> finite_point p1 -> finite_point p2 ->
  Point_eqb (quadratic_bezier p0 p1 p2 (float_lit 0)) p0 = true /\
  Point_eqb (quadratic_bezier p0 p1 p2 (float_lit 1)) p2 = true.
Proof.
  intros (Hv0x & Hv0y & Hf0x & Hf0y) (_ & _ & Hf1x & Hf1y)
         (Hv2x & Hv2y & Hf2x & Hf2y).
  split; unfold Point_eqb; apply andb_true_iff; split.
  - by apply (bezier_coordinate_start (pt_x p0) (pt_x p1) (pt_x p2)).
  - by apply (bezier_coordinate_start (pt_y p0) (pt_y p1) (pt_y p2)).
  - by apply (bezier_coordinate_end (pt_x p0) (pt_x p1) (pt_x p2)).
  - by apply (bezier_coordinate_end (pt_y p0) (pt_y p1) (pt_y p2)).
Qed.

Lemma quadratic_bezier_endpoints_witness :
  finite_point axis_p0 /\ finite_point axis_p1 /\ finite_point axis_p2 /\
  Point_eqb (quadratic_bezier axis_p0 axis_p1 axis_p2 (float_lit 0)) axis_p0 = true /\
  Point_eqb (quadratic_bezier axis_p0 axis_p1 axis_p2 (float_lit 1)) axis_p2 = true.
Proof.
  assert (finite_point axis_p0 /\ finite_point axis_p1 /\ finite_point axis_p2)
    as (H0 & H1 & H2) by (repeat split; vm_compute; reflexivity).
  split; [exact H0|]. split; [exact H1|]. split; [exact H2|].
  exact (quadratic_bezier_endpoints axis_p0 axis_p1 axis_p2 H0 H1 H2).
Defined.

(** A control point at infinity breaks the property: [inf * 0] is NaN. *)
Example quadratic_bezier_infinite_control :
  Point_eqb (quadratic_bezier axis_p0 (mkPoint (S754_infinity false) (float_lit 0))
                              axis_p2 (float_lit 0)) axis_p0 = false.
Proof. vm_compute. reflexivity. Qed.

(** ** Decomposition by segment count (core/geomtry.py) *)

(** X2. [decompose_quadratic_bezier] by the sign of [num_segments]: with at
    least one segment it returns [num_segments + 1] points, from the curve
    at [t = 0] to the curve at [t = 1]; with 0 segments it raises
    [ZeroDivisionError]; with a negative count it returns the empty list. *)
Theorem decompose_quadratic_bezier_cases (p0 p1 p2 : Point) (n : Z) :
  (1 <= n ->
   exists pts,
     decompose_quadratic_bezier p0 p1 p2 n = Ok pts /\
     length pts = Z.to_nat (n + 1) /\
     head pts = Some (quadratic_bezier p0 p1 p2 (float_lit 0)) /\
     last pts = Some (quadratic_bezier p0 p1 p2 (float_lit 1))) /\
  (n = 0 -> decompose_quadratic_bezier p0 p1 p2 n = Raise ZeroDivisionError) /\
  (n < 0 -> decompose_quadratic_bezier p0 p1 p2 n = Ok []).
Proof.
  split; [apply decompose_quadratic_bezier_endpoints|]. split.
  - intros ->. reflexivity.
  - intros Hn. unfold decompose_quadratic_bezier, range.
    by rewrite seqZ_nil by lia.
Qed.

Lemma decompose_quadratic_bezier_cases_witness :
  1 <= 2 /\
  exists pts,
    decompose_quadratic_bezier axis_p0 axis_p1 axis_p2 2 = Ok pts /\
    length pts = 3%nat /\
    head pts = Some (quadratic_bezier axis_p0 axis_p1 axis_p2 (float_lit 0)) /\
    last pts = Some (quadratic_bezier axis_p0 axis_p1 axis_p2 (float_lit 1)).
Proof.
  split; [lia|].
  apply (proj1 (decompose_quadratic_bezier_cases axis_p0 axis_p1 axis_p2 2)). lia.
Defined.

(** ** Editing a path (core/models.py) *)

(** X3. [remove_waypoint] with an index out of range leaves the path as it
    is; with an index in range it shortens the waypoint list by one.
    [add_waypoint] returns the index of the waypoint it appends, which is
    the former length. *)
Theorem add_remove_waypoint_length (p : Path) (x y : float) (index : Z) :
  (~ (0 <= index < Z.of_nat (length (waypoints p))) ->
     Path.remove_waypoint p index = p) /\
  (0 <= index < Z.of_nat (length (waypoints p)) ->
     S (length (waypoints (Path.remove_waypoint p index))) = length (waypoints p)) /\
  fst (Path.add_waypoint p x y) = Z.of_nat (length (waypoints p)) /\
  length (waypoints (snd (Path.add_waypoint p x y))) = S (length (waypoints p)).
Proof.
  split; [|split; [|split]].
  - intros Hout. unfold Path.remove_waypoint.
    destruct (Z.leb_spec 0 index), (Z.ltb_spec index (Z.of_nat (length (waypoints p))));
      cbn [andb]; (done || lia).
  - intros [Hlo Hhi]. unfold Path.remove_waypoint.
    destruct (Z.leb_spec 0 index); [|lia].
    destruct (Z.ltb_spec index (Z.of_nat (length (waypoints p)))); [|lia].
    cbn [andb].
    assert (S (length (delete (Z.to_nat index) (waypoints p))) = length (waypoints p))
      as Hdel.
    { pose proof (length_delete (waypoints p) (Z.to_nat index)) as Hl.
      rewrite Hl by (apply lookup_lt_is_Some_2; lia). lia. }
    destruct ((index =? 0) && (0 <? Z.of_nat (length (delete (Z.to_nat index) (waypoints p)))));
      cbn [waypoints set_waypoints]; [|done].
    by rewrite length_alter.
  - unfold Path.add_waypoint. cbn [fst]. rewrite length_app. cbn [length]. lia.
  - unfold Path.add_waypoint. cbn [snd waypoints set_waypoints].
    rewrite length_app. cbn [length]. lia.
Qed.

Lemma add_remove_waypoint_length_witness :
  ~ (0 <= 5 < Z.of_nat (length (waypoints scenario_path))) /\
  Path.remove_waypoint scenario_path 5 = scenario_path.
Proof.
  split; [cbn; lia|].
  apply (proj1 (add_remove_waypoint_length scenario_path fzero fzero 5)). cbn; lia.
Defined.

(** The concrete scenario of the specification: a path "Auto1" (RED,
    LEFT) that receives the waypoints (0, 0) and (-10, 24) has a START
    waypoint followed by a MOVE_TO_POSE one, both AUTO with no heading,
    and [is_valid_position(5, 5)] is false on it. *)
Example specification_scenario :
  let p := run_path_ops (Path_new "Auto1" RED LEFT)
             [AddWaypoint (float_lit 0) (float_lit 0);
              AddWaypoint (float_lit (-10)) (float_lit 24)] in
  waypoints p =
    [set_motion_type START (Waypoint_new (float_lit 0) (float_lit 0));
     Waypoint_new (float_lit (-10)) (float_lit 24)] /\
  Path.is_valid_position p (float_lit 5) (float_lit 5) = false /\
  Path.is_valid_position p (float_lit (-10)) (float_lit 24) = true.
Proof. split; [reflexivity | split; reflexivity]. Qed.

(** ** Documents (core/models.py) *)

Lemma enum_of_raises {E} (of_value : string -> py E) (v : pyval) (e : exn) :
  (forall s e', of_value s = Raise e' -> e' = ValueError) ->
  enum_of of_value v = Raise e -> e = ValueError.
Proof.
  intros Hof. destruct v; cbn; try (by intros [= <-]). apply Hof.
Qed.

Lemma HeadingMode_of_value_raises (s : string) (e : exn) :
  HeadingMode_of_value s = Raise e -> e = ValueError.
Proof. unfold HeadingMode_of_value. repeat case_decide; by intros [= <-]. Qed.

Lemma MotionType_of_value_raises (s : string) (e : exn) :
  MotionType_of_value s = Raise e -> e = ValueError.
Proof. unfold MotionType_of_value. repeat case_decide; by intros [= <-]. Qed.

Lemma mapM_as_str_raises (l : list pyval) (e : exn) :
  mapM as_str l = Raise e -> e = TypeError.
Proof.
  induction l as [|v l IH]; [done|]. cbn.
  destruct v; cbn; try (by intros [= <-]).
  destruct (mapM as_str l); cbn; [done|]. intros [= <-]. by apply IH.
Qed.

(** The typed reads of [Waypoint.from_dict], which come last, raise
    nothing but [TypeError]. *)
Lemma from_dict_typed_reads (data : pydict) (xv yv : pyval) (hm : HeadingMode)
    (mt : MotionType) (e : exn) :
  (x ← as_float xv;
   y ← as_float yv;
   h ← as_optional_float (dict_get data "heading" PyNone);
   rv ← as_bool (dict_get data "reverse" (PyBool false));
   it ← as_bool (dict_get data "intaking" (PyBool false));
   cv ← as_bool (dict_get data "conveyor" (PyBool false));
   ca ← as_list (dict_get data "commands_after" (PyList [])) ≫= mapM as_str;
   Ok {| wp_x := x; wp_y := y; heading := h; heading_mode := hm;
         motion_type := mt; reverse := rv; intaking := it; conveyor := cv;
         commands_after := ca |}) = Raise e ->
  e = TypeError.
Proof.
  destruct xv; cbn; try (by intros [= <-]).
  destruct yv; cbn; try (by intros [= <-]).
  destruct (dict_get data "heading" PyNone); cbn; try (by intros [= <-]).
  all: destruct (dict_get data "reverse" (PyBool false)); cbn; try (by intros [= <-]).
  all: destruct (dict_get data "intaking" (PyBool false)); cbn; try (by intros [= <-]).
  all: destruct (dict_get data "conveyor" (PyBool false)); cbn; try (by intros [= <-]).
  all: destruct (dict_get data "commands_after" (PyList [])); cbn; try (by intros [= <-]).
  all: destruct (mapM as_str l) eqn:Hl; cbn; try done.
  all: intros [= <-]; by eapply mapM_as_str_raises.
Qed.

(** X5. [Waypoint.from_dict] on the keys of a document, whatever the
    values it holds: it raises [KeyError] exactly when the document
    lacks ["x"] or ["y"]; it raises [ValueError] exactly when it holds
    both and the value of ["heading_mode"] or that of ["motion_type"]
    (["auto"] and ["moveToPose"] when absent) is not the value of a
    member of the enumeration; a document that holds just the two
    coordinates yields the waypoint with every other field at its
    default. *)
Theorem from_dict_required_and_defaults (data : pydict) (x y : float) :
  (Waypoint.from_dict data = Raise KeyError <->
     dict_lookup data "x" = None \/ dict_lookup data "y" = None) /\
  (Waypoint.from_dict data = Raise ValueError <->
     is_Some (dict_lookup data "x") /\ is_Some (dict_lookup data "y") /\
     (enum_of HeadingMode_of_value (dict_get data "heading_mode" (PyStr "auto"))
        = Raise ValueError \/
      enum_of MotionType_of_value (dict_get data "motion_type" (PyStr "moveToPose"))
        = Raise ValueError)) /\
  Waypoint.from_dict [("x", PyFloat x); ("y", PyFloat y)] = Ok (Waypoint_new x y).
Proof.
  split; [|split; [|reflexivity]].
  - unfold Waypoint.from_dict, getitem.
    destruct (dict_lookup data "x") as [xv|]; [|by split; [left|]].
    destruct (dict_lookup data "y") as [yv|]; [|by split; [right|]].
    cbn [mbind py_bind]. split; [|by intros [|]].
    intros H. exfalso.
    destruct (enum_of HeadingMode_of_value _) as [hm|e] eqn:Ehm; cbn [mbind py_bind] in H.
    2:{ injection H as ->.
        by apply (enum_of_raises _ _ _ HeadingMode_of_value_raises) in Ehm. }
    destruct (enum_of MotionType_of_value _) as [mt|e] eqn:Emt; cbn [mbind py_bind] in H.
    2:{ injection H as ->.
        by apply (enum_of_raises _ _ _ MotionType_of_value_raises) in Emt. }
    by apply from_dict_typed_reads in H.
  - unfold Waypoint.from_dict, getitem.
    destruct (dict_lookup data "x") as [xv|].
    2:{ split; [done|]. by intros ([? ?] & _). }
    destruct (dict_lookup data "y") as [yv|].
    2:{ split; [done|]. by intros (_ & [? ?] & _). }
    cbn [mbind py_bind].
    destruct (enum_of HeadingMode_of_value _) as [hm|e] eqn:Ehm; cbn [mbind py_bind].
    2:{ apply (enum_of_raises _ _ _ HeadingMode_of_value_raises) in Ehm as ->.
        split; [|done]. intros _. split; [done|]. split; [done|]. by left. }
    destruct (enum_of MotionType_of_value _) as [mt|e] eqn:Emt; cbn [mbind py_bind].
    2:{ apply (enum_of_raises _ _ _ MotionType_of_value_raises) in Emt as ->.
        split; [|done]. intros _. split; [done|]. split; [done|]. by right. }
    split.
    + intros H. by apply from_dict_typed_reads in H.
    + by intros (_ & _ & [|]).
Qed.

Lemma from_dict_required_and_defaults_witness :
  (dict_lookup [("x", PyStr "left"); ("heading_mode", PyStr "fixed")] "x" = None \/
   dict_lookup [("x", PyStr "left"); ("heading_mode", PyStr "fixed")] "y" = None) /\
  Waypoint.from_dict [("x", PyStr "left"); ("heading_mode", PyStr "fixed")]
    = Raise KeyError.
Proof.
  split; [right; reflexivity|].
  apply (proj1 (from_dict_required_and_defaults
                  [("x", PyStr "left"); ("heading_mode", PyStr "fixed")] fzero fzero)).
  right. reflexivity.
Defined.

(** ** The undo engine as a state machine (core/undo.py) *)

Section UndoMachine.
Context {State : Type} (deepcopy : State -> State).

(** X6. What [save_state] leaves behind, for a capacity of at least 1: the
    new snapshot, a deep copy of the state with its description, is the
    top of [undo_stack]; [redo_stack] is empty, so that nothing can be
    redone; one round of notifications has run. *)
Theorem save_state_postcondition (m : UndoManager State) (st : State) (descr : string) :
  1 <= max_history m ->
  exists m',
    save_state deepcopy m st descr = Ok m' /\
    last (undo_stack m') = Some (mkUndoState descr (deepcopy st)) /\
    redo_stack m' = [] /\
    can_redo m' = false /\
    max_history m' = max_history m /\
    notified m' = S (notified m).
Proof.
  intros Hb. eexists. split; [apply save_state_drop; lia|].
  cbn [undo_stack redo_stack max_history notified]. repeat split.
  set (k := (S (length (undo_stack m)) - Z.to_nat (max_history m))%nat).
  assert (k <= length (undo_stack m))%nat as Hk by lia.
  rewrite drop_app_le by done. apply last_snoc.
Qed.

Lemma snoc_decompose {A} (l : list A) :
  l <> [] -> exists rest x, l = rest ++ [x].
Proof.
  intros Hne. destruct l as [|x rest _] using rev_ind; [done|]. by exists rest, x.
Qed.

Lemma redo_invalid (m : UndoManager State) :
  redo_stack m = [] -> redo deepcopy m = Ok (None, m).
Proof. intros Hr. unfold redo, can_redo. by rewrite Hr. Qed.

(** X7. [redo()] is valid only when [redo_stack] is not empty: on an empty
    [redo_stack] it returns [None] and changes nothing; otherwise it moves
    the top entry of [redo_stack] back onto [undo_stack] and returns a deep
    copy of the state of that entry. *)
Theorem redo_spec (m : UndoManager State) :
  (redo_stack m = [] -> redo deepcopy m = Ok (None, m)) /\
  (redo_stack m <> [] ->
     exists rest st,
       redo_stack m = rest ++ [st] /\
       redo deepcopy m =
         Ok (Some (deepcopy (state st)),
             mkUndoManager (max_history m) (undo_stack m ++ [st]) rest
                           (S (notified m)))).
Proof.
  split; [apply redo_invalid|].
  intros Hne. destruct (snoc_decompose _ Hne) as (rest & st & Hr).
  exists rest, st. split; [done|]. by apply redo_valid.
Qed.

Lemma run_undo_op_within_capacity (m : UndoManager State) (op : undo_op State) :
  history_within_capacity m ->
  exists m', run_undo_op deepcopy m op = Ok m' /\
             max_history m' = max_history m /\
             history_within_capacity m'.
Proof.
  unfold history_within_capacity. intros [Hb Hlen].
  destruct op as [st descr| | |]; cbn [run_undo_op].
  - eexists. split; [by apply save_state_drop|].
    cbn [max_history undo_stack redo_stack]. repeat split; [done|].
    rewrite length_drop, length_app. cbn [length]. lia.
  - destruct (decide (length (undo_stack m) < 2)%nat) as [Hs|Hs].
    + exists m. by rewrite undo_invalid by done.
    + destruct (snoc2_decompose (undo_stack m)) as (older & prev & cur & Hu); [lia|].
      eexists. rewrite (undo_valid deepcopy m older prev cur Hu).
      split; [reflexivity|].
      cbn [snd max_history undo_stack redo_stack]. repeat split; [done|].
      rewrite Hu in Hlen. rewrite !length_app in *. cbn [length] in *. lia.
  - destruct (decide (redo_stack m = [])) as [Hr|Hr].
    + exists m. by rewrite redo_invalid by done.
    + destruct (snoc_decompose _ Hr) as (rest & st & Hrs).
      eexists. rewrite (redo_valid deepcopy m rest st Hrs).
      split; [reflexivity|].
      cbn [snd max_history undo_stack redo_stack]. repeat split; [done|].
      rewrite Hrs in Hlen. rewrite !length_app in *. cbn [length] in *. lia.
  - eexists. split; [reflexivity|].
    cbn [clear notify_change max_history undo_stack redo_stack length].
    repeat split; [done | lia].
Qed.

(** X8. The bound on the history holds under every operation, not only
    under [save_state]: from a new manager with capacity
    [max_history >= 0], any sequence of [save_state], [undo], [redo] and
    [clear] calls runs without an exception, and afterwards [undo_stack]
    and [redo_stack] together hold at most [max_history] entries. *)
Theorem history_bounded_under_all_operations (capacity : Z)
    (ops : list (undo_op State)) :
  0 <= capacity ->
  exists m',
    run_undo_ops deepcopy (UndoManager_new capacity) ops = Ok m' /\
    Z.of_nat (length (undo_stack m')) + Z.of_nat (length (redo_stack m'))
      <= capacity.
Proof.
  intros Hb.
  assert (forall (m : UndoManager State),
            history_within_capacity m ->
            exists m', run_undo_ops deepcopy m ops = Ok m' /\
                       max_history m' = max_history m /\
                       history_within_capacity m') as Hrun.
  { induction ops as [|op ops IH]; intros m Hm.
    - by exists m.
    - destruct (run_undo_op_within_capacity m op Hm) as (m1 & Hop & Hmax1 & Hm1).
      destruct (IH m1 Hm1) as (m' & Hr & Hmax & Hm').
      exists m'. cbn [run_undo_ops]. rewrite Hop. cbn.
      split; [done|]. split; [congruence | done]. }
  destruct (Hrun (UndoManager_new capacity)) as (m' & Hr & Hmax & _ & Hlen).
  { split; cbn; lia. }
  exists m'. split; [done|]. rewrite Hmax in Hlen. cbn in Hlen. lia.
Qed.

End UndoMachine.

Lemma save_state_postcondition_witness :
  1 <= max_history (UndoManager_new (State := Z) 2) /\
  exists m',
    save_state (fun s : Z => s) (UndoManager_new 2) 10 "a" = Ok m' /\
    last (undo_stack m') = Some (mkUndoState "a" 10) /\
    redo_stack m' = [] /\
    can_redo m' = false /\
    max_history m' = 2 /\
    notified m' = 1%nat.
Proof.
  split; [cbn; lia|].
  apply (save_state_postcondition (fun s : Z => s) (UndoManager_new 2) 10 "a").
  cbn; lia.
Defined.

(** With a capacity of 0 nothing is kept: the snapshot is dropped by the
    [save_state] that takes it. *)
Example save_state_capacity_0 :
  undo_stack <$> save_state (fun s : Z => s) (UndoManager_new 0) 10 "a" = Ok [].
Proof. reflexivity. Qed.

Lemma redo_spec_witness :
  redo_stack (mkUndoManager 50 [mkUndoState "a" 10] [mkUndoState "b" 20] 3) <> [] /\
  exists rest st,
    redo_stack (mkUndoManager 50 [mkUndoState "a" 10] [mkUndoState "b" 20] 3)
      = rest ++ [st] /\
    redo (fun s : Z => s) (mkUndoManager 50 [mkUndoState "a" 10] [mkUndoState "b" 20] 3)
      = Ok (Some (state st),
            mkUndoManager 50 ([mkUndoState "a" 10] ++ [st]) rest 4).
Proof.
  split; [discriminate|].
  apply (proj2 (redo_spec (fun s : Z => s)
                  (mkUndoManager 50 [mkUndoState "a" 10] [mkUndoState "b" 20] 3))).
  discriminate.
Defined.

Lemma history_bounded_under_all_operations_witness :
  0 <= 1 /\
  exists m',
    run_undo_ops (fun s : Z => s) (UndoManager_new 1)
                 [OpSave 10 "a"; OpSave 20 "b"; OpUndo; OpRedo; OpSave 30 "c"; OpClear]
      = Ok m' /\
    Z.of_nat (length (undo_stack m')) + Z.of_nat (length (redo_stack m')) <= 1.
Proof.
  split; [lia|].
  apply (history_bounded_under_all_operations (fun s : Z => s) 1
           [OpSave 10 "a"; OpSave 20 "b"; OpUndo; OpRedo; OpSave 30 "c"; OpClear]).
  lia.
Defined.

(** ** The orientation of the canvas (core/coordinates.py) *)

Lemma fmul_zero_nonzero (z s : float) :
  (exists sz, z = S754_zero sz) -> nonzero_float s -> feq (fmul z s) fzero = true.
Proof. intros [sz ->] Hs. by destruct s as [| | |ss m e]. Qed.



(** On the canvas of the application the bottom-right corner is the
    canvas point (600.0, 600.0). *)
Example canvas_corner_600 :
  (cs ← CoordinateSystem_new 600;
   Ok (field_to_canvas cs (float_lit 72) (float_lit (-72))))
  = Ok (float_lit 600, float_lit 600).
Proof. vm_compute. reflexivity. Qed.

(** ** Angle normalisation (core/geomtry.py) *)

(** On the input on which [calculate_heading] returns 360, the sibling
    [normalize_angle] returns 0: its first loop produces 360 as well, and
    its second loop, which [calculate_heading] has not, takes it off. *)
Example normalize_angle_tiny_left :
  normalize_angle 2 (math_degrees tiny_left) = Some (float_lit 0).
Proof. vm_compute. reflexivity. Qed.

(** ** Float toolkit *)

Lemma binary_round_aux_sign (s : bool) (m e : Z) (l : location) :
  match binary_round_aux prec emax s m e l with
  | S754_zero s' | S754_finite s' _ _ | S754_infinity s' => s' = s
  | S754_nan => True
  end.
Proof.
  unfold binary_round_aux.
  destruct (shr_fexp prec emax m e l) as [mrs' e'].
  destruct (shr_fexp prec emax _ e' loc_Exact) as [mrs'' e''].
  destruct (shr_m mrs''); [done | | done].
  by destruct (e'' <=? emax - prec).
Qed.

Lemma binary_round_aux_opp (s : bool) (m e : Z) (l : location) :
  binary_round_aux prec emax (negb s) m e l = SFopp (binary_round_aux prec emax s m e l).
Proof.
  unfold binary_round_aux.
  destruct (shr_fexp prec emax m e l) as [mrs' e'].
  destruct (shr_fexp prec emax _ e' loc_Exact) as [mrs'' e''].
  destruct (shr_m mrs''); [done | | done].
  by destruct (e'' <=? emax - prec).
Qed.

Lemma binary_round_sign (s : bool) (m : positive) (e : Z) :
  match binary_round prec emax s m e with
  | S754_zero s' | S754_finite s' _ _ | S754_infinity s' => s' = s
  | S754_nan => True
  end.
Proof.
  unfold binary_round. destruct (shl_align m e _) as [mz ez].
  apply binary_round_aux_sign.
Qed.

Lemma binary_round_opp (s : bool) (m : positive) (e : Z) :
  binary_round prec emax (negb s) m e = SFopp (binary_round prec emax s m e).
Proof.
  unfold binary_round. destruct (shl_align m e _) as [mz ez].
  apply binary_round_aux_opp.
Qed.

Lemma binary_normalize_opp (m e : Z) :
  m <> 0 ->
  binary_normalize prec emax (- m) e false = SFopp (binary_normalize prec emax m e false).
Proof.
  intros Hm. destruct m as [|p|p]; [done | |].
  - apply (binary_round_opp false).
  - change (binary_round prec emax false p e = SFopp (binary_round prec emax true p e)).
    rewrite (binary_round_opp false). by destruct (binary_round _ _ _ _ _) as [[]|[]| |[]].
Qed.

Lemma fsub_diag (x : float) : finite_float x -> fsub x x = fzero.
Proof.
  destruct x as [[]|[]| |s m e]; try done. intros _.
  unfold fsub. cbn [SFsub]. by rewrite Z.sub_diag.
Qed.

Lemma fsub_swap (a b : float) : opposite_or_zeros (fsub a b) (fsub b a).
Proof.
  unfold opposite_or_zeros, fsub.
  destruct a as [sa|sa| |sa ma ea], b as [sb|sb| |sb mb eb]; cbn [SFsub SFopp];
    try (left; reflexivity);
    try (destruct sa, sb; cbn; (by left) || (right; by eexists _, _)); 
    try (destruct sa; by left); try (destruct sb; by left).
  rewrite (Z.min_comm eb ea).
  set (A := cond_Zopp sa _). set (B := cond_Zopp sb _).
  replace (B - A) with (- (A - B)) by lia.
  destruct (Z.eq_dec (A - B) 0) as [-> | Hne].
  - right. by eexists _, _.
  - left. by apply binary_normalize_opp.
Qed.

Lemma shr_1_nonneg (mrs : shr_record) : 0 <= shr_m mrs -> 0 <= shr_m (shr_1 mrs).
Proof. destruct mrs as [[|[p|p|]|[p|p|]] r s]; cbn; lia. Qed.

Lemma iter_pos_preserves {A} (P : A -> Prop) (f : A -> A) :
  (forall x, P x -> P (f x)) ->
  forall (p : positive) (x : A), P x -> P (SpecFloat.iter_pos f p x).
Proof.
  intros Hf. induction p as [p IH|p IH|]; intros x Hx; cbn [SpecFloat.iter_pos]; auto.
Qed.

Lemma shr_fexp_nonneg (m e : Z) (l : location) :
  0 <= m -> 0 <= shr_m (fst (shr_fexp prec emax m e l)).
Proof.
  intros Hm. unfold shr_fexp, shr.
  assert (0 <= shr_m (shr_record_of_loc m l)) as H0 by (by destruct l as [|[]]).
  destruct (_ - e) as [|p|p]; cbn [fst]; try done.
  by apply (iter_pos_preserves (fun mrs => 0 <= shr_m mrs) shr_1 shr_1_nonneg).
Qed.

Lemma binary_round_aux_not_nan (s : bool) (m e : Z) (l : location) :
  0 <= m -> binary_round_aux prec emax s m e l <> S754_nan.
Proof.
  intros Hm. unfold binary_round_aux.
  pose proof (shr_fexp_nonneg m e l Hm) as H1.
  destruct (shr_fexp prec emax m e l) as [mrs' e']. cbn [fst] in H1.
  assert (0 <= round_nearest_even (shr_m mrs') (loc_of_shr_record mrs')) as H2.
  { unfold round_nearest_even.
    destruct (loc_of_shr_record mrs') as [|[]]; try destruct (Z.even _); lia. }
  pose proof (shr_fexp_nonneg _ e' loc_Exact H2) as H3.
  destruct (shr_fexp prec emax _ e' loc_Exact) as [mrs'' e'']. cbn [fst] in H3.
  destruct (shr_m mrs''); [done | | lia].
  by destruct (e'' <=? emax - prec).
Qed.


Lemma float_pow_raises (c_pow : float -> float -> float) (x : float) (k : Z) (e : exn) :
  float_pow c_pow x k = Raise e -> e = OverflowError.
Proof.
  unfold float_pow. destruct x as [s|s| |s m ex]; try done.
  destruct (feq _ _); [done|].
  destruct (c_pow _ _); by intros [= <-].
Qed.

(** The square is that of the magnitude: [x ** 2] and [(-x) ** 2] are
    one computation. *)
Lemma float_pow_2_opposite (c_pow : float -> float -> float) (x y : float) :
  opposite_or_zeros x y -> float_pow c_pow x 2 = float_pow c_pow y 2.
Proof.
  intros [-> | (s & s' & -> & ->)].
  - destruct x as [[]|[]| |[] m e]; reflexivity.
  - reflexivity.
Qed.

Lemma float_pow_2_fsub_swap (c_pow : float -> float -> float) (a b : float) :
  float_pow c_pow (fsub a b) 2 = float_pow c_pow (fsub b a) 2.
Proof. apply float_pow_2_opposite, fsub_swap. Qed.

Lemma float_pow_2_sign_clear (c_pow : float -> float -> float) (x v : float) :
  square_not_negative c_pow -> float_pow c_pow x 2 = Ok v -> sign_clear v.
Proof.
  intros Hpow. unfold float_pow. destruct x as [s|s| |s m e].
  - intros [= <-]. done.
  - intros [= <-]. done.
  - intros [= <-]. done.
  - change (Z.odd 2) with false. rewrite andb_false_r. cbn [SFabs].
    destruct (feq _ _); [intros [= <-]; done|].
    specialize (Hpow m e).
    destruct (c_pow _ _); intros H; try discriminate; injection H as <-; done.
Qed.

Lemma float_pow_2_finite (c_pow : float -> float -> float) (x v : float) :
  square_not_negative c_pow ->
  finite_float x -> float_pow c_pow x 2 = Ok v -> square_like v.
Proof.
  intros Hpow. unfold float_pow. destruct x as [s|s| |s m e]; try done; intros _.
  - intros [= <-]. done.
  - change (Z.odd 2) with false. rewrite andb_false_r. cbn [SFabs].
    destruct (feq _ _); [intros [= <-]; done|].
    specialize (Hpow m e).
    destruct (c_pow _ _); intros H; try discriminate; injection H as <-; done.
Qed.

(** The stand-in of the closed examples is such a [pow]. *)
Lemma pow_stand_in_square_not_negative : square_not_negative pow_stand_in.
Proof.
  intros m e. unfold pow_stand_in.
  change (feq (float_lit 2) (float_lit 2)) with true. cbv iota.
  unfold fmul. cbn [SFmul xorb].
  pose proof (binary_round_aux_sign false (Z.pos (m * m)) (e + e) loc_Exact) as Hs.
  pose proof (binary_round_aux_not_nan false (Z.pos (m * m)) (e + e) loc_Exact
                ltac:(lia)) as Hn.
  by destruct (binary_round_aux _ _ _ _ _ _).
Qed.

Lemma fadd_sign_clear (a b : float) :
  sign_clear a -> sign_clear b -> sign_clear (fadd a b).
Proof.
  unfold fadd.
  destruct a as [sa|sa| |sa ma ea], b as [sb|sb| |sb mb eb]; cbn [sign_clear];
    try done; intros -> ->; try done.
  cbn [SFadd cond_Zopp].
  set (A := fst (shl_align ma _ _)). set (B := fst (shl_align mb _ _)).
  change (Z.pos A + Z.pos B) with (Z.pos (A + B)). cbn [binary_normalize].
  pose proof (binary_round_sign false (A + B) (ea `min` eb)) as Hs.
  by destruct (binary_round _ _ _ _ _).
Qed.

Lemma math_sqrt_sign_clear (x : float) :
  sign_clear x -> math_sqrt x = Ok (SFsqrt prec emax x) /\ sign_clear (SFsqrt prec emax x).
Proof.
  destruct x as [s|s| |s m e]; cbn [sign_clear]; try done; intros ->; try done.
  split; [done|]. cbn [SFsqrt].
  destruct (SFsqrt_core_binary _ _ _ _) as [[mz ez] lz].
  pose proof (binary_round_aux_sign false mz ez lz) as Hs.
  by destruct (binary_round_aux _ _ _ _ _ _).
Qed.

Lemma sign_clear_not_negative (x : float) : sign_clear x -> flt x fzero = false.
Proof. destruct x as [s|s| |s m e]; cbn [sign_clear]; try done; by intros ->. Qed.

Section DistanceProperties.
(** The C library's [pow]. *)
Variable c_pow : float -> float -> float.

Lemma distance_to_cases (p q : Point) :
  square_not_negative c_pow ->
  (exists d, distance_to c_pow p q = Ok d /\ sign_clear d) \/
  distance_to c_pow p q = Raise OverflowError.
Proof.
  intros c_pow_square. unfold distance_to.
  destruct (float_pow c_pow (fsub (pt_x p) (pt_x q)) 2) as [sx|e] eqn:Ex.
  2:{ right. apply float_pow_raises in Ex as ->. done. }
  destruct (float_pow c_pow (fsub (pt_y p) (pt_y q)) 2) as [sy|e] eqn:Ey.
  2:{ right. apply float_pow_raises in Ey as ->. done. }
  left. cbn.
  destruct (math_sqrt_sign_clear (fadd sx sy)) as [-> Hs].
  { apply fadd_sign_clear; by eapply float_pow_2_sign_clear. }
  by eexists.
Qed.

Lemma distance_to_sym (p q : Point) : distance_to c_pow p q = distance_to c_pow q p.
Proof.
  unfold distance_to.
  by rewrite (float_pow_2_fsub_swap c_pow (pt_x p)),
             (float_pow_2_fsub_swap c_pow (pt_y p)).
Qed.

Lemma distance_to_self (p : Point) :
  finite_float (pt_x p) -> finite_float (pt_y p) -> distance_to c_pow p p = Ok fzero.
Proof.
  intros Hx Hy. unfold distance_to. by rewrite !fsub_diag.
Qed.

(** X11. Whatever the C library's [pow], [Point.distance_to] is symmetric
    (in its result and in its exceptions), is [0.0] from a finite point
    to itself, and [calculate_distance] of core/coordinates.py computes
    the same function.  With a [pow] whose square of a positive number is
    neither negative nor a NaN, it never returns a negative number and
    raises nothing but [OverflowError]. *)
Theorem distance_to_semimetric (p q : Point) :
  distance_to c_pow p q = distance_to c_pow q p /\
  (finite_float (pt_x p) -> finite_float (pt_y p) -> distance_to c_pow p p = Ok fzero) /\
  calculate_distance c_pow (pt_x p) (pt_y p) (pt_x q) (pt_y q) = distance_to c_pow p q /\
  (square_not_negative c_pow ->
   (forall d, distance_to c_pow p q = Ok d -> flt d fzero = false) /\
   (forall e, distance_to c_pow p q = Raise e -> e = OverflowError)).
Proof.
  split; [apply distance_to_sym|].
  split; [apply distance_to_self|].
  split; [rewrite distance_to_sym; reflexivity|].
  intros Hpow. split.
  - intros d Hd. destruct (distance_to_cases p q Hpow) as [(d' & Hd' & Hs) | Hr];
      [|congruence].
    rewrite Hd in Hd'. injection Hd' as <-. by apply sign_clear_not_negative.
  - intros e He. destruct (distance_to_cases p q Hpow) as [(d' & Hd' & Hs) | Hr];
      congruence.
Qed.

End DistanceProperties.
Lemma distance_to_semimetric_witness :
  square_not_negative pow_stand_in /\
  (forall e, distance_to pow_stand_in axis_p1 axis_p2 = Raise e -> e = OverflowError).
Proof.
  split; [exact pow_stand_in_square_not_negative|].
  apply (proj2 (proj2 (proj2 (distance_to_semimetric pow_stand_in axis_p1 axis_p2)))
               pow_stand_in_square_not_negative).
Defined.

(** ** Curve length (core/geomtry.py) *)

Lemma list_getitem_lookup {A} (l : list A) (i : nat) (x : A) :
  l !! i = Some x -> list_getitem l (Z.of_nat i) = Ok x.
Proof.
  intros Hx. pose proof (lookup_lt_Some _ _ _ Hx) as Hlt.
  unfold list_getitem, list_index.
  destruct (Z.leb_spec 0 (Z.of_nat i)); [|lia].
  destruct (Z.ltb_spec (Z.of_nat i) (Z.of_nat (length l))); [|lia].
  cbn. by rewrite Nat2Z.id, Hx.
Qed.

Section CurveLength.
(** The C library's [pow]. *)
Variable c_pow : float -> float -> float.

Lemma estimate_loop_from (pre : list Point) : forall (rest : list Point) (total : float),
  rest <> [] ->
  fold_py (fun total i =>
             p ← list_getitem (pre ++ rest) i;
             q ← list_getitem (pre ++ rest) (i + 1);
             d ← distance_to c_pow p q;
             Ok (fadd total d))
          total (seqZ (Z.of_nat (length pre)) (Z.of_nat (length rest) - 1))
  = curve_length_from c_pow total rest.
Proof.
  intros rest. revert pre.
  induction rest as [|p rest IH]; intros pre total Hne; [done|].
  destruct rest as [|q rest].
  { reflexivity. }
  cbn [length].
  replace (Z.of_nat (S (S (length rest))) - 1) with (Z.succ (Z.of_nat (length rest))) by lia.
  rewrite seqZ_cons by lia. cbn [fold_py].
  rewrite (list_getitem_lookup _ (length pre) p).
  2:{ by rewrite lookup_app_r, Nat.sub_diag by lia. }
  replace (Z.of_nat (length pre) + 1) with (Z.of_nat (S (length pre))) by lia.
  rewrite (list_getitem_lookup _ (S (length pre)) q).
  2:{ rewrite lookup_app_r by lia.
      by replace (S (length pre) - length pre)%nat with 1%nat by lia. }
  cbn [curve_length_from]. cbn.
  destruct (distance_to c_pow p q) as [d|e]; [|done]. cbn.
  specialize (IH (pre ++ [p]) (fadd total d)).
  rewrite <- app_assoc in IH. cbn [app] in IH.
  rewrite length_app in IH. cbn [length] in IH.
  replace (Z.succ (Z.of_nat (length pre))) with (Z.of_nat (length pre + 1)) by lia.
  replace (Z.pred (Z.succ (Z.of_nat (length rest))))
    with (Z.of_nat (S (length rest)) - 1) by lia.
  by apply IH.
Qed.

Lemma estimate_curve_length_rec (points : list Point) :
  estimate_curve_length c_pow points = curve_length_from c_pow fzero points.
Proof.
  unfold estimate_curve_length.
  destruct (Z.ltb_spec (Z.of_nat (length points)) 2) as [Hlt | Hge].
  - destruct points as [|p [|q rest]]; [done | done | cbn in Hlt; lia].
  - apply (estimate_loop_from [] points fzero). by destruct points.
Qed.

Lemma curve_length_from_snoc (p q : Point) : forall (l : list Point) (total : float),
  curve_length_from c_pow total (l ++ [p; q]) =
    t ← curve_length_from c_pow total (l ++ [p]); d ← distance_to c_pow p q; Ok (fadd t d).
Proof.
  induction l as [|a l IH]; intros total.
  - cbn. by destruct (distance_to c_pow p q).
  - destruct l as [|b l].
    + cbn. destruct (distance_to c_pow a p); [|done]. cbn. by destruct (distance_to c_pow p q).
    + change (curve_length_from c_pow total ((a :: b :: l) ++ [p; q]))
        with (d ← distance_to c_pow a b; curve_length_from c_pow (fadd total d) ((b :: l) ++ [p; q])).
      change (curve_length_from c_pow total ((a :: b :: l) ++ [p]))
        with (d ← distance_to c_pow a b; curve_length_from c_pow (fadd total d) ((b :: l) ++ [p])).
      destruct (distance_to c_pow a b) as [d|e]; [|done]. cbn [mbind py_bind].
      apply IH.
Qed.

Lemma fadd_zero_l (d : float) : sign_clear d -> fadd fzero d = d.
Proof. destruct d as [s|s| |s m e]; cbn [sign_clear]; try done; by intros ->. Qed.

(** X12. [estimate_curve_length], whatever the C library's [pow]: fewer
    than two points have length [0.0]; a further point adds the length of
    the last segment to the estimate of the points before it (an
    exception of an earlier segment comes first).  With a [pow] whose
    square of a positive number is neither negative nor a NaN,
    [adaptive_decompose_quadratic] takes as its rough length exactly the
    estimate of the control polygon. *)
Theorem estimate_curve_length_spec :
  (forall points,
     (length points < 2)%nat -> estimate_curve_length c_pow points = Ok fzero) /\
  (forall l p q,
     estimate_curve_length c_pow (l ++ [p; q]) =
       t ← estimate_curve_length c_pow (l ++ [p]);
       d ← distance_to c_pow p q;
       Ok (fadd t d)) /\
  (square_not_negative c_pow ->
   forall p0 p1 p2 msl mn mx,
     adaptive_decompose_quadratic c_pow p0 p1 p2 msl mn mx =
       rough_length ← estimate_curve_length c_pow [p0; p1; p2];
       q ← truediv rough_length msl;
       n ← int_of_float q;
       decompose_quadratic_bezier p0 p1 p2 (Z.max mn (Z.min mx n))).
Proof.
  split; [|split].
  - intros [|p [|q rest]] Hlen; [done | done | cbn in Hlen; lia].
  - intros l p q. rewrite !estimate_curve_length_rec. apply curve_length_from_snoc.
  - intros Hpow p0 p1 p2 msl mn mx. rewrite estimate_curve_length_rec.
    unfold adaptive_decompose_quadratic. cbn [curve_length_from].
    destruct (distance_to_cases c_pow p0 p1 Hpow) as [(d01 & -> & Hs) | ->]; [|done].
    cbn [mbind py_bind]. rewrite (fadd_zero_l d01 Hs).
    by destruct (distance_to c_pow p1 p2).
Qed.

End CurveLength.

Lemma estimate_curve_length_spec_witness :
  (length [axis_p0] < 2)%nat /\ estimate_curve_length pow_stand_in [axis_p0] = Ok fzero.
Proof.
  split; [cbn; lia|].
  apply (proj1 (estimate_curve_length_spec pow_stand_in)). cbn; lia.
Defined.

(** With exact squares the control polygon (0, 0), (0, 14), (0, 28) has
    length 28. *)
Example estimate_curve_length_axis :
  estimate_curve_length pow_stand_in [axis_p0; axis_p1; axis_p2] = Ok (float_lit 28).
Proof. vm_compute. reflexivity. Qed.

(** ** Interpolation (core/geomtry.py) *)

Lemma feq_fadd_zero (a z : float) :
  finite_float a -> (exists s, z = S754_zero s) -> feq (fadd a z) a = true.
Proof.
  intros Ha [s ->]. destruct a as [sa|sa| |sa ma ea]; try done.
  - by destruct sa, s.
  - cbn [fadd SFadd]. apply feq_refl. done.
Qed.

Lemma fmul_zero_r (x : float) (s : bool) :
  finite_float x -> exists s', fmul x (S754_zero s) = S754_zero s'.
Proof. destruct x as [sx|sx| |sx mx ex]; try done; intros _; by eexists. Qed.

Lemma fmul_zero_l (x : float) (s : bool) :
  finite_float x -> exists s', fmul (S754_zero s) x = S754_zero s'.
Proof. destruct x as [sx|sx| |sx mx ex]; try done; intros _; by eexists. Qed.

(** X13. [lerp] at its edges: at [t = 0.0] it returns [a] (a number equal
    to it) whenever [a] and [b - a] are finite, and between equal finite
    endpoints it returns that endpoint for every finite [t];
    [lerp_point] does so in both coordinates. *)
Theorem lerp_edges (a b t : float) (p1 p2 : Point) :
  (finite_float a -> finite_float (fsub b a) -> feq (lerp a b fzero) a = true) /\
  (finite_float a -> finite_float t -> feq (lerp a a t) a = true) /\
  (finite_float (pt_x p1) -> finite_float (pt_y p1) ->
   finite_float (fsub (pt_x p2) (pt_x p1)) -> finite_float (fsub (pt_y p2) (pt_y p1)) ->
   Point_eqb (lerp_point p1 p2 fzero) p1 = true).
Proof.
  assert (forall a b, finite_float a -> finite_float (fsub b a) ->
                      feq (lerp a b fzero) a = true) as Hzero.
  { intros a' b' Ha Hd. unfold lerp. apply feq_fadd_zero; [done|].
    by apply fmul_zero_r. }
  split; [apply Hzero|]. split.
  - intros Ha Ht. unfold lerp. apply feq_fadd_zero; [done|].
    rewrite fsub_diag by done. by apply fmul_zero_l.
  - intros Hx Hy Hdx Hdy. unfold Point_eqb, lerp_point. cbn [pt_x pt_y].
    by rewrite !Hzero.
Qed.

Lemma lerp_edges_witness :
  finite_float (float_lit 3) /\ finite_float (fsub (float_lit 7) (float_lit 3)) /\
  feq (lerp (float_lit 3) (float_lit 7) fzero) (float_lit 3) = true.
Proof.
  split; [exact I|]. split; [exact I|].
  apply (proj1 (lerp_edges (float_lit 3) (float_lit 7) fzero axis_p0 axis_p1)); exact I.
Defined.

(** At [t = 1.0] the other endpoint need not come out: between [1e16]
    and [1.0] the difference is rounded, and [lerp] returns [0.0]. *)
Example lerp_at_1_misses_endpoint :
  lerp (float_lit (10 ^ 16)) (float_lit 1) (float_lit 1) = fzero.
Proof. vm_compute. reflexivity. Qed.

(** ** Side restriction (core/models.py) *)



(** ** Angles (core/geomtry.py) *)

Lemma add_360_while_negative_absorbing (a : float) :
  flt a (float_lit 0) = true -> fadd a (float_lit 360) = a ->
  forall fuel, add_360_while_negative fuel a = None.
Proof.
  intros Hneg Habs fuel. induction fuel as [|fuel IH].
  - cbn [add_360_while_negative]. by rewrite Hneg.
  - cbn [add_360_while_negative]. by rewrite Hneg, Habs.
Qed.

Lemma sub_360_while_large_absorbing (a : float) :
  SFleb (float_lit 360) a = true -> fsub a (float_lit 360) = a ->
  forall fuel, sub_360_while_large fuel a = None.
Proof.
  intros Hbig Habs fuel. induction fuel as [|fuel IH].
  - cbn [sub_360_while_large]. by rewrite Hbig.
  - cbn [sub_360_while_large]. by rewrite Hbig, Habs.
Qed.

Lemma add_360_while_negative_exit (a : float) (fuel : nat) :
  flt a (float_lit 0) = false -> add_360_while_negative fuel a = Some a.
Proof. intros Hneg. destruct fuel; cbn [add_360_while_negative]; by rewrite Hneg. Qed.

Lemma normalize_angle_never_returns (a : float) :
  absorbs_360 a ->
  forall fuel, normalize_angle fuel a = None.
Proof.
  intros [[Hneg Habs] | (Hpos & Hbig & Habs)] fuel; unfold normalize_angle.
  - by rewrite add_360_while_negative_absorbing.
  - rewrite add_360_while_negative_exit by done. cbn.
    by apply sub_360_while_large_absorbing.
Qed.

(** X10. [normalize_angle] does not return on an angle that adding or
    subtracting 360 leaves unchanged: a negative [a] with [a + 360 == a]
    keeps its first loop running, an [a >= 360] with [a - 360 == a] its
    second, whatever the number of iterations allowed.  Such angles are
    the two infinities and the numbers of great magnitude, [-1e300]
    among them; [angle_difference], which normalises both its
    arguments, does not return either when one of them is such an
    angle.  A NaN is returned at once. *)
Theorem normalize_angle_absorbing (a b : float) :
  (absorbs_360 a ->
   forall fuel, normalize_angle fuel a = None /\
                angle_difference fuel a b = None /\
                angle_difference fuel b a = None) /\
  absorbs_360 (S754_infinity false) /\
  absorbs_360 (S754_infinity true) /\
  (forall fuel, normalize_angle fuel S754_nan = Some S754_nan).
Proof.
  split; [|split; [|split]].
  - intros Ha fuel. unfold angle_difference.
    rewrite (normalize_angle_never_returns a Ha fuel).
    split; [done|]. split; [by destruct (normalize_angle fuel b) | done].
  - right. by vm_compute.
  - left. by vm_compute.
  - by intros [|fuel].
Qed.

Lemma normalize_angle_absorbing_witness :
  absorbs_360 (float_lit (- 10 ^ 300)) /\
  normalize_angle 1000 (float_lit (- 10 ^ 300)) = None /\
  angle_difference 1000 (float_lit (- 10 ^ 300)) (float_lit 90) = None /\
  angle_difference 1000 (float_lit 90) (float_lit (- 10 ^ 300)) = None.
Proof.
  assert (absorbs_360 (float_lit (- 10 ^ 300))) as H
    by (left; split; vm_compute; reflexivity).
  split; [exact H|].
  exact (proj1 (normalize_angle_absorbing (float_lit (- 10 ^ 300)) (float_lit 90))
               H 1000%nat).
Defined.

(** Where both angles normalise, the difference is taken the short way
    round. *)
Example angle_difference_wraps :
  angle_difference 3 (float_lit 350) (float_lit 10) = Some (float_lit 20) /\
  angle_difference 3 (float_lit 10) (float_lit 350) = Some (float_lit (-20)).
Proof. split; vm_compute; reflexivity. Qed.

(** ** Runs of undo and redo (core/undo.py) *)

Section UndoRuns.
Context {State : Type} (deepcopy : State -> State).

Lemma undo_count_length (m : UndoManager State) (k : nat) :
  Z.of_nat (S k) <= undo_count m <-> (S k + 1 <= length (undo_stack m))%nat.
Proof. unfold undo_count. lia. Qed.

Lemma undo_run_walks_back (k : nat) : forall m : UndoManager State,
  Z.of_nat k <= undo_count m ->
  undo_run deepcopy k m =
    Ok ((fun e => Some (deepcopy (state e))) <$> take k (tail (rev (undo_stack m))),
        mkUndoManager (max_history m)
          (take (length (undo_stack m) - k) (undo_stack m))
          (redo_stack m ++ rev (drop (length (undo_stack m) - k) (undo_stack m)))
          (notified m + k)).
Proof.
  induction k as [|k IH]; intros m Hk.
  - cbn [undo_run take fmap list_fmap]. rewrite Nat.sub_0_r, firstn_all, drop_all.
    cbn [rev]. rewrite app_nil_r, Nat.add_0_r. by destruct m.
  - apply undo_count_length in Hk.
    destruct (snoc2_decompose (undo_stack m)) as (older & prev & cur & Hs); [lia|].
    cbn [undo_run]. rewrite (undo_valid deepcopy m older prev cur Hs).
    cbn [mbind py_bind]. rewrite IH.
    2:{ unfold undo_count. cbn [undo_stack]. rewrite Hs, !length_app in *.
        cbn [length] in *. lia. }
    cbn [mbind py_bind max_history undo_stack redo_stack notified].
    rewrite Hs. rewrite !rev_app_distr. cbn [rev app tail take fmap list_fmap].
    rewrite !length_app. cbn [length].
    change (older ++ [prev; cur]) with (older ++ [prev] ++ [cur]).
    rewrite (app_assoc older [prev] [cur]).
    replace (length older + 2 - S k)%nat with (length older + 1 - k)%nat by lia.
    rewrite (take_app_le (older ++ [prev]) [cur]) by (rewrite length_app; cbn; lia).
    rewrite (drop_app_le (older ++ [prev]) [cur]) by (rewrite length_app; cbn; lia).
    rewrite rev_app_distr. cbn [rev app].
    rewrite <- app_assoc. cbn [app].
    by replace (S (notified m) + k)%nat with (notified m + S k)%nat by lia.
Qed.

Lemma redo_run_walks_forward (k : nat) : forall m : UndoManager State,
  Z.of_nat k <= redo_count m ->
  redo_run deepcopy k m =
    Ok ((fun e => Some (deepcopy (state e))) <$> take k (rev (redo_stack m)),
        mkUndoManager (max_history m)
          (undo_stack m ++ rev (drop (length (redo_stack m) - k) (redo_stack m)))
          (take (length (redo_stack m) - k) (redo_stack m))
          (notified m + k)).
Proof.
  induction k as [|k IH]; intros m Hk.
  - cbn [redo_run take fmap list_fmap]. rewrite Nat.sub_0_r, firstn_all, drop_all.
    cbn [rev]. rewrite app_nil_r, Nat.add_0_r. by destruct m.
  - unfold redo_count in Hk.
    destruct (snoc_decompose (redo_stack m)) as (rest & st & Hs).
    { intros E. rewrite E in Hk. cbn in Hk. lia. }
    cbn [redo_run]. rewrite (redo_valid deepcopy m rest st Hs).
    cbn [mbind py_bind]. rewrite IH.
    2:{ unfold redo_count. cbn [redo_stack]. rewrite Hs, length_app in Hk.
        cbn [length] in Hk. lia. }
    cbn [mbind py_bind max_history undo_stack redo_stack notified].
    rewrite Hs. rewrite !rev_app_distr. cbn [rev app take fmap list_fmap].
    rewrite !length_app. cbn [length].
    replace (length rest + 1 - S k)%nat with (length rest - k)%nat by lia.
    rewrite (take_app_le rest [st]) by lia.
    rewrite (drop_app_le rest [st]) by lia.
    rewrite rev_app_distr. cbn [rev app].
    rewrite <- app_assoc. cbn [app].
    by replace (S (notified m) + k)%nat with (notified m + S k)%nat by lia.
Qed.

(** X14. [undo_count()] is the number of times [undo()] succeeds: a run of
    [k <= undo_count()] undos returns, newest first, deep copies of the
    [k] snapshots below the top, leaves all but the last [k] entries on
    [undo_stack] and puts those [k] on [redo_stack], the newest
    innermost; after [undo_count()] undos the next one returns [None]
    and changes nothing. *)
Theorem undo_run_spec (m : UndoManager State) (k : nat) :
  (Z.of_nat k <= undo_count m ->
   undo_run deepcopy k m =
     Ok ((fun e => Some (deepcopy (state e))) <$> take k (tail (rev (undo_stack m))),
         mkUndoManager (max_history m)
           (take (length (undo_stack m) - k) (undo_stack m))
           (redo_stack m ++ rev (drop (length (undo_stack m) - k) (undo_stack m)))
           (notified m + k))) /\
  (Z.of_nat k = undo_count m ->
   exists rs m', undo_run deepcopy k m = Ok (rs, m') /\
                 length rs = k /\
                 can_undo m' = false /\
                 undo deepcopy m' = Ok (None, m')).
Proof.
  split; [apply undo_run_walks_back|].
  intros Hk. eexists _, _. split; [apply undo_run_walks_back; lia|].
  assert (length (take (length (undo_stack m) - k) (undo_stack m)) < 2)%nat as Hshort.
  { rewrite length_take. unfold undo_count in Hk. lia. }
  split; [|split].
  - rewrite length_fmap, length_take. unfold undo_count in Hk.
    assert (length (tail (rev (undo_stack m))) = length (undo_stack m) - 1)%nat as ->.
    { destruct (rev (undo_stack m)) eqn:E;
        apply (f_equal length) in E; rewrite length_rev in E; cbn in *; lia. }
    lia.
  - destruct (can_undo _) eqn:E; [|done].
    apply can_undo_length in E. cbn [undo_stack] in E. lia.
  - by apply undo_invalid.
Qed.

(** X15. A run of [k <= undo_count()] undos followed by [k] redos puts
    both stacks back as they were, and the redos return the snapshots
    that were popped, oldest first: the last value returned is a deep
    copy of the state that was on top before the run. *)
Theorem undo_run_then_redo_run (m : UndoManager State) (k : nat) :
  Z.of_nat k <= undo_count m ->
  exists rs m1 m2,
    undo_run deepcopy k m = Ok (rs, m1) /\
    redo_run deepcopy k m1 =
      Ok ((fun e => Some (deepcopy (state e)))
            <$> drop (length (undo_stack m) - k) (undo_stack m), m2) /\
    undo_stack m2 = undo_stack m /\
    redo_stack m2 = redo_stack m.
Proof.
  intros Hk. eexists _, _, _. split; [by apply undo_run_walks_back|].
  assert (length (drop (length (undo_stack m) - k) (undo_stack m)) = k) as Hd.
  { rewrite length_drop. unfold undo_count in Hk. lia. }
  rewrite redo_run_walks_forward.
  2:{ unfold redo_count. cbn [redo_stack]. rewrite length_app, length_rev. lia. }
  cbn [max_history undo_stack redo_stack notified].
  rewrite length_app, length_rev, Hd.
  replace (length (redo_stack m) + k - k)%nat with (length (redo_stack m)) by lia.
  rewrite drop_app_length, take_app_length, rev_involutive, take_drop.
  rewrite rev_app_distr, rev_involutive, take_app_le by lia.
  rewrite <- Hd at 1. rewrite firstn_all.
  split; [reflexivity|]. done.
Qed.

(** X16. The description offered for the next undo is that of the top
    entry; once it is undone it is the description offered for the next
    redo, and once redone it is offered for undo again.  Without an
    undo available there is no description. *)
Theorem undo_redo_descriptions (m : UndoManager State) :
  (can_undo m = false -> get_undo_description m = None) /\
  (can_undo m = true ->
   exists top r m1 r' m2,
     last (undo_stack m) = Some top /\
     get_undo_description m = Some (description top) /\
     undo deepcopy m = Ok (r, m1) /\
     get_redo_description m1 = Some (description top) /\
     redo deepcopy m1 = Ok (r', m2) /\
     get_undo_description m2 = Some (description top)).
Proof.
  split.
  - intros Hcan. unfold get_undo_description. by rewrite Hcan.
  - intros Hcan. pose proof Hcan as Hlen. apply can_undo_length in Hlen.
    destruct (snoc2_decompose _ Hlen) as (older & prev & cur & Hs).
    assert (last (undo_stack m) = Some cur) as Hlast.
    { rewrite Hs. change (older ++ [prev; cur]) with (older ++ [prev] ++ [cur]).
      by rewrite app_assoc, last_snoc. }
    eexists cur, _, _, _, _. split; [done|]. split.
    { unfold get_undo_description. by rewrite Hcan, Hlast. }
    split; [by apply undo_valid|]. split.
    { unfold get_redo_description, can_redo. cbn [redo_stack].
      rewrite length_app, last_snoc. cbn [length].
      by destruct (Z.gtb_spec (Z.of_nat (length (redo_stack m) + 1)) 0); [|lia]. }
    split; [by apply redo_valid|].
    unfold get_undo_description, can_undo. cbn [undo_stack].
    rewrite length_app, last_snoc, length_app. cbn [length].
    by destruct (Z.gtb_spec (Z.of_nat (length older + 1 + 1)) 1); [|lia].
Qed.

End UndoRuns.

Lemma undo_run_spec_witness :
  let m := mkUndoManager 50 [mkUndoState "a" 10; mkUndoState "b" 20;
                             mkUndoState "c" 30] [] 3 in
  Z.of_nat 2 <= undo_count m /\
  undo_run (fun s : Z => s) 2 m =
    Ok ([Some 20; Some 10],
        mkUndoManager 50 [mkUndoState "a" 10]
                      [mkUndoState "c" 30; mkUndoState "b" 20] 5).
Proof.
  intros m. split; [unfold undo_count; cbn; lia|].
  apply (proj1 (undo_run_spec (fun s : Z => s) m 2)). unfold undo_count; cbn; lia.
Defined.

Lemma undo_run_then_redo_run_witness :
  let m := mkUndoManager 50 [mkUndoState "a" 10; mkUndoState "b" 20;
                             mkUndoState "c" 30] [] 3 in
  Z.of_nat 2 <= undo_count m /\
  exists rs m1 m2,
    undo_run (fun s : Z => s) 2 m = Ok (rs, m1) /\
    redo_run (fun s : Z => s) 2 m1 = Ok ([Some 20; Some 30], m2) /\
    undo_stack m2 = undo_stack m /\
    redo_stack m2 = redo_stack m.
Proof.
  intros m. split; [unfold undo_count; cbn; lia|].
  apply (undo_run_then_redo_run (fun s : Z => s) m 2). unfold undo_count; cbn; lia.
Defined.

Lemma undo_redo_descriptions_witness :
  let m := mkUndoManager 50 [mkUndoState "New project" 10;
                             mkUndoState "Add waypoint" 20] [] 2 in
  can_undo m = true /\
  exists top r m1 r' m2,
    last (undo_stack m) = Some top /\
    get_undo_description m = Some (description top) /\
    undo (fun s : Z => s) m = Ok (r, m1) /\
    get_redo_description m1 = Some (description top) /\
    redo (fun s : Z => s) m1 = Ok (r', m2) /\
    get_undo_description m2 = Some (description top).
Proof.
  intros m. split; [reflexivity|].
  apply (proj2 (undo_redo_descriptions (fun s : Z => s) m)). reflexivity.
Defined.

(** ** Documents on disk and in the history (io/project_io.py, ui/main_window.py) *)

Lemma dict_lookup_set_ne (data : pydict) (k k' : string) (v : pyval) :
  k <> k' -> dict_lookup (dict_set data k v) k' = dict_lookup data k'.
Proof.
  intros Hne. induction data as [|[k0 v0] data IH]; cbn [dict_set dict_lookup].
  - by apply String.eqb_neq in Hne as ->.
  - destruct (String.eqb_spec k0 k) as [-> | Hk0]; cbn [dict_lookup].
    + by apply String.eqb_neq in Hne as ->.
    + by rewrite IH.
Qed.

Lemma dict_lookup_set_eq (data : pydict) (k : string) (v : pyval) :
  dict_lookup (dict_set data k v) k = Some v.
Proof.
  induction data as [|[k0 v0] data IH]; cbn [dict_set dict_lookup].
  - by rewrite String.eqb_refl.
  - destruct (String.eqb_spec k0 k) as [-> | Hk0]; cbn [dict_lookup].
    + by rewrite String.eqb_refl.
    + by apply String.eqb_neq in Hk0 as ->.
Qed.

Lemma Project_from_dict_lookups (data : pydict) (s : string) (ps : list Path) :
  dict_lookup data "season" = Some (PyStr s) ->
  dict_lookup data "paths" = Some (PyList ((fun p => PyDict (Path.to_dict p)) <$> ps)) ->
  Project.from_dict data = Ok {| season := s; paths := ps |}.
Proof.
  intros Hs Hp. unfold Project.from_dict, dict_get. rewrite Hs, Hp. cbn.
  rewrite (mapM_roundtrip (fun p => PyDict (Path.to_dict p))).
  - done.
  - intros p. cbn. apply Path_roundtrip.
Qed.

Lemma Project_from_dict_of_to_dict (P : Project) :
  Project.from_dict (Project.to_dict P) = Ok P.
Proof. destruct P as [s ps]. by apply Project_from_dict_lookups. Qed.

(** X17. The document that [save_project] writes loads back as the project
    saved, whatever the time stamp: the keys that saving adds
    ([modified], [created]) or sets again ([version]) are not read by
    [Project.from_dict], which depends on the keys [season] and [paths]
    alone. *)
Theorem saved_document_loads :
  (forall data k v, k <> "season" -> k <> "paths" ->
     Project.from_dict (dict_set data k v) = Project.from_dict data) /\
  (forall P now,
     loaded_project (saved_document P now) = Some P /\
     dict_lookup (saved_document P now) "version" = Some (PyStr VERSION) /\
     dict_lookup (saved_document P now) "modified" = Some (PyStr now) /\
     dict_lookup (saved_document P now) "created" = Some (PyStr now)).
Proof.
  split.
  - intros data k v Hs Hp. unfold Project.from_dict, dict_get.
    by rewrite !dict_lookup_set_ne by done.
  - intros [s ps] now. split; [|done].
    unfold loaded_project.
    by rewrite (Project_from_dict_lookups _ s ps).
Qed.

Lemma saved_document_loads_witness :
  "modified" <> "season" /\ "modified" <> "paths" /\
  Project.from_dict (dict_set [("season", PyStr "pushback_2026")] "modified" (PyStr "now"))
  = Project.from_dict [("season", PyStr "pushback_2026")].
Proof.
  split; [done|]. split; [done|].
  by apply (proj1 saved_document_loads).
Defined.

Lemma drop_snoc_le {A} (n : nat) (l : list A) (x : A) :
  (n <= length l)%nat -> drop n (l ++ [x]) = drop n l ++ [x].
Proof. intros Hn. by rewrite drop_app_le. Qed.

Lemma save_state_top {State} (deepcopy : State -> State) (m : UndoManager State)
    (st : State) (descr : string) :
  1 <= max_history m ->
  exists older,
    save_state deepcopy m st descr =
      Ok (mkUndoManager (max_history m) (older ++ [mkUndoState descr (deepcopy st)])
                        [] (S (notified m))) /\
    Z.of_nat (length older) < max_history m /\
    older = drop (S (length (undo_stack m)) - Z.to_nat (max_history m)) (undo_stack m).
Proof.
  intros Hcap. eexists. split; [|split; [|reflexivity]].
  - rewrite save_state_drop by lia. by rewrite drop_snoc_le by lia.
  - rewrite length_drop. lia.
Qed.

(** X18. The undo wiring of the main window.  With room for two snapshots
    in the history: a state saved for the project [P], an edit that
    leaves the project [P'] and saves again, then [_on_undo] puts the
    project [P] back, and [_on_redo] after it the project [P'].  A
    window that has just run [_new_project] has nothing to undo:
    [_on_undo] leaves it as it is. *)
Theorem main_window_undo (w : MainWindow) (P P' : Project) (d1 d2 season : string) :
  (2 <= max_history (undo_manager w) -> mw_project w = Some P ->
   exists w1 w2 w3 w4,
     MainWindow._save_undo_state w d1 = Ok w1 /\
     MainWindow._save_undo_state (mkMainWindow (Some P') (undo_manager w1) true) d2
       = Ok w2 /\
     MainWindow._on_undo w2 = Ok w3 /\ mw_project w3 = Some P /\
     MainWindow._on_redo w3 = Ok w4 /\ mw_project w4 = Some P') /\
  (1 <= max_history (undo_manager w) ->
   exists w', MainWindow._new_project w season = Ok w' /\
              mw_project w' = Some (create_new_project season) /\
              can_undo (undo_manager w') = false /\
              MainWindow._on_undo w' = Ok w').
Proof.
  split.
  - intros Hcap HP.
    destruct (save_state_top deepcopy_document (undo_manager w) (Project.to_dict P) d1)
      as (older1 & Hsave1 & Hlen1 & _); [lia|].
    set (m1 := mkUndoManager (max_history (undo_manager w))
                 (older1 ++ [mkUndoState d1 (deepcopy_document (Project.to_dict P))])
                 [] (S (notified (undo_manager w)))) in *.
    destruct (save_state_top deepcopy_document m1 (Project.to_dict P') d2)
      as (older2 & Hsave2 & _ & Holder2); [cbn; lia|].
    assert (exists older, older2 = older ++
              [mkUndoState d1 (deepcopy_document (Project.to_dict P))]) as [older Ho].
    { rewrite Holder2. cbn [m1 undo_stack max_history]. rewrite length_app. cbn [length].
      eexists. apply drop_snoc_le. lia. }
    rewrite Ho, <- app_assoc in Hsave2. cbn [app] in Hsave2.
    eexists _, _, _, _.
    split. { unfold MainWindow._save_undo_state. rewrite HP, Hsave1. reflexivity. }
    split. { unfold MainWindow._save_undo_state.
             cbn [mw_project undo_manager modified mbind py_bind].
             fold m1. rewrite Hsave2. reflexivity. }
    split. { unfold MainWindow._on_undo. cbn [undo_manager mw_project modified].
             erewrite undo_valid by reflexivity.
             cbn [mbind py_bind state deepcopy_document mw_project MainWindow.truthy].
             unfold MainWindow._restore_state.
             destruct P as [s ps]. cbn [Project.to_dict].
             rewrite (Project_from_dict_lookups _ s ps) by done. reflexivity. }
    split; [reflexivity|].
    split. { unfold MainWindow._on_redo. cbn [undo_manager mw_project modified].
             erewrite redo_valid by reflexivity.
             cbn [mbind py_bind state deepcopy_document mw_project MainWindow.truthy].
             unfold MainWindow._restore_state.
             destruct P' as [s ps]. cbn [Project.to_dict].
             rewrite (Project_from_dict_lookups _ s ps) by done. reflexivity. }
    reflexivity.
  - intros Hcap. unfold MainWindow._new_project, MainWindow._save_undo_state.
    cbn [mw_project undo_manager modified].
    rewrite save_state_drop by (cbn; lia).
    cbn [clear notify_change undo_stack max_history notified app length].
    replace (1 - Z.to_nat (max_history (undo_manager w)))%nat with 0%nat by lia.
    cbn [drop mbind py_bind].
    eexists. split; [reflexivity|]. split; [reflexivity|]. split; [reflexivity|].
    reflexivity.
Qed.

Lemma main_window_undo_witness :
  let w := mkMainWindow (Some (create_new_project "pushback_2026"))
                        (UndoManager_new 50) false in
  let P' := {| season := "pushback_2026"; paths := [scenario_path] |} in
  2 <= max_history (undo_manager w) /\
  mw_project w = Some (create_new_project "pushback_2026") /\
  exists w1 w2 w3 w4,
    MainWindow._save_undo_state w "New project" = Ok w1 /\
    MainWindow._save_undo_state (mkMainWindow (Some P') (undo_manager w1) true)
                                "Add waypoint" = Ok w2 /\
    MainWindow._on_undo w2 = Ok w3 /\
    mw_project w3 = Some (create_new_project "pushback_2026") /\
    MainWindow._on_redo w3 = Ok w4 /\ mw_project w4 = Some P'.
Proof.
  intros w P'. split; [cbn; lia|]. split; [reflexivity|].
  apply (proj1 (main_window_undo w (create_new_project "pushback_2026") P'
                                 "New project" "Add waypoint" "pushback_2026"));
    [cbn; lia | reflexivity].
Defined.

(** ** The mouse handlers of the canvas (ui/field_canvas.py) *)

Lemma flt_leb (a b : float) : flt a b = true -> SFleb a b = true.
Proof. unfold flt, SFltb, SFleb. by destruct (SFcompare a b) as [[]|]. Qed.

Lemma leb_not_lt_feq (a b : float) :
  SFleb a b = true -> flt a b = false -> feq a b = true.
Proof. unfold flt, SFltb, SFleb, feq, SFeqb. by destruct (SFcompare a b) as [[]|]. Qed.

Lemma feq_sym (a b : float) : feq a b = true -> feq b a = true.
Proof.
  unfold feq, SFeqb.
  destruct a as [sa|sa| |sa ma ea], b as [sb|sb| |sb mb eb]; cbn [SFcompare];
    try done; try (by destruct sa, sb); try (by destruct sa); try (by destruct sb).
  intros H.
  assert (ea = eb /\ ma = mb) as [-> ->].
  { destruct sa, sb; try done;
      destruct (Z.compare_spec ea eb); try done;
      (split; [done|]); apply Pos.compare_eq; unfold Pos.compare;
      by destruct (Pos.compare_cont Eq ma mb). }
  rewrite Z.compare_refl, Pos.compare_cont_refl. by destruct sa, sb.
Qed.

Lemma clamp_to_field_in_field (v : float) : in_field (clamp_to_field v) = true.
Proof.
  unfold clamp_to_field, py_max, py_min, in_field.
  destruct (flt v FIELD_HALF_SIZE) eqn:Hhi.
  - destruct (flt (SFopp FIELD_HALF_SIZE) v) eqn:Hlo.
    + apply andb_true_intro. split; by apply flt_leb.
    + by vm_compute.
  - by vm_compute.
Qed.

Lemma clamp_to_field_fixes (v : float) :
  in_field v = true -> feq (clamp_to_field v) v = true.
Proof.
  unfold clamp_to_field, py_max, py_min, in_field.
  intros [Hlo Hhi]%andb_prop.
  destruct (flt v FIELD_HALF_SIZE) eqn:Hlt.
  - destruct (flt (SFopp FIELD_HALF_SIZE) v) eqn:Hgt.
    + apply feq_refl. intros ->. done.
    + by apply leb_not_lt_feq.
  - assert (feq v FIELD_HALF_SIZE = true) as Heq by by apply leb_not_lt_feq.
    assert (flt (SFopp FIELD_HALF_SIZE) FIELD_HALF_SIZE = true) as -> by by vm_compute.
    by apply feq_sym.
Qed.

Lemma canvas_to_field_at_returns (cs : CoordinateSystem float) (event_x event_y : Z) :
  feq (scale cs) fzero = false ->
  Z.abs event_x < float_overflow_threshold ->
  Z.abs event_y < float_overflow_threshold ->
  exists fx fy, canvas_to_field_at cs event_x event_y = Ok (fx, fy).
Proof.
  intros Hs Hx Hy. unfold canvas_to_field_at, int_to_float, truediv.
  destruct (Z.leb_spec float_overflow_threshold (Z.abs event_x)); [lia|].
  destruct (Z.leb_spec float_overflow_threshold (Z.abs event_y)); [lia|].
  rewrite Hs. cbn. by eexists _, _.
Qed.

Lemma on_drag_cases (self self' : FieldCanvas) (event_x event_y : Z) :
  FieldCanvas._on_drag self event_x event_y = Ok self' ->
  self' = self \/
  exists p drag_index fx fy,
    fc_path self = Some p /\ fc_drag_index self = Some drag_index /\
    0 <= drag_index < Z.of_nat (length (waypoints p)) /\
    Path.is_valid_position p (clamp_to_field fx) (clamp_to_field fy) = true /\
    self' = mkFieldCanvas (fc_coords self)
              (Some (set_waypoints
                       (alter (set_position (clamp_to_field fx) (clamp_to_field fy))
                              (Z.to_nat drag_index) (waypoints p)) p))
              (fc_selected_index self) (fc_dragging self) (fc_drag_index self).
Proof.
  unfold FieldCanvas._on_drag.
  destruct (fc_dragging self); [|intros [= <-]; by left].
  destruct (fc_drag_index self) as [drag_index|]; [|intros [= <-]; by left].
  destruct (canvas_to_field_at _ _ _) as [[fx fy]|e]; [|done].
  cbn [mbind py_bind].
  destruct (fc_path self) as [p|]; [|intros [= <-]; by left].
  destruct (Path.is_valid_position p _ _) eqn:Hvalid; cbn [negb];
    [|intros [= <-]; by left].
  destruct (Z.leb_spec 0 drag_index) as [Hlo|]; [|intros [= <-]; by left].
  destruct (Z.ltb_spec drag_index (Z.of_nat (length (waypoints p)))) as [Hhi|];
    [|intros [= <-]; by left].
  cbn [andb]. intros [= <-]. right. by eexists p, drag_index, fx, fy.
Qed.

(** X19. A drag keeps the waypoints where they may be.  Whatever the
    position of the mouse, [_on_drag] changes at most the waypoint at
    [_drag_index], and of that only the position, which it puts inside
    the field, [-72 <= x, y <= 72], and on a side the path admits; the
    name, alliance and side of the path, the number of waypoints, the
    selection and the drag state stay as they are.  Clamping leaves a
    coordinate that is inside the field unchanged.  With a scale other
    than zero and event coordinates that a float can hold the handler
    returns. *)
Theorem on_drag_spec (self : FieldCanvas) (event_x event_y : Z) :
  (forall v, in_field (clamp_to_field v) = true) /\
  (forall v, in_field v = true -> feq (clamp_to_field v) v = true) /\
  (feq (scale (fc_coords self)) fzero = false ->
   Z.abs event_x < float_overflow_threshold ->
   Z.abs event_y < float_overflow_threshold ->
   exists self', FieldCanvas._on_drag self event_x event_y = Ok self') /\
  (forall self', FieldCanvas._on_drag self event_x event_y = Ok self' ->
     fc_coords self' = fc_coords self /\
     fc_selected_index self' = fc_selected_index self /\
     fc_dragging self' = fc_dragging self /\
     fc_drag_index self' = fc_drag_index self /\
     match fc_path self with
     | None => fc_path self' = None
     | Some p =>
         exists p', fc_path self' = Some p' /\
           name p' = name p /\ alliance p' = alliance p /\ side p' = side p /\
           length (waypoints p') = length (waypoints p) /\
           forall (i : nat) w', waypoints p' !! i = Some w' ->
             waypoints p !! i = Some w' \/
             (fc_drag_index self = Some (Z.of_nat i) /\
              (exists w, waypoints p !! i = Some w /\
                         w' = set_position (wp_x w') (wp_y w') w) /\
              in_field (wp_x w') = true /\ in_field (wp_y w') = true /\
              Path.is_valid_position p (wp_x w') (wp_y w') = true)
     end).
Proof.
  split; [apply clamp_to_field_in_field|].
  split; [apply clamp_to_field_fixes|].
  split.
  - intros Hs Hx Hy. unfold FieldCanvas._on_drag.
    destruct (fc_dragging self); [|by eexists].
    destruct (fc_drag_index self) as [drag_index|]; [|by eexists].
    destruct (canvas_to_field_at_returns _ _ _ Hs Hx Hy) as (fx & fy & ->).
    cbn [mbind py_bind].
    destruct (fc_path self) as [p|]; [|by eexists].
    destruct (negb _); [by eexists|].
    destruct (_ && _); by eexists.
  - intros self' Hdrag.
    destruct (on_drag_cases _ _ _ _ Hdrag)
      as [-> | (p & drag_index & fx & fy & Hp & Hidx & Hrange & Hvalid & ->)].
    + repeat (split; [reflexivity|]).
      destruct (fc_path self) as [p|]; [|done].
      exists p. repeat (split; [reflexivity|]). intros i w' Hw'. by left.
    + cbn [fc_coords fc_selected_index fc_dragging fc_drag_index fc_path].
      repeat (split; [done|]). rewrite Hp.
      eexists. split; [reflexivity|]. cbn [name alliance side waypoints set_waypoints].
      repeat (split; [done|]).
      split; [by rewrite length_alter|].
      intros i w' Hw'.
      destruct (decide (i = Z.to_nat drag_index)) as [-> | Hne].
      * right. rewrite Z2Nat.id by lia. split; [done|].
        rewrite list_lookup_alter, decide_True in Hw' by done.
        destruct (waypoints p !! Z.to_nat drag_index) as [w|] eqn:Hw; [|done].
        cbn in Hw'. injection Hw' as <-. cbn [wp_x wp_y set_position].
        split; [by exists w|].
        split; [apply clamp_to_field_in_field|].
        split; [apply clamp_to_field_in_field|]. done.
      * left. by rewrite list_lookup_alter_ne in Hw'.
Qed.

Lemma on_drag_spec_witness :
  feq (scale (fc_coords demo_canvas)) fzero = false /\
  Z.abs 100 < float_overflow_threshold /\
  Z.abs 700 < float_overflow_threshold /\
  exists self', FieldCanvas._on_drag demo_canvas 100 700 = Ok self'.
Proof.
  split; [reflexivity|]. split; [reflexivity|]. split; [reflexivity|].
  apply (proj1 (proj2 (proj2 (on_drag_spec demo_canvas 100 700)))); reflexivity.
Defined.

(** Dragged below the canvas, the waypoint stops at the lower edge of the
    field, [y = -72]; dragged across the centre line of a LEFT path, it
    stays where it was. *)
Example on_drag_clamps :
  (fun self => (fun w => (wp_x w, wp_y w)) <$> (fc_path self ≫= (fun p => waypoints p !! 1%nat)))
    <$> FieldCanvas._on_drag demo_canvas 100 700
  = Ok (Some (float_lit (-48), float_lit (-72))) /\
  FieldCanvas._on_drag demo_canvas 400 200 = Ok demo_canvas.
Proof. split; vm_compute; reflexivity. Qed.

Section CanvasSearch.
Variable c_pow : float -> float -> float.
Variable pow_half : float -> float.

Lemma find_waypoint_from_spec (coords : CoordinateSystem float) (cx cy : Z) :
  forall (wps : list Waypoint) (i : Z) (r : option Z),
  FieldCanvas.find_waypoint_from c_pow pow_half coords cx cy i wps = Ok r ->
  match r with
  | Some k =>
      i <= k < i + Z.of_nat (length wps) /\
      (exists w, wps !! Z.to_nat (k - i) = Some w /\
                 FieldCanvas.within_hit_radius c_pow pow_half coords cx cy w = Ok true) /\
      (forall (j : nat) w, (j < Z.to_nat (k - i))%nat -> wps !! j = Some w ->
         FieldCanvas.within_hit_radius c_pow pow_half coords cx cy w = Ok false)
  | None =>
      forall w, w ∈ wps ->
        FieldCanvas.within_hit_radius c_pow pow_half coords cx cy w = Ok false
  end.
Proof.
  induction wps as [|wp rest IH]; intros i r.
  - intros [= <-]. intros w Hw. by apply elem_of_nil in Hw.
  - cbn [FieldCanvas.find_waypoint_from].
    destruct (FieldCanvas.within_hit_radius c_pow pow_half coords cx cy wp) as [[]|e] eqn:Hhit;
      [| |done].
    + intros [= <-]. cbn [length]. split; [lia|]. rewrite Z.sub_diag. split.
      * by exists wp.
      * intros j w Hj. cbn in Hj. lia.
    + intros Hrest. specialize (IH (i + 1) r Hrest). destruct r as [k|].
      * destruct IH as (Hrange & (w & Hw & Hwhit) & Hbefore). cbn [length].
        split; [lia|].
        replace (Z.to_nat (k - i)) with (S (Z.to_nat (k - (i + 1)))) by lia.
        split; [by exists w|].
        intros [|j] w' Hj Hw'.
        -- cbn in Hw'. by injection Hw' as <-.
        -- cbn in Hw'. apply (Hbefore j); [lia | done].
      * intros w [-> | Hw]%elem_of_cons; [done | by apply IH].
Qed.

(** X20. [_find_waypoint_at] returns the first waypoint under the mouse:
    when it returns an index, the index is in range, the waypoint there
    is within [HIT_RADIUS] of the position, and no waypoint before it
    is; when it returns [None], the canvas shows no path or none of its
    waypoints is within the radius. *)
Theorem find_waypoint_at_first_hit (self : FieldCanvas) (cx cy : Z) (r : option Z) :
  FieldCanvas._find_waypoint_at c_pow pow_half self cx cy = Ok r ->
  match r, fc_path self with
  | Some k, Some p =>
      0 <= k < Z.of_nat (length (waypoints p)) /\
      (exists w, waypoints p !! Z.to_nat k = Some w /\
         FieldCanvas.within_hit_radius c_pow pow_half (fc_coords self) cx cy w = Ok true) /\
      (forall (j : nat) w, (j < Z.to_nat k)%nat -> waypoints p !! j = Some w ->
         FieldCanvas.within_hit_radius c_pow pow_half (fc_coords self) cx cy w = Ok false)
  | Some _, None => False
  | None, Some p =>
      forall w, w ∈ waypoints p ->
        FieldCanvas.within_hit_radius c_pow pow_half (fc_coords self) cx cy w = Ok false
  | None, None => True
  end.
Proof.
  unfold FieldCanvas._find_waypoint_at.
  destruct (fc_path self) as [p|].
  - intros Hfind. apply find_waypoint_from_spec in Hfind.
    destruct r as [k|]; [|done].
    rewrite Z.sub_0_r in Hfind. cbn in Hfind. done.
  - by intros [= <-].
Qed.

Lemma remove_waypoint_lookup (p : Path) (index s : Z) (w : Waypoint) :
  0 <= index < Z.of_nat (length (waypoints p)) ->
  0 <= s -> s <> index ->
  waypoints p !! Z.to_nat s = Some w ->
  let s' := if s >? index then s - 1 else s in
  0 <= s' /\
  (waypoints (Path.remove_waypoint p index) !! Z.to_nat s' = Some w \/
   (index = 0 /\ s' = 0 /\
    waypoints (Path.remove_waypoint p index) !! Z.to_nat s'
      = Some (set_motion_type START w))).
Proof.
  intros Hindex Hs Hne Hw. unfold Path.remove_waypoint.
  destruct (Z.leb_spec 0 index); [|lia].
  destruct (Z.ltb_spec index (Z.of_nat (length (waypoints p)))); [|lia].
  cbn [andb].
  set (ws := delete (Z.to_nat index) (waypoints p)).
  destruct (Z.gtb_spec s index) as [Hgt | Hle]; cbn zeta.
  - assert (ws !! Z.to_nat (s - 1) = Some w) as Hws.
    { unfold ws. rewrite list_lookup_delete_ge by lia.
      by replace (S (Z.to_nat (s - 1))) with (Z.to_nat s) by lia. }
    split; [lia|].
    destruct (Z.eqb_spec index 0) as [-> | Hi0]; cbn [andb].
    + destruct (Z.ltb_spec 0 (Z.of_nat (length ws))) as [Hlen | Hlen].
      * cbn [waypoints set_waypoints].
        destruct (decide (s = 1)) as [-> | Hs1].
        -- right. split; [done|]. split; [done|].
           change (Z.to_nat (1 - 1)) with 0%nat in *.
           by rewrite list_lookup_alter, decide_True, Hws by done.
        -- left. rewrite list_lookup_alter_ne by lia. done.
      * apply lookup_lt_Some in Hws. lia.
    + by left.
  - assert (ws !! Z.to_nat s = Some w) as Hws.
    { unfold ws. by rewrite list_lookup_delete_lt by lia. }
    split; [lia|]. left.
    destruct (Z.eqb_spec index 0) as [-> | Hi0]; cbn [andb]; [lia|]. done.
Qed.

(** X21. A right click deletes the waypoint under the mouse and keeps the
    selection on the waypoint that was selected: when the click finds
    the waypoint [index], the path shown becomes
    [remove_waypoint(index)]; a selection on [index] itself is dropped;
    any other selection is renumbered so that it still denotes the same
    waypoint (which, when it moves up to the front, has become the START
    one).  A click that finds no waypoint changes nothing. *)
Theorem on_right_click_keeps_selection (self : FieldCanvas) (p : Path)
    (event_x event_y : Z) :
  fc_path self = Some p ->
  (FieldCanvas._find_waypoint_at c_pow pow_half self event_x event_y = Ok None ->
   FieldCanvas._on_right_click c_pow pow_half self event_x event_y = Ok self) /\
  (forall index,
   FieldCanvas._find_waypoint_at c_pow pow_half self event_x event_y = Ok (Some index) ->
   exists self',
     FieldCanvas._on_right_click c_pow pow_half self event_x event_y = Ok self' /\
     fc_path self' = Some (Path.remove_waypoint p index) /\
     length (waypoints (Path.remove_waypoint p index)) = pred (length (waypoints p)) /\
     (fc_selected_index self = None -> fc_selected_index self' = None) /\
     (fc_selected_index self = Some index -> fc_selected_index self' = None) /\
     (forall s w, fc_selected_index self = Some s -> s <> index -> 0 <= s ->
        waypoints p !! Z.to_nat s = Some w ->
        exists s', fc_selected_index self' = Some s' /\ 0 <= s' /\
          (waypoints (Path.remove_waypoint p index) !! Z.to_nat s' = Some w \/
           (index = 0 /\ s' = 0 /\
            waypoints (Path.remove_waypoint p index) !! Z.to_nat s'
              = Some (set_motion_type START w))))).
Proof.
  intros Hp. split.
  - intros Hfind. unfold FieldCanvas._on_right_click. by rewrite Hfind.
  - intros index Hfind. unfold FieldCanvas._on_right_click. rewrite Hfind, Hp.
    cbn [mbind py_bind].
    assert (0 <= index < Z.of_nat (length (waypoints p))) as Hrange.
    { unfold FieldCanvas._find_waypoint_at in Hfind. rewrite Hp in Hfind.
      apply find_waypoint_from_spec in Hfind. lia. }
    eexists. split; [reflexivity|].
    cbn [fc_path fc_selected_index]. split; [done|]. split.
    { unfold Path.remove_waypoint.
      destruct (Z.leb_spec 0 index); [|lia].
      destruct (Z.ltb_spec index (Z.of_nat (length (waypoints p)))); [|lia].
      cbn [andb].
      assert (length (delete (Z.to_nat index) (waypoints p))
              = pred (length (waypoints p))) as Hl.
      { rewrite length_delete by (apply lookup_lt_is_Some_2; lia). lia. }
      destruct (_ && _); cbn [waypoints set_waypoints]; by rewrite ?length_alter, Hl. }
    split; [by intros ->|]. split.
    { intros ->. by rewrite Z.eqb_refl. }
    intros s w -> Hne Hs Hw.
    destruct (Z.eqb_spec s index) as [|_]; [done|].
    pose proof (remove_waypoint_lookup p index s w Hrange Hs Hne Hw) as Hlook.
    cbn zeta in Hlook.
    destruct (s >? index); eexists; (split; [reflexivity|]); exact Hlook.
Qed.

End CanvasSearch.

Lemma find_waypoint_at_first_hit_witness :
  FieldCanvas._find_waypoint_at pow_stand_in sqrt_stand_in demo_canvas 258 200 = Ok (Some 1) /\
  0 <= 1 < Z.of_nat (length (waypoints scenario_path)) /\
  (exists w, waypoints scenario_path !! Z.to_nat 1 = Some w /\
     FieldCanvas.within_hit_radius pow_stand_in sqrt_stand_in (fc_coords demo_canvas) 258 200 w
       = Ok true) /\
  (forall (j : nat) w, (j < Z.to_nat 1)%nat -> waypoints scenario_path !! j = Some w ->
     FieldCanvas.within_hit_radius pow_stand_in sqrt_stand_in (fc_coords demo_canvas) 258 200 w
       = Ok false).
Proof.
  assert (FieldCanvas._find_waypoint_at pow_stand_in sqrt_stand_in demo_canvas 258 200 = Ok (Some 1))
    as H by (vm_compute; reflexivity).
  split; [exact H|].
  exact (find_waypoint_at_first_hit pow_stand_in sqrt_stand_in demo_canvas 258 200 (Some 1) H).
Defined.

Lemma on_right_click_keeps_selection_witness :
  fc_path demo_canvas = Some scenario_path /\
  FieldCanvas._find_waypoint_at pow_stand_in sqrt_stand_in demo_canvas 300 300 = Ok (Some 0) /\
  exists self',
    FieldCanvas._on_right_click pow_stand_in sqrt_stand_in demo_canvas 300 300 = Ok self' /\
    fc_path self' = Some (Path.remove_waypoint scenario_path 0) /\
    fc_selected_index self' = Some 0 /\
    (waypoints <$> fc_path self') ≫= head
      = set_motion_type START <$> (waypoints scenario_path !! 1%nat).
Proof.
  assert (FieldCanvas._find_waypoint_at pow_stand_in sqrt_stand_in demo_canvas 300 300 = Ok (Some 0))
    as H by (vm_compute; reflexivity).
  split; [reflexivity|]. split; [exact H|].
  destruct (proj2 (on_right_click_keeps_selection pow_stand_in sqrt_stand_in demo_canvas
                     scenario_path 300 300 eq_refl) 0 H)
    as (self' & Hclick & Hpath & _).
  exists self'. split; [exact Hclick|]. split; [exact Hpath|].
  vm_compute in Hclick. injection Hclick as <-. split; reflexivity.
Defined.

(** ** The property editor (ui/waypoint_panel.py) *)

(** X22. [_on_heading_mode_change] re-establishes the heading invariant,
    whatever the waypoint held before: it sets the mode that the radio
    buttons name; in AUTO mode it clears the heading; in MANUAL mode it
    keeps a heading that is there and stores [0.0] when there is none.
    The other fields of the waypoint are not touched.  A value of the
    variable that names no mode raises [ValueError]; while the panel is
    updating, or without a waypoint, nothing happens. *)
Theorem on_heading_mode_change_spec (self : WaypointPanel) :
  (wpp_updating self = true \/ wpp_waypoint self = None ->
   WaypointPanel._on_heading_mode_change self = Ok self) /\
  (forall w, wpp_updating self = false -> wpp_waypoint self = Some w ->
     (heading_mode_var self <> "auto" -> heading_mode_var self <> "manual" ->
      WaypointPanel._on_heading_mode_change self = Raise ValueError) /\
     (forall mode, HeadingMode_value mode = heading_mode_var self ->
      exists w',
        WaypointPanel._on_heading_mode_change self = Ok (with_waypoint w' self) /\
        heading_invariant w' /\
        heading_mode w' = mode /\
        heading w' = match mode, heading w with
                     | AUTO, _ => None
                     | MANUAL, Some h => Some h
                     | MANUAL, None => Some fzero
                     end /\
        set_heading (heading w) (set_heading_mode (heading_mode w) w') = w)).
Proof.
  split.
  - unfold WaypointPanel._on_heading_mode_change.
    intros [-> | ->]; [done | by destruct (wpp_updating self)].
  - intros w Hupd Hw. unfold WaypointPanel._on_heading_mode_change.
    rewrite Hupd, Hw. split.
    + intros Hauto Hmanual. unfold HeadingMode_of_value.
      by rewrite !decide_False by done.
    + intros mode <-. rewrite HeadingMode_value_roundtrip. cbn [mbind py_bind].
      eexists. split; [reflexivity|].
      destruct w as [x y h hm mt rv it cv ca].
      destruct mode, h as [h|]; cbn; (split; [|done]);
        unfold heading_invariant; cbn; split; try done;
        split; intros H; try done; by destruct H.
Qed.

Lemma on_heading_mode_change_spec_witness :
  let w := mkWaypoint (float_lit (-10)) (float_lit 24) None AUTO MOVE_TO_POSE
                      false false false ["intake_in"] in
  let self := mkWaypointPanel (Some w) false "manual" "moveToPose" in
  wpp_updating self = false /\ wpp_waypoint self = Some w /\
  HeadingMode_value MANUAL = heading_mode_var self /\
  exists w',
    WaypointPanel._on_heading_mode_change self = Ok (with_waypoint w' self) /\
    heading_invariant w' /\
    heading_mode w' = MANUAL /\
    heading w' = Some fzero /\
    set_heading (heading w) (set_heading_mode (heading_mode w) w') = w.
Proof.
  intros w self. split; [reflexivity|]. split; [reflexivity|]. split; [reflexivity|].
  apply (proj2 (proj2 (on_heading_mode_change_spec self) w eq_refl eq_refl) MANUAL).
  reflexivity.
Defined.

Lemma count_START_elem (ws : list Waypoint) (w : Waypoint) :
  w ∈ ws -> motion_type w = START -> (1 <= count_START ws)%nat.
Proof.
  intros Hin Hstart. unfold count_START.
  assert (w ∈ filter (fun w => motion_type w = START) ws) as Hf
    by by apply list_elem_of_filter.
  destruct (filter _ ws); [by apply elem_of_nil in Hf | cbn; lia].
Qed.

(** X23. The motion type box does not protect the START invariant.
    [_on_motion_change] stores whatever motion type the box names, and
    the box offers "start" for every waypoint that is not a START
    waypoint already: on a path whose first waypoint is the START one,
    choosing "start" for a later waypoint leaves two START waypoints on
    the path.  (The panel edits the waypoint object that the path holds
    at index [i]: the list afterwards is the list with that entry
    replaced.)  A value that names no motion type is ignored. *)
Theorem on_motion_change_second_START (self : WaypointPanel) (ws : list Waypoint)
    (i : nat) (w : Waypoint) :
  (MotionType_of_value (motion_var self) = Raise ValueError ->
   WaypointPanel._on_motion_change self = Ok self) /\
  (wpp_updating self = false -> wpp_waypoint self = Some w ->
   motion_var self = "start" ->
   START_invariant ws -> (1 <= i)%nat -> ws !! i = Some w ->
   exists w',
     WaypointPanel._on_motion_change self = Ok (with_waypoint w' self) /\
     w' = set_motion_type START w /\
     count_START (<[i := w']> ws) = 2%nat /\
     ~ START_invariant (<[i := w']> ws)).
Proof.
  split.
  - intros Hbad. unfold WaypointPanel._on_motion_change. rewrite Hbad.
    by destruct (wpp_updating self), (wpp_waypoint self).
  - intros Hupd Hw Hvar [Hcount Hhead] Hi Hlook.
    unfold WaypointPanel._on_motion_change. rewrite Hupd, Hw, Hvar.
    eexists. split; [reflexivity|]. split; [reflexivity|].
    destruct ws as [|w0 rest]; [done|].
    destruct i as [|j]; [lia|]. cbn [insert list_insert].
    assert (motion_type w0 = START) as H0.
    { specialize (Hhead ltac:(done)). cbn in Hhead. by injection Hhead. }
    assert (count_START (w0 :: <[j := set_motion_type START w]> rest)
            = S (count_START (<[j := set_motion_type START w]> rest))) as Hcons.
    { unfold count_START. by rewrite filter_cons_True. }
    assert (count_START (w0 :: rest) = S (count_START rest)) as Hcons0.
    { unfold count_START. by rewrite filter_cons_True. }
    assert (count_START rest = 0%nat) as Hrest by lia.
    assert (count_START (<[j := set_motion_type START w]> rest) = 1%nat) as Hone.
    { cbn in Hlook. clear -Hlook Hrest. revert j Hlook Hrest.
      induction rest as [|r rest IH]; intros j Hlook Hrest; [done|].
      unfold count_START in *.
      destruct (decide (motion_type r = START)) as [Hr | Hr].
      { rewrite filter_cons_True in Hrest by done. cbn in Hrest. lia. }
      rewrite filter_cons_False in Hrest by done.
      destruct j as [|j]; cbn [insert list_insert].
      - rewrite filter_cons_True by done. cbn. by rewrite Hrest.
      - rewrite filter_cons_False by done. by apply (IH j). }
    match goal with
    | |- count_START ?l = _ /\ _ =>
        assert (count_START l = 2%nat) as H2 by exact (eq_trans Hcons (f_equal S Hone))
    end.
    split; [exact H2|]. intros [Hle _]. rewrite H2 in Hle. lia.
Qed.

Lemma on_motion_change_second_START_witness :
  let w := mkWaypoint (float_lit (-10)) (float_lit 24) None AUTO MOVE_TO_POSE
                      false false false ["intake_in"] in
  let self := mkWaypointPanel (Some w) false "auto" "start" in
  wpp_updating self = false /\ wpp_waypoint self = Some w /\
  motion_var self = "start" /\
  START_invariant (waypoints scenario_path) /\ (1 <= 1)%nat /\
  waypoints scenario_path !! 1%nat = Some w /\
  exists w',
    WaypointPanel._on_motion_change self = Ok (with_waypoint w' self) /\
    w' = set_motion_type START w /\
    count_START (<[1%nat := w']> (waypoints scenario_path)) = 2%nat /\
    ~ START_invariant (<[1%nat := w']> (waypoints scenario_path)).
Proof.
  intros w self.
  assert (START_invariant (waypoints scenario_path)) as Hinv.
  { split; [vm_compute; lia | intros _; reflexivity]. }
  split; [reflexivity|]. split; [reflexivity|]. split; [reflexivity|].
  split; [exact Hinv|]. split; [lia|]. split; [reflexivity|].
  exact (proj2 (on_motion_change_second_START self (waypoints scenario_path) 1 w)
               eq_refl eq_refl eq_refl Hinv (le_n 1) eq_refl).
Defined.

(** ** The commands of a waypoint (ui/command_panel.py) *)

Lemma list_setitem_in_range {A} (l : list A) (i : nat) (v : A) :
  (i < length l)%nat -> list_setitem l (Z.of_nat i) v = Ok (<[i := v]> l).
Proof.
  intros Hlt. unfold list_setitem, list_index.
  destruct (Z.leb_spec 0 (Z.of_nat i)); [|lia].
  destruct (Z.ltb_spec (Z.of_nat i) (Z.of_nat (length l))); [|lia].
  cbn. by rewrite Nat2Z.id.
Qed.

Lemma swap_items_in_range (cmds : list string) (i j : nat) (x y : string) :
  cmds !! i = Some x -> cmds !! j = Some y ->
  CommandPanel.swap_items cmds (Z.of_nat i) (Z.of_nat j)
    = Ok (<[j := x]> (<[i := y]> cmds)).
Proof.
  intros Hx Hy. unfold CommandPanel.swap_items.
  rewrite (list_getitem_lookup _ _ _ Hy), (list_getitem_lookup _ _ _ Hx).
  cbn [mbind py_bind].
  rewrite list_setitem_in_range by (by eapply lookup_lt_Some).
  cbn [mbind py_bind].
  rewrite list_setitem_in_range; [done|].
  rewrite length_insert. by eapply lookup_lt_Some.
Qed.

Lemma swap_adjacent_lookup (cmds : list string) (n : nat) (x y : string) :
  cmds !! n = Some x -> cmds !! S n = Some y ->
  forall k, <[n := y]> (<[S n := x]> cmds) !! k =
            cmds !! (if decide (k = n) then S n else if decide (k = S n) then n else k).
Proof.
  intros Hx Hy k.
  pose proof (lookup_lt_Some _ _ _ Hx). pose proof (lookup_lt_Some _ _ _ Hy).
  destruct (decide (k = n)) as [-> | Hkn].
  - rewrite list_lookup_insert_eq by (rewrite length_insert; lia). done.
  - rewrite list_lookup_insert_ne by done.
    destruct (decide (k = S n)) as [-> | HkS].
    + by rewrite list_lookup_insert_eq by lia.
    + by rewrite list_lookup_insert_ne by done.
Qed.

Lemma swap_adjacent_involutive (cmds : list string) (n : nat) (x y : string) :
  cmds !! n = Some x -> cmds !! S n = Some y ->
  <[S n := y]> (<[n := x]> (<[n := y]> (<[S n := x]> cmds))) = cmds.
Proof.
  intros Hx Hy.
  rewrite list_insert_insert_eq.
  rewrite (list_insert_insert_ne _ n (S n)) by lia.
  rewrite list_insert_insert_eq.
  rewrite (list_insert_id _ n x) by done.
  by apply list_insert_id.
Qed.

(** X24. Moving a command up and down.  [_move_up] on the item at
    [index > 0] exchanges it with the item before it and touches nothing
    else: the list afterwards is the old one read with the two positions
    exchanged, and the other fields of the waypoint are as before;
    [_move_down] on the position it has moved to puts the list back.
    The first item does not move up and the last does not move down;
    without a selection or without a waypoint nothing happens. *)
Theorem move_up_then_down (w : Waypoint) (n : nat) :
  CommandPanel._move_up (Some w) [0] = Ok (Some w) /\
  CommandPanel._move_down (Some w) [Z.of_nat (length (commands_after w)) - 1]
    = Ok (Some w) /\
  CommandPanel._move_up (Some w) [] = Ok (Some w) /\
  CommandPanel._move_down None [Z.of_nat n] = Ok None /\
  ((S n < length (commands_after w))%nat ->
   exists cmds,
     CommandPanel._move_up (Some w) [Z.of_nat (S n)]
       = Ok (Some (set_commands_after cmds w)) /\
     (forall k, cmds !! k =
        commands_after w
          !! (if decide (k = n) then S n else if decide (k = S n) then n else k)) /\
     CommandPanel._move_down (Some (set_commands_after cmds w)) [Z.of_nat n]
       = Ok (Some w) /\
     CommandPanel._move_down (Some w) [Z.of_nat n]
       = Ok (Some (set_commands_after cmds w))).
Proof.
  split; [reflexivity|]. split.
  { unfold CommandPanel._move_down. by rewrite Z.ltb_irrefl. }
  split; [reflexivity|]. split; [reflexivity|].
  intros Hlen.
  destruct (lookup_lt_is_Some_2 (commands_after w) n) as [x Hx]; [lia|].
  destruct (lookup_lt_is_Some_2 (commands_after w) (S n)) as [y Hy]; [lia|].
  exists (<[n := y]> (<[S n := x]> (commands_after w))).
  assert (Z.of_nat (S n) - 1 = Z.of_nat n) as HSn by lia.
  assert (Z.of_nat n + 1 = Z.of_nat (S n)) as Hn1 by lia.
  split; [|split; [|split]].
  - unfold CommandPanel._move_up.
    destruct (Z.gtb_spec (Z.of_nat (S n)) 0); [|lia].
    rewrite HSn, (swap_items_in_range _ (S n) n y x) by done. reflexivity.
  - by apply swap_adjacent_lookup.
  - unfold CommandPanel._move_down. cbn [commands_after set_commands_after].
    rewrite !length_insert.
    destruct (Z.ltb_spec (Z.of_nat n) (Z.of_nat (length (commands_after w)) - 1)); [|lia].
    rewrite Hn1, (swap_items_in_range _ n (S n) y x).
    + cbn [mbind py_bind]. rewrite swap_adjacent_involutive by done. by destruct w.
    + rewrite list_lookup_insert_eq by (rewrite length_insert; lia). done.
    + rewrite list_lookup_insert_ne by lia.
      by rewrite list_lookup_insert_eq by lia.
  - unfold CommandPanel._move_down.
    destruct (Z.ltb_spec (Z.of_nat n) (Z.of_nat (length (commands_after w)) - 1)); [|lia].
    rewrite Hn1, (swap_items_in_range _ n (S n) x y) by done.
    cbn [mbind py_bind]. by rewrite list_insert_insert_ne by lia.
Qed.

Lemma move_up_then_down_witness :
  let w := set_commands_after ["intake_in"; "outtake"; "wait"]
                              (Waypoint_new (float_lit 0) (float_lit 0)) in
  (S 0 < length (commands_after w))%nat /\
  CommandPanel._move_up (Some w) [1]
    = Ok (Some (set_commands_after ["outtake"; "intake_in"; "wait"] w)) /\
  CommandPanel._move_down
      (Some (set_commands_after ["outtake"; "intake_in"; "wait"] w)) [0]
    = Ok (Some w).
Proof.
  intros w. split; [cbn; lia|].
  destruct (proj2 (proj2 (proj2 (proj2 (move_up_then_down w 0)))))
    as (cmds & Hup & _ & Hdown & _); [cbn; lia|].
  assert (cmds = ["outtake"; "intake_in"; "wait"]) as ->.
  { vm_compute in Hup. by injection Hup as <-. }
  split; [exact Hup | exact Hdown].
Defined.

(** ** The paths of the project (ui/path_panel.py) *)

Lemma has_current_path_iff (self : PathPanel) :
  has_current_path self <->
  exists project, pp_project self = Some project /\
    0 <= current_path_index self < Z.of_nat (length (paths project)).
Proof.
  unfold has_current_path, PathPanel.get_current_path.
  destruct (pp_project self) as [project|].
  - destruct (Z.leb_spec 0 (current_path_index self));
      destruct (Z.ltb_spec (current_path_index self) (Z.of_nat (length (paths project))));
      cbn [andb]; split.
    + intros _. exists project. split; [done | lia].
    + intros _. apply lookup_lt_is_Some_2. lia.
    + by intros [? ?].
    + intros (? & [= <-] & ?). lia.
    + by intros [? ?].
    + intros (? & [= <-] & ?). lia.
    + by intros [? ?].
    + intros (? & [= <-] & ?). lia.
  - split; [by intros [? ?] | by intros (? & ? & _)].
Qed.

Lemma add_path_has_current_path (self : PathPanel) (answer : option string) :
  has_current_path self -> has_current_path (PathPanel._add_path self answer).
Proof.
  intros Hcur. unfold PathPanel._add_path.
  destruct (pp_project self) as [project|] eqn:Hp; [|done].
  destruct answer as [n|]; [|done].
  case_bool_decide; [done|].
  apply has_current_path_iff. eexists. split; [reflexivity|].
  cbn. rewrite length_app. cbn. lia.
Qed.

Lemma remove_path_cases (self : PathPanel) (project : Project) :
  pp_project self = Some project ->
  0 <= current_path_index self < Z.of_nat (length (paths project)) ->
  ((length (paths project) <= 1)%nat /\ PathPanel._remove_path self = self) \/
  ((2 <= length (paths project))%nat /\
   PathPanel._remove_path self =
     mkPathPanel
       (Some {| season := season project;
                paths := delete (Z.to_nat (current_path_index self)) (paths project) |})
       (Z.min (current_path_index self) (Z.of_nat (length (paths project)) - 2))
       false).
Proof.
  intros Hp Hidx. unfold PathPanel._remove_path. rewrite Hp.
  destruct (Z.leb_spec (Z.of_nat (length (paths project))) 1).
  - left. split; [lia | done].
  - right. split; [lia|]. unfold PathPanel._load_path, Project.remove_path.
    destruct (Z.leb_spec 0 (current_path_index self)); [|lia].
    destruct (Z.ltb_spec (current_path_index self) (Z.of_nat (length (paths project))));
      [|lia].
    cbn [andb pp_project paths].
    rewrite length_delete by (apply lookup_lt_is_Some_2; lia).
    by replace (Z.of_nat (length (paths project) - 1) - 1)
      with (Z.of_nat (length (paths project)) - 2) by lia.
Qed.

Lemma remove_path_has_current_path (self : PathPanel) :
  has_current_path self -> has_current_path (PathPanel._remove_path self).
Proof.
  intros Hcur. pose proof Hcur as (project & Hp & Hidx)%has_current_path_iff.
  destruct (remove_path_cases self project Hp Hidx) as [[_ ->] | [Hlen ->]]; [done|].
  apply has_current_path_iff. eexists. split; [reflexivity|].
  cbn [current_path_index paths].
  rewrite length_delete by (apply lookup_lt_is_Some_2; lia). lia.
Qed.

(** X25. The path panel never loses its current path.  A panel that shows
    a new project has one; "+" and "-", pressed in any order and with
    any answers to the name dialog, leave it with one.  "-" keeps the
    last path of a project: with one path it changes nothing, with more
    it deletes the current path and moves the index to the path that
    took its place, or to the new last path.  Selecting an entry of the
    path list makes that path the current one; without a selection
    (the list reports -1) nothing changes. *)
Theorem path_panel_keeps_current_path (self : PathPanel) (season_id : string)
    (ops : list path_panel_op) :
  has_current_path (PathPanel.set_project self (Some (create_new_project season_id))) /\
  (has_current_path self -> has_current_path (foldl run_path_panel_op self ops)) /\
  (forall project, pp_project self = Some project ->
     0 <= current_path_index self < Z.of_nat (length (paths project)) ->
     ((length (paths project) <= 1)%nat /\ PathPanel._remove_path self = self) \/
     ((2 <= length (paths project))%nat /\
      PathPanel._remove_path self =
        mkPathPanel
          (Some {| season := season project;
                   paths := delete (Z.to_nat (current_path_index self))
                                   (paths project) |})
          (Z.min (current_path_index self) (Z.of_nat (length (paths project)) - 2))
          false)) /\
  (forall project selected, pp_updating self = false ->
     pp_project self = Some project ->
     (selected < 0 -> PathPanel._on_path_selected self selected = self) /\
     (0 <= selected < Z.of_nat (length (paths project)) ->
      PathPanel.get_current_path (PathPanel._on_path_selected self selected)
        = paths project !! Z.to_nat selected)).
Proof.
  split; [|split; [|split]].
  - apply has_current_path_iff. eexists. split; [reflexivity|]. cbn. lia.
  - revert self. induction ops as [|op ops IH]; intros self Hcur; [done|].
    cbn [foldl]. apply IH. destruct op as [answer|].
    + by apply add_path_has_current_path.
    + by apply remove_path_has_current_path.
  - apply remove_path_cases.
  - intros project selected Hupd Hp. unfold PathPanel._on_path_selected.
    rewrite Hupd, Hp. split.
    + intros Hneg. by destruct (Z.geb_spec selected 0); [lia|].
    + intros Hsel. destruct (Z.geb_spec selected 0); [|lia].
      unfold PathPanel.get_current_path, PathPanel._load_path.
      cbn [pp_project current_path_index]. rewrite Hp.
      destruct (Z.leb_spec 0 selected); [|lia].
      by destruct (Z.ltb_spec selected (Z.of_nat (length (paths project)))); [|lia].
Qed.

Lemma path_panel_keeps_current_path_witness :
  let self := PathPanel.set_project (mkPathPanel None 0 false)
                                    (Some (create_new_project "pushback_2026")) in
  has_current_path self /\
  has_current_path
    (foldl run_path_panel_op self
           [PressRemovePath; PressAddPath (Some "Auto2"); PressAddPath None;
            PressRemovePath; PressRemovePath]).
Proof.
  intros self.
  assert (has_current_path self) as H by (by eexists).
  split; [exact H|].
  exact (proj1 (proj2 (path_panel_keeps_current_path self "pushback_2026" _)) H).
Defined.

Example remove_path_moves_index :
  let project := {| season := "s";
                    paths := [Path_new "A" RED LEFT; Path_new "B" RED LEFT;
                              Path_new "C" RED LEFT] |} in
  PathPanel.get_current_path (PathPanel._remove_path (mkPathPanel (Some project) 2 false))
    = Some (Path_new "B" RED LEFT) /\
  PathPanel.get_current_path (PathPanel._remove_path (mkPathPanel (Some project) 0 false))
    = Some (Path_new "B" RED LEFT).
Proof. split; reflexivity. Qed.

(** ** Filling in a code template (core/commands.py) *)

Lemma str_replace_from_no_open (rest new : string) : forall s,
  mentions open_brace s = false ->
  str_replace_from (String open_brace rest) new 0 s = s.
Proof.
  induction s as [|c s IH]; [done|].
  cbn [mentions]. intros [Hc Hs]%orb_false_elim.
  cbn [str_replace_from String.prefix].
  destruct (Ascii.ascii_dec open_brace c) as [<- | _]; [done|].
  by rewrite IH.
Qed.

Lemma append_cons (c : Ascii.ascii) (s t : string) :
  String c s +:+ t = String c (s +:+ t).
Proof. reflexivity. Qed.

Lemma append_nil (t : string) : "" +:+ t = t.
Proof. reflexivity. Qed.

Lemma prefix_append (s t : string) : String.prefix s (s +:+ t) = true.
Proof.
  induction s as [|c s IH]; [by destruct t|].
  rewrite append_cons. cbn [String.prefix]. by destruct (Ascii.ascii_dec c c).
Qed.

Lemma str_replace_from_skip (old new : string) : forall (a post : string),
  str_replace_from old new (String.length a) (a +:+ post)
  = str_replace_from old new 0 post.
Proof.
  induction a as [|c a IH]; intros post; [by destruct post|].
  rewrite append_cons. cbn [String.length str_replace_from]. apply IH.
Qed.

Lemma str_replace_placeholder (rest new : string) : forall pre post,
  mentions open_brace pre = false ->
  str_replace_from (String open_brace rest) new 0 (pre +:+ String open_brace rest +:+ post)
  = pre +:+ new +:+ str_replace_from (String open_brace rest) new 0 post.
Proof.
  induction pre as [|c pre IH]; intros post.
  - intros _. rewrite append_nil, append_cons.
    change (str_replace_from (String open_brace rest) new 0 (String open_brace (rest +:+ post)))
      with (if String.prefix (String open_brace rest) (String open_brace (rest +:+ post))
            then new +:+ str_replace_from (String open_brace rest) new
                           (String.length (String open_brace rest) - 1) (rest +:+ post)
            else String open_brace (str_replace_from (String open_brace rest) new 0 (rest +:+ post))).
    change (String open_brace (rest +:+ post)) with (String open_brace rest +:+ post).
    rewrite prefix_append. cbn [String.length].
    replace (S (String.length rest) - 1)%nat with (String.length rest) by lia.
    by rewrite str_replace_from_skip.
  - cbn [mentions]. intros [Hc Hs]%orb_false_elim.
    rewrite !(append_cons c pre). cbn [str_replace_from String.prefix].
    destruct (Ascii.ascii_dec open_brace c) as [<- | _]; [done|].
    by rewrite IH.
Qed.

Section GenerateCode.
Variable py_str : pyval -> string.

(** X26. [generate_code] on templates and placeholders.  Without
    parameter values, or with an empty dictionary, the template is
    returned as it is; a template in which no [{] occurs is returned as
    it is whatever values are given; and in a template that consists of
    text without [{], the placeholder [{name}] and more such text, the
    value given for [name] takes the place of the placeholder. *)
Theorem generate_code_placeholders (cmd : Command) :
  generate_code py_str cmd None = code_template cmd /\
  generate_code py_str cmd (Some []) = code_template cmd /\
  (forall items, mentions open_brace (code_template cmd) = false ->
     generate_code py_str cmd (Some items) = code_template cmd) /\
  (forall pre pname post value,
     code_template cmd = pre +:+ ("{" +:+ pname +:+ "}") +:+ post ->
     mentions open_brace pre = false -> mentions open_brace post = false ->
     generate_code py_str cmd (Some [(pname, value)]) = pre +:+ py_str value +:+ post).
Proof.
  split; [done|]. split; [done|]. split.
  - intros items Hno. unfold generate_code.
    destruct items as [|item items]; [done|].
    generalize (item :: items). clear item items. intros items.
    induction items as [|[pname value] items IH]; [done|].
    cbn [foldl]. unfold str_replace at 2.
    change ("{" +:+ pname +:+ "}") with (String open_brace (pname +:+ "}")).
    by rewrite str_replace_from_no_open.
  - intros pre pname post value Htemplate Hpre Hpost.
    unfold generate_code. cbn [foldl]. unfold str_replace. rewrite Htemplate.
    change ("{" +:+ pname +:+ "}") with (String open_brace (pname +:+ "}")).
    rewrite (str_replace_placeholder (pname +:+ "}") (py_str value) pre post Hpre).
    by rewrite str_replace_from_no_open.
Qed.

End GenerateCode.

Lemma generate_code_placeholders_witness :
  let cmd := mkCommand "wait" "Wait" "pros::delay({ms});" "#FFFFFF" "Misc" "" [] in
  code_template cmd = "pros::delay(" +:+ ("{" +:+ "ms" +:+ "}") +:+ ");" /\
  mentions open_brace "pros::delay(" = false /\ mentions open_brace ");" = false /\
  generate_code (fun _ => "500") cmd (Some [("ms", PyNone)]) = "pros::delay(500);".
Proof.
  intros cmd. split; [reflexivity|]. split; [reflexivity|]. split; [reflexivity|].
  apply (proj2 (proj2 (proj2 (generate_code_placeholders (fun _ => "500") cmd)))
           "pros::delay(" "ms" ");" PyNone); reflexivity.
Defined.

(** ** Commands by category (io/season_loader.py) *)

Lemma append_to_category_keys (groups : list (string * list Command))
    (c : string) (cmd : Command) :
  (fst <$> append_to_category groups c cmd) =
    if bool_decide (c ∈ (fst <$> groups)) then fst <$> groups
    else (fst <$> groups) ++ [c].
Proof.
  induction groups as [|[c' cmds] groups IH]; [done|].
  cbn [append_to_category fmap list_fmap fst].
  destruct (String.eqb_spec c' c) as [-> | Hne].
  - rewrite bool_decide_eq_true_2 by apply list_elem_of_here. done.
  - cbn [fmap list_fmap fst]. fold (@fmap list _ _ _ (@fst string (list Command))).
    rewrite IH. case_bool_decide as Hin.
    + rewrite bool_decide_eq_true_2 by (by apply list_elem_of_further). done.
    + rewrite bool_decide_eq_false_2; [done|].
      intros [?|?]%elem_of_cons; congruence.
Qed.

Lemma append_to_category_lookup (groups : list (string * list Command))
    (c : string) (cmd : Command) (k : string) :
  category_lookup (append_to_category groups c cmd) k =
    if String.eqb c k then Some (default [] (category_lookup groups c) ++ [cmd])
    else category_lookup groups k.
Proof.
  induction groups as [|[c' cmds] groups IH]; cbn [append_to_category category_lookup].
  - by destruct (String.eqb c k).
  - destruct (String.eqb_spec c' c) as [-> | Hne]; cbn [category_lookup].
    + by destruct (String.eqb_spec c k).
    + rewrite IH. destruct (String.eqb_spec c k) as [-> | Hck]; [|done].
      by apply String.eqb_neq in Hne as ->.
Qed.

Lemma get_commands_by_category_snoc (commands : list (string * Command))
    (entry : string * Command) :
  get_commands_by_category (commands ++ [entry]) =
    append_to_category (get_commands_by_category commands)
                       (category (snd entry)) (snd entry).
Proof. unfold get_commands_by_category. by rewrite fmap_app, foldl_app. Qed.

(** X27. [get_commands_by_category] groups the commands of the loader: the
    keys of the dictionary it returns are pairwise distinct and are
    exactly the categories that occur; under each key stand all the
    commands of that category, and only those, in the order in which the
    loader holds them. *)
Theorem get_commands_by_category_groups (commands : list (string * Command)) :
  NoDup (fst <$> get_commands_by_category commands) /\
  forall c,
    category_lookup (get_commands_by_category commands) c =
      match of_category c (snd <$> commands) with
      | [] => None
      | cmds => Some cmds
      end.
Proof.
  induction commands as [|entry commands [IHkeys IH]] using rev_ind.
  - split; [apply NoDup_nil_2 | done].
  - rewrite get_commands_by_category_snoc. split.
    + rewrite append_to_category_keys. case_bool_decide as Hin; [done|].
      apply NoDup_app. split; [done|]. split; [|apply NoDup_singleton].
      intros k Hk [= ->]%list_elem_of_singleton. done.
    + intros c. rewrite append_to_category_lookup, fmap_app.
      unfold of_category in *. rewrite filter_app. cbn [fmap list_fmap].
      destruct (String.eqb_spec (category (snd entry)) c) as [<- | Hne].
      * rewrite filter_cons_True, filter_nil by done. rewrite IH.
        by destruct (filter _ (snd <$> commands)).
      * rewrite filter_cons_False, filter_nil, app_nil_r by done. apply IH.
Qed.

Example get_commands_by_category_demo :
  get_commands_by_category
    [("intake_in", intake_in);
     ("wait", mkCommand "wait" "Wait" "pros::delay({ms});" "#888888" "Timing" "" []);
     ("outtake", outtake)]
  = [("Misc", [intake_in; outtake]);
     ("Timing", [mkCommand "wait" "Wait" "pros::delay({ms});" "#888888" "Timing" "" []])].
Proof. reflexivity. Qed.

(** ** Distance to a segment (core/geomtry.py) *)

Section SegmentDistance.
(** The C library's [pow]. *)
Variable c_pow : float -> float -> float.

Lemma point_to_line_distance_cases (point line_start line_end : Point) :
  point_to_line_distance c_pow point line_start line_end = Raise OverflowError \/
  exists q, point_to_line_distance c_pow point line_start line_end = distance_to c_pow point q.
Proof.
  unfold point_to_line_distance.
  destruct (float_pow c_pow (pt_x (Point_sub line_end line_start)) 2) as [sx|e] eqn:Ex.
  2:{ left. apply float_pow_raises in Ex as ->. done. }
  cbn [mbind py_bind].
  destruct (float_pow c_pow (pt_y (Point_sub line_end line_start)) 2) as [sy|e] eqn:Ey.
  2:{ left. apply float_pow_raises in Ey as ->. done. }
  cbn [mbind py_bind]. change (float_lit 0) with fzero.
  destruct (feq (fadd sx sy) fzero) eqn:Hz.
  - right. by eexists.
  - unfold truediv. rewrite Hz. cbn [mbind py_bind]. right. by eexists.
Qed.


Lemma fadd_square_like (a b : float) :
  square_like a -> square_like b ->
  match fadd a b with
  | S754_zero s | S754_finite s _ _ | S754_infinity s => s = false
  | S754_nan => False
  end.
Proof.
  unfold fadd.
  destruct a as [sa|sa| |sa ma ea], b as [sb|sb| |sb mb eb]; cbn [square_like];
    try done; intros -> ->; try done.
  cbn [SFadd cond_Zopp].
  set (A := fst (shl_align ma _ _)). set (B := fst (shl_align mb _ _)).
  change (Z.pos A + Z.pos B) with (Z.pos (A + B)). cbn [binary_normalize].
  unfold binary_round. destruct (shl_align (A + B) _ _) as [mz ez].
  pose proof (binary_round_aux_sign false (Z.pos mz) ez loc_Exact) as Hs.
  pose proof (binary_round_aux_not_nan false (Z.pos mz) ez loc_Exact ltac:(lia)) as Hn.
  by destruct (binary_round_aux _ _ _ _ _ _).
Qed.

Lemma distance_to_feq (p q : Point) :
  finite_float (pt_x p) -> finite_float (pt_y p) ->
  (pt_x q = pt_x p \/ exists s s', pt_x p = S754_zero s /\ pt_x q = S754_zero s') ->
  (pt_y q = pt_y p \/ exists s s', pt_y p = S754_zero s /\ pt_y q = S754_zero s') ->
  distance_to c_pow p q = Ok fzero.
Proof.
  intros Hx Hy Hqx Hqy. unfold distance_to.
  assert (forall a b, finite_float a ->
            (b = a \/ exists s s', a = S754_zero s /\ b = S754_zero s') ->
            float_pow c_pow (fsub a b) 2 = Ok fzero) as Hsq.
  { intros a b Ha [-> | (s & s' & -> & ->)].
    - by rewrite fsub_diag.
    - by destruct s, s'. }
  by rewrite !Hsq.
Qed.

Lemma fadd_finite_zero (a z : float) :
  finite_float a -> (exists s, z = S754_zero s) ->
  fadd a z = a \/ exists s s', a = S754_zero s /\ fadd a z = S754_zero s'.
Proof.
  intros Ha [s ->]. destruct a as [sa|sa| |sa ma ea]; try done.
  - right. destruct sa, s; by eexists _, _.
  - by left.
Qed.

Lemma point_to_line_distance_at_start (line_start line_end : Point) :
  square_not_negative c_pow ->
  finite_float (pt_x line_start) -> finite_float (pt_y line_start) ->
  finite_float (fsub (pt_x line_end) (pt_x line_start)) ->
  finite_float (fsub (pt_y line_end) (pt_y line_start)) ->
  point_to_line_distance c_pow line_start line_start line_end = Ok fzero \/
  point_to_line_distance c_pow line_start line_start line_end = Raise OverflowError.
Proof.
  intros c_pow_square Hx Hy Hvx Hvy. unfold point_to_line_distance.
  cbn [Point_sub pt_x pt_y]. rewrite !fsub_diag by done.
  set (vx := fsub (pt_x line_end) (pt_x line_start)) in *.
  set (vy := fsub (pt_y line_end) (pt_y line_start)) in *.
  destruct (float_pow c_pow vx 2) as [sx|e] eqn:Ex.
  2:{ right. apply float_pow_raises in Ex as ->. done. }
  destruct (float_pow c_pow vy 2) as [sy|e] eqn:Ey.
  2:{ right. apply float_pow_raises in Ey as ->. done. }
  left. cbn [mbind py_bind]. change (float_lit 0) with fzero.
  destruct (feq (fadd sx sy) fzero) eqn:Hz.
  { by apply distance_to_self. }
  unfold truediv. rewrite Hz. cbn [mbind py_bind].
  change fzero with (S754_zero false) in *.
  destruct (fmul_zero_l vx false Hvx) as [s1 ->].
  destruct (fmul_zero_l vy false Hvy) as [s2 ->].
  pose proof (fadd_square_like sx sy (float_pow_2_finite _ _ _ c_pow_square Hvx Ex) (float_pow_2_finite _ _ _ c_pow_square Hvy Ey))
    as Hr.
  assert (exists s4, SFdiv prec emax (fadd (S754_zero s1) (S754_zero s2)) (fadd sx sy)
                     = S754_zero s4) as [s4 ->].
  { destruct (fadd sx sy) as [s|s| |s m e]; try done;
      destruct s1, s2; by eexists. }
  assert (py_max (S754_zero false) (py_min (float_lit 1) (S754_zero s4))
          = S754_zero false) as -> by by destruct s4.
  destruct (fmul_zero_l vx false Hvx) as [s5 ->].
  destruct (fmul_zero_l vy false Hvy) as [s6 ->].
  apply distance_to_feq; cbn [pt_x pt_y]; try done.
  - destruct (fadd_finite_zero (pt_x line_start) (S754_zero s5) Hx ltac:(by eexists))
      as [-> | (s & s' & Hs & ->)]; [by left | right; by eexists _, _].
  - destruct (fadd_finite_zero (pt_y line_start) (S754_zero s6) Hy ltac:(by eexists))
      as [-> | (s & s' & Hs & ->)]; [by left | right; by eexists _, _].
Qed.


(** X28. [point_to_line_distance] for a segment that is a single finite
    point is the distance to that point, whatever the C library's [pow].
    With a [pow] whose square of a positive number is neither negative
    nor a NaN, the function guards its division: it raises nothing but
    [OverflowError] (no [ZeroDivisionError], no [ValueError]) and never
    returns a negative number; and from the start point of a segment
    whose direction vector is finite it is exactly [0.0], unless
    squaring the vector overflows. *)
Theorem point_to_line_distance_safe (point line_start line_end : Point) :
  (finite_float (pt_x line_start) -> finite_float (pt_y line_start) ->
   point_to_line_distance c_pow point line_start line_start
     = distance_to c_pow point line_start) /\
  (square_not_negative c_pow ->
   (forall e, point_to_line_distance c_pow point line_start line_end = Raise e ->
              e = OverflowError) /\
   (forall d, point_to_line_distance c_pow point line_start line_end = Ok d ->
              flt d fzero = false) /\
   (finite_float (pt_x line_start) -> finite_float (pt_y line_start) ->
    finite_float (fsub (pt_x line_end) (pt_x line_start)) ->
    finite_float (fsub (pt_y line_end) (pt_y line_start)) ->
    point_to_line_distance c_pow line_start line_start line_end = Ok fzero \/
    point_to_line_distance c_pow line_start line_start line_end = Raise OverflowError)).
Proof.
  split.
  { intros Hx Hy. unfold point_to_line_distance. cbn [Point_sub pt_x pt_y].
    by rewrite !fsub_diag. }
  intros Hpow. split; [|split].
  - intros e He.
    destruct (point_to_line_distance_cases point line_start line_end) as [Hr | [q Hq]];
      [congruence|].
    rewrite Hq in He. destruct (distance_to_cases c_pow point q Hpow) as [(d & Hd & _) | Hr];
      congruence.
  - intros d Hd.
    destruct (point_to_line_distance_cases point line_start line_end) as [Hr | [q Hq]];
      [congruence|].
    rewrite Hq in Hd.
    destruct (distance_to_cases c_pow point q Hpow) as [(d' & Hd' & Hs) | Hr];
      [|congruence].
    rewrite Hd in Hd'. injection Hd' as <-. by apply sign_clear_not_negative.
  - by apply point_to_line_distance_at_start.
Qed.

End SegmentDistance.

Lemma point_to_line_distance_safe_witness :
  square_not_negative pow_stand_in /\
  finite_float (pt_x axis_p0) /\ finite_float (pt_y axis_p0) /\
  finite_float (fsub (pt_x axis_p2) (pt_x axis_p0)) /\
  finite_float (fsub (pt_y axis_p2) (pt_y axis_p0)) /\
  (point_to_line_distance pow_stand_in axis_p0 axis_p0 axis_p2 = Ok fzero \/
   point_to_line_distance pow_stand_in axis_p0 axis_p0 axis_p2 = Raise OverflowError).
Proof.
  split; [exact pow_stand_in_square_not_negative|].
  split; [exact I|]. split; [exact I|]. split; [exact I|]. split; [exact I|].
  apply (proj2 (proj2 (proj2 (point_to_line_distance_safe pow_stand_in
                                axis_p0 axis_p0 axis_p2)
                             pow_stand_in_square_not_negative)));
    exact I.
Defined.

(** The projection is clamped to the segment: beside the segment the
    distance is the perpendicular one, beyond its end the distance to
    the end point (with exact squares). *)
Example point_to_line_distance_axis :
  point_to_line_distance pow_stand_in (mkPoint (float_lit 3) (float_lit 7))
                         axis_p0 axis_p2
    = Ok (float_lit 3) /\
  point_to_line_distance pow_stand_in (mkPoint (float_lit 3) (float_lit 32))
                         axis_p0 axis_p2
    = Ok (float_lit 5).
Proof. split; vm_compute; reflexivity. Qed.

(** ** Cubic curves (core/geomtry.py) *)

Section CubicProperties.
Variable c_pow : float -> float -> float.

Lemma cubic_bezier_raises (p0 p1 p2 p3 : Point) (t : float) (e : exn) :
  cubic_bezier c_pow p0 p1 p2 p3 t = Raise e -> e = OverflowError.
Proof.
  unfold cubic_bezier.
  destruct (float_pow c_pow (fsub (float_lit 1) t) 3) eqn:E1;
    [|intros [= <-]; by eapply float_pow_raises].
  destruct (float_pow c_pow (fsub (float_lit 1) t) 2) eqn:E2;
    [|intros [= <-]; by eapply float_pow_raises].
  destruct (float_pow c_pow t 2) eqn:E3;
    [|intros [= <-]; by eapply float_pow_raises].
  destruct (float_pow c_pow t 3) eqn:E4;
    [|intros [= <-]; by eapply float_pow_raises].
  done.
Qed.

(** A coordinate of the cubic curve at [t = 0]: weights 1, 0, 0, 0. *)
Lemma cubic_coordinate_start (a b c d : float) :
  valid_float a -> finite_float a -> finite_float b -> finite_float c ->
  finite_float d ->
  feq (fadd (fadd (fadd (fmul a (float_lit 1)) (fmul b (S754_zero false)))
                  (fmul c (S754_zero false)))
            (fmul d (S754_zero false))) a = true.
Proof.
  intros Hv Ha Hb Hc Hd.
  destruct a as [sa|sa| |sa ma ea]; try done;
  destruct b as [sb|sb| |sb mb eb]; try done;
  destruct c as [sc|sc| |sc mc ec]; try done;
  destruct d as [sd|sd| |sd md ed]; try done;
  try rewrite (fmul_one_r sa ma ea Hv);
  try (by destruct sa, sb, sc, sd);
  cbn [fmul SFmul fadd SFadd xorb]; by apply feq_refl.
Qed.

(** A coordinate of the cubic curve at [t = 1]: weights 0, 0, 0, 1. *)
Lemma cubic_coordinate_end (a b c d : float) :
  valid_float d -> finite_float a -> finite_float b -> finite_float c ->
  finite_float d ->
  feq (fadd (fadd (fadd (fmul a (S754_zero false)) (fmul b (S754_zero false)))
                  (fmul c (S754_zero false)))
            (fmul d (float_lit 1))) d = true.
Proof.
  intros Hv Ha Hb Hc Hd.
  destruct a as [sa|sa| |sa ma ea]; try done;
  destruct b as [sb|sb| |sb mb eb]; try done;
  destruct c as [sc|sc| |sc mc ec]; try done;
  destruct d as [sd|sd| |sd md ed]; try done;
  try rewrite (fmul_one_r sd md ed Hv);
  try (by destruct sa, sb, sc, sd);
  destruct sa, sb, sc; cbn [fmul SFmul fadd SFadd xorb]; by apply feq_refl.
Qed.

Lemma cubic_bezier_at_0 (p0 p1 p2 p3 : Point) :
  cubic_bezier c_pow p0 p1 p2 p3 (float_lit 0) =
    Ok (Point_add (Point_add (Point_add (Point_rmul p0 (float_lit 1))
                                        (Point_rmul p1 (S754_zero false)))
                             (Point_rmul p2 (S754_zero false)))
                  (Point_rmul p3 (S754_zero false))).
Proof. reflexivity. Qed.

Lemma cubic_bezier_at_1 (p0 p1 p2 p3 : Point) :
  cubic_bezier c_pow p0 p1 p2 p3 (float_lit 1) =
    Ok (Point_add (Point_add (Point_add (Point_rmul p0 (S754_zero false))
                                        (Point_rmul p1 (S754_zero false)))
                             (Point_rmul p2 (S754_zero false)))
                  (Point_rmul p3 (float_lit 1))).
Proof. reflexivity. Qed.

(** X29. The endpoints of a cubic curve, whatever the C library's [pow]:
    for finite control points [cubic_bezier] at [t = 0] returns a point
    equal to [p0] and at [t = 1] a point equal to [p3]; the powers that
    occur there, of 0.0 and of 1.0, are settled by the interpreter.  At
    any [t] it raises nothing but [OverflowError]. *)
Theorem cubic_bezier_endpoints (p0 p1 p2 p3 : Point) :
  (finite_point p0 -> finite_point p1 -> finite_point p2 -> finite_point p3 ->
   exists q0 q1,
     cubic_bezier c_pow p0 p1 p2 p3 (float_lit 0) = Ok q0 /\ Point_eqb q0 p0 = true /\
     cubic_bezier c_pow p0 p1 p2 p3 (float_lit 1) = Ok q1 /\ Point_eqb q1 p3 = true) /\
  (forall t e, cubic_bezier c_pow p0 p1 p2 p3 t = Raise e -> e = OverflowError).
Proof.
  split; [|intros t e; apply cubic_bezier_raises].
  intros (Hv0x & Hv0y & Hf0x & Hf0y) (_ & _ & Hf1x & Hf1y)
         (_ & _ & Hf2x & Hf2y) (Hv3x & Hv3y & Hf3x & Hf3y).
  eexists _, _. split; [apply cubic_bezier_at_0|]. split.
  { unfold Point_eqb. apply andb_true_iff. split.
    - by apply (cubic_coordinate_start (pt_x p0) (pt_x p1) (pt_x p2) (pt_x p3)).
    - by apply (cubic_coordinate_start (pt_y p0) (pt_y p1) (pt_y p2) (pt_y p3)). }
  split; [apply cubic_bezier_at_1|].
  unfold Point_eqb. apply andb_true_iff. split.
  - by apply (cubic_coordinate_end (pt_x p0) (pt_x p1) (pt_x p2) (pt_x p3)).
  - by apply (cubic_coordinate_end (pt_y p0) (pt_y p1) (pt_y p2) (pt_y p3)).
Qed.

Lemma mapM_Ok_or_raise {A B} (f : A -> py B) (err : exn) (l : list A) :
  (forall x e, x ∈ l -> f x = Raise e -> e = err) ->
  mapM f l = Raise err \/
  exists ys, mapM f l = Ok ys /\ Forall2 (fun x y => f x = Ok y) l ys.
Proof.
  induction l as [|a l IH]; intros Hf.
  - right. exists []. split; [done | constructor].
  - cbn. destruct (f a) as [y|e] eqn:Ea.
    + destruct IH as [-> | (ys & -> & Hys)].
      * intros x e Hx. apply Hf. by right.
      * by left.
      * right. exists (y :: ys). split; [done|]. by constructor.
    + left. rewrite (Hf a e) by (by try left). done.
Qed.

(** X30. [decompose_cubic_bezier] by the sign of [num_segments]: with 0
    segments it raises [ZeroDivisionError]; with a negative count it
    returns the empty list; with at least one segment it returns
    [num_segments + 1] points, the first the curve at [t = 0] and the
    last the curve at [t = 1], unless a power overflows on the way,
    which raises [OverflowError]. *)
Theorem decompose_cubic_bezier_cases (p0 p1 p2 p3 : Point) (n : Z) :
  (n = 0 -> decompose_cubic_bezier c_pow p0 p1 p2 p3 n = Raise ZeroDivisionError) /\
  (n < 0 -> decompose_cubic_bezier c_pow p0 p1 p2 p3 n = Ok []) /\
  (1 <= n ->
   decompose_cubic_bezier c_pow p0 p1 p2 p3 n = Raise OverflowError \/
   exists pts,
     decompose_cubic_bezier c_pow p0 p1 p2 p3 n = Ok pts /\
     length pts = Z.to_nat (n + 1) /\
     Ok <$> head pts = Some (cubic_bezier c_pow p0 p1 p2 p3 (float_lit 0)) /\
     Ok <$> last pts = Some (cubic_bezier c_pow p0 p1 p2 p3 (float_lit 1))).
Proof.
  split; [|split].
  - intros ->. reflexivity.
  - intros Hn. unfold decompose_cubic_bezier, range. by rewrite seqZ_nil by lia.
  - intros Hn. unfold decompose_cubic_bezier, range.
    destruct (mapM_Ok_or_raise
                (fun i => t ← int_truediv i n; cubic_bezier c_pow p0 p1 p2 p3 t)
                OverflowError (seqZ 0 (n + 1))) as [Hr | (pts & Hpts & Hall)].
    { intros i e Hi%elem_of_seqZ. rewrite int_truediv_unit_interval by lia.
      cbn [mbind py_bind]. apply cubic_bezier_raises. }
    { by left. }
    right. exists pts. split; [done|].
    pose proof (Forall2_length _ _ _ Hall) as Hlen. rewrite length_seqZ in Hlen.
    split; [done|]. split.
    + rewrite seqZ_cons in Hall by lia. inversion Hall as [|i0 q0 l0 pts0 Hq0 _]; subst.
      rewrite int_truediv_0 in Hq0 by done. cbn [mbind py_bind] in Hq0.
      rewrite Hq0. reflexivity.
    + assert (seqZ 0 (n + 1) !! Z.to_nat n = Some n) as Hn_lookup.
      { rewrite lookup_seqZ_lt by lia. f_equal. lia. }
      destruct (Forall2_lookup_l _ _ _ _ _ Hall Hn_lookup) as (q & Hq & Hfq).
      rewrite int_truediv_self in Hfq by done. cbn [mbind py_bind] in Hfq.
      rewrite last_lookup, <- Hlen.
      replace (Nat.pred (Z.to_nat (n + 1))) with (Z.to_nat n) by lia.
      rewrite Hfq, Hq. reflexivity.
Qed.

End CubicProperties.

Lemma cubic_bezier_endpoints_witness :
  finite_point axis_p0 /\ finite_point axis_p1 /\ finite_point axis_p2 /\
  exists q0 q1,
    cubic_bezier pow_stand_in axis_p0 axis_p1 axis_p1 axis_p2 (float_lit 0) = Ok q0 /\
    Point_eqb q0 axis_p0 = true /\
    cubic_bezier pow_stand_in axis_p0 axis_p1 axis_p1 axis_p2 (float_lit 1) = Ok q1 /\
    Point_eqb q1 axis_p2 = true.
Proof.
  assert (finite_point axis_p0 /\ finite_point axis_p1 /\ finite_point axis_p2)
    as (H0 & H1 & H2) by (repeat split; vm_compute; reflexivity).
  split; [exact H0|]. split; [exact H1|]. split; [exact H2|].
  exact (proj1 (cubic_bezier_endpoints pow_stand_in axis_p0 axis_p1 axis_p1 axis_p2)
               H0 H1 H1 H2).
Defined.

Lemma decompose_cubic_bezier_cases_witness :
  1 <= 2 /\
  (decompose_cubic_bezier pow_stand_in axis_p0 axis_p1 axis_p1 axis_p2 2
     = Raise OverflowError \/
   exists pts,
     decompose_cubic_bezier pow_stand_in axis_p0 axis_p1 axis_p1 axis_p2 2 = Ok pts /\
     length pts = 3%nat /\
     Ok <$> head pts
       = Some (cubic_bezier pow_stand_in axis_p0 axis_p1 axis_p1 axis_p2 (float_lit 0)) /\
     Ok <$> last pts
       = Some (cubic_bezier pow_stand_in axis_p0 axis_p1 axis_p1 axis_p2 (float_lit 1))).
Proof.
  split; [lia|].
  apply (proj2 (proj2 (decompose_cubic_bezier_cases pow_stand_in
                         axis_p0 axis_p1 axis_p1 axis_p2 2))). lia.
Defined.

(** With exact powers the curve between (0, 0), (0, 14), (0, 14) and
    (0, 28) passes through (0, 14) at [t = 0.5]. *)
Example decompose_cubic_bezier_axis :
  decompose_cubic_bezier pow_stand_in axis_p0 axis_p1 axis_p1 axis_p2 2
  = Ok [axis_p0; axis_p1; axis_p2].
Proof. vm_compute. reflexivity. Qed.
